(** * FreelaBR pricing calculator (src/frontend/app.js, auth.js)

    A shallow embedding of [FreelaBRCalculator] ([calculate],
    [calculateMonthlyTaxes], [calculateProgressiveIR], [getTaxInfo]), of
    the form handler of app.js and of the session code of auth.js.

    Every quantity of the calculator is a JavaScript number: an IEEE 754
    binary64 float, rounded to nearest with ties to even.  The code is
    embedded once, over an interface of the arithmetic it uses.  What
    depends only on the structure of the code is proved for any carrier of
    that interface; what depends on the arithmetic is proved on [Binary64],
    the kernel's primitive floats, from the rounding of the format
    (modules [Rounding] and [RoundingFacts]). *)

From Stdlib Require Import ZArith QArith Reals Floats String Bool List.
From Stdlib Require Import Lia Lra Psatz.
Import ListNotations.

Set Warnings "-inexact-float".

(** ** The arithmetic used by the calculator *)

Class JSNumber (N : Type) : Type := {
  num_lit   : Q -> N;          (* a decimal literal of the source text *)
  num_add   : N -> N -> N;     (* a + b *)
  num_sub   : N -> N -> N;     (* a - b *)
  num_mul   : N -> N -> N;     (* a * b *)
  num_div   : N -> N -> N;     (* a / b *)
  num_le    : N -> N -> bool;  (* a <= b *)
  num_lt    : N -> N -> bool;  (* a < b *)
  num_round : N -> N;          (* Math.round(a) *)
  num_is_integer : N -> bool   (* Number.isInteger(a) *)
}.

Arguments num_lit {N _} q%_Q.

Declare Scope js_scope.
Delimit Scope js_scope with js.
Infix "+" := num_add : js_scope.
Infix "-" := num_sub : js_scope.
Infix "*" := num_mul : js_scope.
Infix "/" := num_div : js_scope.
Infix "<=?" := num_le : js_scope.
Infix "<?" := num_lt : js_scope.

(** ** IEEE 754 binary64, the numbers of a JavaScript engine *)

Module Binary64.

(** An integer of at most 53 bits as a float (exact). *)
Definition of_Z (z : Z) : float :=
  if (z <? 0)%Z
  then PrimFloat.opp (PrimFloat.of_uint63 (Uint63.of_Z (- z)))
  else PrimFloat.of_uint63 (Uint63.of_Z z).

(** A decimal literal [n / 10^k] denotes the double nearest to it; as [n]
    and [10^k] are exact doubles for every literal of the program, the
    correctly rounded quotient is that double. *)
Definition literal (q : Q) : float :=
  PrimFloat.div (of_Z (Qnum q)) (of_Z (Zpos (Qden q))).

(** [Math.round]: the nearest integer, ties towards +infinity; NaN, the
    infinities and the zeros are returned unchanged, and a negative
    argument that rounds to zero gives -0. *)
Definition round (x : float) : float :=
  match Prim2SF x with
  | S754_finite s m e =>
      if (0 <=? e)%Z then x
      else
        let sm := if s then Z.neg m else Z.pos m in
        let n := ((2 * sm + 2 ^ (- e)) / 2 ^ (1 - e))%Z in
        if (n =? 0)%Z then (if s then neg_zero else zero) else of_Z n
  | _ => x
  end.

(** [Number.isInteger]. *)
Definition is_integer (x : float) : bool :=
  match Prim2SF x with
  | S754_zero _ => true
  | S754_finite _ m e =>
      (0 <=? e)%Z || (Z.pos m mod 2 ^ (- e) =? 0)%Z
  | _ => false
  end.

#[global] Instance number : JSNumber float := {|
  num_lit := literal;
  num_add := PrimFloat.add;
  num_sub := PrimFloat.sub;
  num_mul := PrimFloat.mul;
  num_div := PrimFloat.div;
  num_le := PrimFloat.leb;
  num_lt := PrimFloat.ltb;
  num_round := round;
  num_is_integer := is_integer
|}.

End Binary64.

(** ** Data model *)

Module Input.
Record t (N : Type) : Type := mk {
  desiredMonthlyIncome : N;
  hoursPerDay : N;
  daysPerWeek : N;
  vacationWeeks : N;
  taxRegime : string;
  include13th : bool;
  includeVacation : bool;
  monthlyExpenses : N;
  variableExpenses : N;
  profitMarginPercentage : N
}.
Arguments mk {N}.
Arguments desiredMonthlyIncome {N}.
Arguments hoursPerDay {N}.
Arguments daysPerWeek {N}.
Arguments vacationWeeks {N}.
Arguments taxRegime {N}.
Arguments include13th {N}.
Arguments includeVacation {N}.
Arguments monthlyExpenses {N}.
Arguments variableExpenses {N}.
Arguments profitMarginPercentage {N}.
End Input.

Module Output.
Record t (N : Type) : Type := mk {
  hourlyRate : N;
  dailyRate : N;
  weeklyRate : N;
  monthlyRate : N;
  totalMonthlyCosts : N;
  totalAnnualCosts : N;
  monthlyTaxes : N;
  monthlyProvisions : N;
  netMonthlyIncome : N;
  workingHoursPerMonth : N;
  workingDaysPerMonth : N;
  taxRegime : string;
  smallProjectValue : N;
  mediumProjectValue : N;
  largeProjectValue : N
}.
Arguments mk {N}.
Arguments hourlyRate {N}.
Arguments dailyRate {N}.
Arguments weeklyRate {N}.
Arguments monthlyRate {N}.
Arguments totalMonthlyCosts {N}.
Arguments totalAnnualCosts {N}.
Arguments monthlyTaxes {N}.
Arguments monthlyProvisions {N}.
Arguments netMonthlyIncome {N}.
Arguments workingHoursPerMonth {N}.
Arguments workingDaysPerMonth {N}.
Arguments taxRegime {N}.
Arguments smallProjectValue {N}.
Arguments mediumProjectValue {N}.
Arguments largeProjectValue {N}.
End Output.

(** ** The calculator *)

Section FreelaBRCalculator.

Context {N : Type} `{JSNumber N}.
Local Open Scope string_scope.
Local Open Scope js_scope.

(** Constructor fields (app.js 7-8). *)
Definition MEI_DAS_VALUE : N := num_lit 81.90.
Definition MINIMUM_WAGE : N := num_lit 1518.00.

(** app.js 144-157. *)
Definition calculateProgressiveIR (monthlyIncome : N) : N :=
  if monthlyIncome <=? num_lit 2259.20 then
    num_lit 0
  else if monthlyIncome <=? num_lit 2828.65 then
    (monthlyIncome * num_lit 0.075) - num_lit 169.44
  else if monthlyIncome <=? num_lit 3751.05 then
    (monthlyIncome * num_lit 0.15) - num_lit 381.44
  else if monthlyIncome <=? num_lit 4664.68 then
    (monthlyIncome * num_lit 0.225) - num_lit 662.77
  else
    (monthlyIncome * num_lit 0.275) - num_lit 896.00.

(** app.js 117-142: a [switch] on the regime string with a [default]. *)
Definition calculateMonthlyTaxes (monthlyIncome : N) (taxRegime : string) : N :=
  if String.eqb taxRegime "MEI" then
    MEI_DAS_VALUE
  else if String.eqb taxRegime "PJ_SIMPLES" then
    monthlyIncome * num_lit 0.06
  else if String.eqb taxRegime "PJ_PRESUMIDO" then
    monthlyIncome * num_lit 0.1633
  else if String.eqb taxRegime "AUTONOMO" then
    let inss := MINIMUM_WAGE * num_lit 0.20 in
    let ir := calculateProgressiveIR monthlyIncome in
    inss + ir
  else
    num_lit 0.

(** app.js 47-115. *)
Definition calculate (input : Input.t N) : Output.t N :=
  let workingDaysPerWeek := Input.daysPerWeek input in
  let workingWeeksPerYear := num_lit 52 - Input.vacationWeeks input in
  let workingDaysPerYear := workingDaysPerWeek * workingWeeksPerYear in
  let workingDaysPerMonth := workingDaysPerYear / num_lit 12 in
  let workingHoursPerDay := Input.hoursPerDay input in
  let workingHoursPerMonth := workingHoursPerDay * workingDaysPerMonth in
  let monthlyTaxes :=
    calculateMonthlyTaxes (Input.desiredMonthlyIncome input)
                          (Input.taxRegime input) in
  let monthlyProvisions := num_lit 0 in
  let monthlyProvisions :=
    if Input.include13th input
    then monthlyProvisions + Input.desiredMonthlyIncome input / num_lit 12
    else monthlyProvisions in
  let monthlyProvisions :=
    if Input.includeVacation input
    then monthlyProvisions
         + (Input.desiredMonthlyIncome input / num_lit 3) / num_lit 12
    else monthlyProvisions in
  let totalMonthlyCosts :=
    Input.desiredMonthlyIncome input
    + monthlyTaxes
    + monthlyProvisions
    + Input.monthlyExpenses input
    + Input.variableExpenses input in
  let profitMargin := Input.profitMarginPercentage input / num_lit 100 in
  let totalMonthlyRate := totalMonthlyCosts / (num_lit 1 - profitMargin) in
  let hourlyRate := totalMonthlyRate / workingHoursPerMonth in
  let dailyRate := hourlyRate * workingHoursPerDay in
  let weeklyRate := dailyRate * workingDaysPerWeek in
  let smallProjectValue := hourlyRate * num_lit 30 in
  let mediumProjectValue := hourlyRate * num_lit 100 in
  let largeProjectValue := hourlyRate * num_lit 200 in
  {| Output.hourlyRate := hourlyRate;
     Output.dailyRate := dailyRate;
     Output.weeklyRate := weeklyRate;
     Output.monthlyRate := totalMonthlyRate;
     Output.totalMonthlyCosts := totalMonthlyCosts;
     Output.totalAnnualCosts := totalMonthlyCosts * num_lit 12;
     Output.monthlyTaxes := monthlyTaxes;
     Output.monthlyProvisions := monthlyProvisions;
     Output.netMonthlyIncome := Input.desiredMonthlyIncome input;
     Output.workingHoursPerMonth := num_round workingHoursPerMonth;
     Output.workingDaysPerMonth := num_round workingDaysPerMonth;
     Output.taxRegime := Input.taxRegime input;
     Output.smallProjectValue := smallProjectValue;
     Output.mediumProjectValue := mediumProjectValue;
     Output.largeProjectValue := largeProjectValue |}.

End FreelaBRCalculator.

(** ** Callers' view and the specification's vocabulary *)

(** The error kinds named by the specification (section 7). *)
Inductive EngineError : Type :=
| InvalidInput
| ConfigurationError.

(** How a call ends for its caller: with a value, or with an error. *)
Inductive completion (A : Type) : Type :=
| Returned (value : A)
| Reported (error : EngineError).

Arguments Returned {A}.
Arguments Reported {A}.

Section Calls.

Context {N : Type} `{JSNumber N}.
Local Open Scope string_scope.
Local Open Scope js_scope.

(** A call [calculator.calculate(input)] (app.js 216).  The body of
    [calculate] and of the two methods it calls is made of property reads,
    arithmetic, comparisons and one object literal; there is no [throw], no
    guard and no early [return], so the call always ends with the record
    assembled at lines 95-114. *)
Definition call_calculate (input : Input.t N) : completion (Output.t N) :=
  Returned (calculate input).

(** The keys of [this.taxRegimes] (app.js 11-44), which are also the
    [case] labels of [calculateMonthlyTaxes]. *)
Definition taxRegimes : list string :=
  ["MEI"; "PJ_SIMPLES"; "PJ_PRESUMIDO"; "AUTONOMO"].

Definition known_regime (r : string) : bool :=
  existsb (String.eqb r) taxRegimes.

(** The inputs the specification calls valid (section 3).  The source has
    no such check; the predicate only delimits the statements below. *)
Definition valid_input (input : Input.t N) : bool :=
  (num_lit 0 <=? Input.desiredMonthlyIncome input)
  && (num_lit 0 <? Input.hoursPerDay input)
  && num_is_integer (Input.hoursPerDay input)
  && (num_lit 1 <=? Input.daysPerWeek input)
  && (Input.daysPerWeek input <=? num_lit 7)
  && num_is_integer (Input.daysPerWeek input)
  && (num_lit 0 <=? Input.vacationWeeks input)
  && (Input.vacationWeeks input <=? num_lit 52)
  && num_is_integer (Input.vacationWeeks input)
  && known_regime (Input.taxRegime input)
  && (num_lit 0 <=? Input.monthlyExpenses input)
  && (num_lit 0 <=? Input.variableExpenses input)
  && (num_lit 0 <=? Input.profitMarginPercentage input)
  && (Input.profitMarginPercentage input <? num_lit 100).

(** The input with another [desiredMonthlyIncome], all else fixed. *)
Definition with_income (input : Input.t N) (income : N) : Input.t N :=
  {| Input.desiredMonthlyIncome := income;
     Input.hoursPerDay := Input.hoursPerDay input;
     Input.daysPerWeek := Input.daysPerWeek input;
     Input.vacationWeeks := Input.vacationWeeks input;
     Input.taxRegime := Input.taxRegime input;
     Input.include13th := Input.include13th input;
     Input.includeVacation := Input.includeVacation input;
     Input.monthlyExpenses := Input.monthlyExpenses input;
     Input.variableExpenses := Input.variableExpenses input;
     Input.profitMarginPercentage := Input.profitMarginPercentage input |}.

(** The local [workingHoursPerMonth] of [calculate] (app.js 55), before
    the [Math.round] of line 107. *)
Definition unroundedWorkingHoursPerMonth (input : Input.t N) : N :=
  Input.hoursPerDay input
  * ((Input.daysPerWeek input * (num_lit 52 - Input.vacationWeeks input))
     / num_lit 12).

(** The bracket table as the specification prints it (section 4.1): the
    inclusive upper bound, the rate and the deduction of each bounded
    bracket, lowest first, and the rate and deduction of the last,
    unbounded one. *)
Definition bracketTable : list (N * N * N) :=
  [ (num_lit 2259.20, num_lit 0,     num_lit 0);
    (num_lit 2828.65, num_lit 0.075, num_lit 169.44);
    (num_lit 3751.05, num_lit 0.15,  num_lit 381.44);
    (num_lit 4664.68, num_lit 0.225, num_lit 662.77) ].

Definition topBracket : N * N := (num_lit 0.275, num_lit 896.00).

(** [progressiveIR] as the specification words it: the brackets are tried
    low to high, the first whose upper bound is not exceeded gives
    [income * rate - deduction]. *)
Fixpoint evalBrackets (table : list (N * N * N)) (income : N) : N :=
  match table with
  | [] => income * fst topBracket - snd topBracket
  | (upper, rate, deduction) :: rest =>
      if income <=? upper then income * rate - deduction
      else evalBrackets rest income
  end.

Definition progressiveIR (income : N) : N := evalBrackets bracketTable income.

End Calls.

(** ** Concrete inputs *)

Module Scenario.

Section Inputs.
Context {N : Type} `{JSNumber N}.
Local Open Scope string_scope.

(** The worked scenario of the specification (section 8). *)
Definition mei3000 : Input.t N :=
  {| Input.desiredMonthlyIncome := num_lit 3000;
     Input.hoursPerDay := num_lit 6;
     Input.daysPerWeek := num_lit 5;
     Input.vacationWeeks := num_lit 4;
     Input.taxRegime := "MEI";
     Input.include13th := false;
     Input.includeVacation := false;
     Input.monthlyExpenses := num_lit 200;
     Input.variableExpenses := num_lit 0;
     Input.profitMarginPercentage := num_lit 20 |}.

(** The same with a profit margin of 100 percent. *)
Definition margin100 : Input.t N :=
  {| Input.desiredMonthlyIncome := num_lit 3000;
     Input.hoursPerDay := num_lit 6;
     Input.daysPerWeek := num_lit 5;
     Input.vacationWeeks := num_lit 4;
     Input.taxRegime := "MEI";
     Input.include13th := false;
     Input.includeVacation := false;
     Input.monthlyExpenses := num_lit 200;
     Input.variableExpenses := num_lit 0;
     Input.profitMarginPercentage := num_lit 100 |}.

(** A regime string that is no key of [taxRegimes]. *)
Definition regimeCLT : Input.t N :=
  {| Input.desiredMonthlyIncome := num_lit 3000;
     Input.hoursPerDay := num_lit 6;
     Input.daysPerWeek := num_lit 5;
     Input.vacationWeeks := num_lit 4;
     Input.taxRegime := "CLT";
     Input.include13th := false;
     Input.includeVacation := false;
     Input.monthlyExpenses := num_lit 200;
     Input.variableExpenses := num_lit 0;
     Input.profitMarginPercentage := num_lit 20 |}.

(** Self-employed, eight hours a day, five days a week, no provisions, no
    expenses and no margin, at a given income and number of vacation
    weeks. *)
Definition autonomo (income vacationWeeks : N) : Input.t N :=
  {| Input.desiredMonthlyIncome := income;
     Input.hoursPerDay := num_lit 8;
     Input.daysPerWeek := num_lit 5;
     Input.vacationWeeks := vacationWeeks;
     Input.taxRegime := "AUTONOMO";
     Input.include13th := false;
     Input.includeVacation := false;
     Input.monthlyExpenses := num_lit 0;
     Input.variableExpenses := num_lit 0;
     Input.profitMarginPercentage := num_lit 0 |}.
End Inputs.

End Scenario.

(** ** Inputs that differ in one field *)

Section Variations.

Context {N : Type}.

(** The input with another [profitMarginPercentage], all else fixed. *)
Definition with_margin (input : Input.t N) (margin : N) : Input.t N :=
  {| Input.desiredMonthlyIncome := Input.desiredMonthlyIncome input;
     Input.hoursPerDay := Input.hoursPerDay input;
     Input.daysPerWeek := Input.daysPerWeek input;
     Input.vacationWeeks := Input.vacationWeeks input;
     Input.taxRegime := Input.taxRegime input;
     Input.include13th := Input.include13th input;
     Input.includeVacation := Input.includeVacation input;
     Input.monthlyExpenses := Input.monthlyExpenses input;
     Input.variableExpenses := Input.variableExpenses input;
     Input.profitMarginPercentage := margin |}.

End Variations.

(** ** The form handler (app.js 198-217) *)

Module Form.

(** What the submit handler reads off the page: the results of
    [parseFloat], [parseInt], [.value] and [.checked] on the form's
    elements, named by element id (app.js 203-212). *)
Record values (N : Type) : Type := mk {
  monthlyIncome : N;
  hoursPerDay : N;
  daysPerWeek : N;
  taxRegime : string;
  include13th : bool;
  includeVacation : bool;
  monthlyExpenses : N;
  variableExpenses : N;
  profitMargin : N
}.
Arguments mk {N}.
Arguments monthlyIncome {N}.
Arguments hoursPerDay {N}.
Arguments daysPerWeek {N}.
Arguments taxRegime {N}.
Arguments include13th {N}.
Arguments includeVacation {N}.
Arguments monthlyExpenses {N}.
Arguments variableExpenses {N}.
Arguments profitMargin {N}.

End Form.

Section Page.

Context {N : Type} `{JSNumber N}.
Local Open Scope string_scope.
Local Open Scope js_scope.

(** The object literal of the submit handler (app.js 202-213):
    [vacationWeeks] is the constant 4, whatever the form holds. *)
Definition collectInput (form : Form.values N) : Input.t N :=
  {| Input.desiredMonthlyIncome := Form.monthlyIncome form;
     Input.hoursPerDay := Form.hoursPerDay form;
     Input.daysPerWeek := Form.daysPerWeek form;
     Input.vacationWeeks := num_lit 4;
     Input.taxRegime := Form.taxRegime form;
     Input.include13th := Form.include13th form;
     Input.includeVacation := Form.includeVacation form;
     Input.monthlyExpenses := Form.monthlyExpenses form;
     Input.variableExpenses := Form.variableExpenses form;
     Input.profitMarginPercentage := Form.profitMargin form |}.

End Page.

(** ** The regime table and [getTaxInfo] (app.js 11-44, 159-161) *)

Module TaxInfo.

(** An entry of [this.taxRegimes]: the MEI entry has [monthly_cost] and no
    [percentage], the three others have [percentage] and no
    [monthly_cost]. *)
Record t (N : Type) : Type := mk {
  name : string;
  monthly_cost : option N;
  percentage : option string;
  description : string;
  limit : string;
  benefits : list string;
  drawbacks : list string
}.
Arguments mk {N}.
Arguments name {N}.
Arguments monthly_cost {N}.
Arguments percentage {N}.
Arguments description {N}.
Arguments limit {N}.
Arguments benefits {N}.
Arguments drawbacks {N}.

(** What [this.taxRegimes[key] || {}] evaluates to: an entry of the table,
    a member inherited from [Object.prototype] (a function, or the
    prototype itself for [__proto__]: truthy, so [||] keeps it), or the
    fresh empty object. *)
Inductive result (N : Type) : Type :=
| Entry (info : t N)
| Inherited (key : string)
| EmptyObject.
Arguments Entry {N}.
Arguments Inherited {N}.
Arguments EmptyObject {N}.

End TaxInfo.

Section RegimeTable.

Context {N : Type} `{JSNumber N}.
Local Open Scope string_scope.

(** [Number.prototype.toFixed(2)], used once, in the MEI description. *)
Variable toFixed2 : N -> string.

(** [this.taxRegimes] (app.js 11-44); the texts are the bytes of the
    source file (UTF-8). *)
Definition taxRegimesTable : list (string * TaxInfo.t N) :=
  [ ("MEI",
     {| TaxInfo.name := "Microempreendedor Individual (MEI)";
        TaxInfo.monthly_cost := Some MEI_DAS_VALUE;
        TaxInfo.percentage := None;
        TaxInfo.description :=
          "Valor fixo mensal de R$ " ++ toFixed2 MEI_DAS_VALUE
          ++ " (DAS 2025)";
        TaxInfo.limit := "Faturamento anual até R$ 81.000";
        TaxInfo.benefits := ["Simples"; "Barato"; "Poucas obrigações"];
        TaxInfo.drawbacks :=
          ["Limite de faturamento"; "Apenas 1 funcionário"] |});
    ("PJ_SIMPLES",
     {| TaxInfo.name := "Simples Nacional - Anexo III";
        TaxInfo.monthly_cost := None;
        TaxInfo.percentage := Some "6% a 33%";
        TaxInfo.description := "Alíquota inicial de 6% sobre faturamento";
        TaxInfo.limit := "Faturamento anual até R$ 4,8 milhões";
        TaxInfo.benefits := ["Menos burocracia"; "Alíquota progressiva"];
        TaxInfo.drawbacks :=
          ["Aumenta com faturamento"; "Obrigações acessórias"] |});
    ("PJ_PRESUMIDO",
     {| TaxInfo.name := "Lucro Presumido";
        TaxInfo.monthly_cost := None;
        TaxInfo.percentage := Some "~16,33%";
        TaxInfo.description := "IR + CSLL + PIS/COFINS + ISS";
        TaxInfo.limit := "Faturamento anual até R$ 78 milhões";
        TaxInfo.benefits := ["Previsível"; "Bom para margens altas"];
        TaxInfo.drawbacks :=
          ["Mais complexo"; "Mais caro que Simples inicial"] |});
    ("AUTONOMO",
     {| TaxInfo.name := "Autônomo (Pessoa Física)";
        TaxInfo.monthly_cost := None;
        TaxInfo.percentage := Some "20% INSS + IR progressivo";
        TaxInfo.description :=
          "INSS 20% sobre salário mínimo + IR progressivo";
        TaxInfo.limit := "Sem limite";
        TaxInfo.benefits := ["Flexível"; "Sem burocracia"];
        TaxInfo.drawbacks := ["IR progressivo alto"; "Menos benefícios"] |})
  ].

(** The property names every object inherits from [Object.prototype]. *)
Definition objectPrototypeKeys : list string :=
  [ "constructor"; "__defineGetter__"; "__defineSetter__"; "hasOwnProperty";
    "__lookupGetter__"; "__lookupSetter__"; "isPrototypeOf";
    "propertyIsEnumerable"; "toString"; "valueOf"; "__proto__";
    "toLocaleString" ].

Fixpoint ownProperty (key : string) (table : list (string * TaxInfo.t N))
  : option (TaxInfo.t N) :=
  match table with
  | [] => None
  | (k, info) :: rest =>
      if String.eqb k key then Some info else ownProperty key rest
  end.

(** [getTaxInfo] (app.js 159-161): a property read on the table, own
    properties first and then the prototype, with [{}] for a miss. *)
Definition getTaxInfo (taxRegime : string) : TaxInfo.result N :=
  match ownProperty taxRegime taxRegimesTable with
  | Some info => TaxInfo.Entry info
  | None =>
      if existsb (String.eqb taxRegime) objectPrototypeKeys
      then TaxInfo.Inherited taxRegime
      else TaxInfo.EmptyObject
  end.


End RegimeTable.

(** ** Session storage (src/frontend/auth.js) *)

(** [localStorage] as the code uses it: [getItem] gives [null] ([None]) for
    a missing key, [setItem] replaces the value of a key, [removeItem]
    deletes it. *)
Module Storage.

Definition t : Type := list (string * string).

Fixpoint getItem (key : string) (store : t) : option string :=
  match store with
  | [] => None
  | (k, v) :: rest => if String.eqb k key then Some v else getItem key rest
  end.

Definition removeItem (key : string) (store : t) : t :=
  filter (fun entry => negb (String.eqb (fst entry) key)) store.

Definition setItem (key value : string) (store : t) : t :=
  (key, value) :: removeItem key store.

End Storage.

(** The part of the browser the session code reads and writes. *)
Record Browser : Type := mkBrowser {
  localStorage : Storage.t;
  location_href : string
}.

(** [!!value] for a value that is a string or [null]: [null] and the empty
    string are falsy. *)
Definition truthy (value : option string) : bool :=
  match value with
  | Some s => negb (String.eqb s "")
  | None => false
  end.

(** The functions of auth.js 99-127, on the key [access_token]. *)
Module Session.

Local Open Scope string_scope.

Definition getToken (b : Browser) : option string :=
  Storage.getItem "access_token" (localStorage b).

Definition isAuthenticated (b : Browser) : bool := truthy (getToken b).

Definition logout (b : Browser) : Browser :=
  {| localStorage := Storage.removeItem "access_token" (localStorage b);
     location_href := "/login.html" |}.

Definition redirectIfNotAuthenticated (b : Browser) : Browser :=
  if negb (isAuthenticated b)
  then {| localStorage := localStorage b; location_href := "/login.html" |}
  else b.

Definition redirectIfAuthenticated (b : Browser) : Browser :=
  if isAuthenticated b
  then {| localStorage := localStorage b; location_href := "/index.html" |}
  else b.

End Session.

(** [TokenManager] and the synchronous methods of [class Auth]
    (auth.js 158-180, 183-191, 283-303), on the keys [freelabr_token] and
    [freelabr_user]. *)
Module AuthClass.

Local Open Scope string_scope.

(** How [JSON.parse] ends: with a value or with a [SyntaxError]. *)
Inductive parsed (A : Type) : Type :=
| Parsed (value : A)
| SyntaxError.
Arguments Parsed {A}.
Arguments SyntaxError {A}.

Section WithJSON.

(** The stored user is whatever [JSON] makes of it. *)
Variable User : Type.
Variable JSON_parse : string -> parsed User.
Variable JSON_stringify : User -> string.

Definition TokenManager_get (b : Browser) : option string :=
  Storage.getItem "freelabr_token" (localStorage b).

Definition TokenManager_set (token : string) (b : Browser) : Browser :=
  {| localStorage := Storage.setItem "freelabr_token" token (localStorage b);
     location_href := location_href b |}.

Definition TokenManager_remove (b : Browser) : Browser :=
  {| localStorage :=
       Storage.removeItem "freelabr_user"
         (Storage.removeItem "freelabr_token" (localStorage b));
     location_href := location_href b |}.

(** [userStr ? JSON.parse(userStr) : null]: a missing or empty entry gives
    [null] without parsing. *)
Definition TokenManager_getUser (b : Browser) : parsed (option User) :=
  let userStr := Storage.getItem "freelabr_user" (localStorage b) in
  if truthy userStr then
    match userStr with
    | Some s =>
        match JSON_parse s with
        | Parsed u => Parsed (Some u)
        | SyntaxError => SyntaxError
        end
    | None => Parsed None
    end
  else Parsed None.

Definition TokenManager_setUser (user : User) (b : Browser) : Browser :=
  {| localStorage :=
       Storage.setItem "freelabr_user" (JSON_stringify user) (localStorage b);
     location_href := location_href b |}.

(** The fields of an [Auth] object. *)
Record Auth : Type := mkAuth {
  token : option string;
  user : option User
}.

(** [new Auth()]: both fields are read from the storage once; a stored user
    that does not parse makes the constructor throw. *)
Definition constructor (b : Browser) : parsed Auth :=
  match TokenManager_getUser b with
  | Parsed u => Parsed {| token := TokenManager_get b; user := u |}
  | SyntaxError => SyntaxError
  end.

Definition isAuthenticated (this : Auth) : bool := truthy (token this).

Definition logout (this : Auth) (b : Browser) : Auth * Browser :=
  let b := TokenManager_remove b in
  ({| token := None; user := None |},
   {| localStorage := localStorage b; location_href := "/login.html" |}).

(** [requireAuth]: the returned boolean and the browser afterwards. *)
Definition requireAuth (this : Auth) (b : Browser) : bool * Browser :=
  if negb (isAuthenticated this)
  then (false,
        {| localStorage := localStorage b; location_href := "/login.html" |})
  else (true, b).

(** [getAuthHeaders]: the template literal prints a [null] token as the
    four letters "null". *)
Definition getAuthHeaders (this : Auth) : list (string * string) :=
  [ ("Authorization",
     "Bearer " ++ match token this with Some t => t | None => "null" end);
    ("Content-Type", "application/json") ].

End WithJSON.

End AuthClass.

(** ** Binary64 values as real numbers

    The vocabulary in which the arithmetic of the program is specified:
    the real value of a float, the rounding to nearest (ties to even) that
    every operation of the format performs, and the order of the floats.
    [SpecFloat]'s exponents are those of the integer mantissa: a binary64
    mantissa has 53 bits, the least exponent is -1074, the largest 971. *)

Module Rounding.

Local Open Scope R_scope.

Definition pow2 (e : Z) : R := powerRZ 2 e.

(** The exponent [SpecFloat.fexp] gives a number of [e] digits-and-exponent
    at the precision of binary64. *)
Definition fexp64 (e : Z) : Z := Z.max (e - 53) (-1074).

(** Where a real [v] lies between [m * 2^e] and [(m + 1) * 2^e], as
    [SpecFloat.location] records it. *)
Definition inbetween (m e : Z) (l : location) (v : R) : Prop :=
  match l with
  | loc_Exact => v = IZR m * pow2 e
  | loc_Inexact Lt => IZR m * pow2 e < v < (IZR m + / 2) * pow2 e
  | loc_Inexact Eq => v = (IZR m + / 2) * pow2 e
  | loc_Inexact Gt => (IZR m + / 2) * pow2 e < v < (IZR m + 1) * pow2 e
  end.

(** The invariant of [SpecFloat.shr]: the shifted mantissa and its round
    and sticky bits still locate [v]. *)
Definition shr_ok (mrs : shr_record) (e : Z) (v : R) : Prop :=
  (0 <= shr_m mrs)%Z /\ inbetween (shr_m mrs) e (loc_of_shr_record mrs) v.

(** The exponent of the grid a non-negative real is rounded on. *)
Definition grid (v : R) (g : Z) : Prop :=
  (g = (-1074)%Z /\ 0 <= v < pow2 (-1021))
  \/ ((-1074 < g)%Z /\ pow2 (g + 52) <= v < pow2 (g + 53)).

(** [n] is the integer nearest to [x], the even one of the two on a tie. *)
Definition nearest_even (x : R) (n : Z) : Prop :=
  Rabs (IZR n - x) <= / 2 /\ (Rabs (IZR n - x) = / 2 -> Z.even n = true).

(** The float made of the rounded mantissa [n] on the grid [g]. *)
Definition pack (s : bool) (n g : Z) : spec_float :=
  if (n =? 0)%Z then S754_zero s
  else if (n =? 2 ^ 53)%Z then
    if (g + 1 <=? 971)%Z then S754_finite s (2 ^ 52)%positive (g + 1)
    else S754_infinity s
  else if (g <=? 971)%Z then S754_finite s (Z.to_pos n) g
  else S754_infinity s.

Definition sgn (s : bool) : R := if s then -1 else 1.

(** The real value of a finite float; 0 for the zeros (and, by
    convention, for the infinities and NaN). *)
Definition SF2R (x : spec_float) : R :=
  match x with
  | S754_finite s m e => sgn s * (IZR (Zpos m) * pow2 e)
  | _ => 0
  end.

(** A real that orders the floats that are not NaN: the value of a finite
    float, and plus or minus [2^1025] for the infinities. *)
Definition rank (x : spec_float) : R :=
  match x with
  | S754_infinity s => sgn s * pow2 1025
  | _ => SF2R x
  end.

Definition is_nan_sf (x : spec_float) : bool :=
  match x with S754_nan => true | _ => false end.

(** [rounds v n g]: the integer [n] on the grid [g] is the rounding of the
    non-negative real [v]. *)
Definition rounds (v : R) (n g : Z) : Prop :=
  grid v g /\ nearest_even (v / pow2 g) n /\ (0 <= n <= 2 ^ 53)%Z.

(** Overflow: a rounded value of [2^1024] or more is sent to infinity. *)
Definition clamp (y : R) : R :=
  if Rlt_dec y (pow2 1024) then y else pow2 1025.

(** [rounded v r]: the float [r] is the real [v] rounded to nearest, ties
    to even, with overflow to the infinity of its sign; the rounding of 0
    is a zero of either sign. *)
Definition rounded (v : R) (r : spec_float) : Prop :=
  (v = 0 /\ exists s, r = S754_zero s)
  \/ (0 < v /\ exists g n, rounds v n g /\ r = pack false n g)
  \/ (v < 0 /\ exists g n, rounds (- v) n g /\ r = pack true n g).

(** A finite float of magnitude [2^-1022] or more. *)
Definition normal_sf (x : spec_float) : Prop :=
  match x with
  | S754_finite _ m e => pow2 (-1022) <= IZR (Zpos m) * pow2 e
  | _ => False
  end.

(** Zeros and finite numbers. *)
Definition finish (x : spec_float) : Prop :=
  match x with
  | S754_zero _ | S754_finite _ _ _ => True
  | _ => False
  end.

(** Not NaN and not minus infinity. *)
Definition lbs (x : spec_float) : Prop :=
  match x with
  | S754_zero _ | S754_finite _ _ _ | S754_infinity false => True
  | _ => False
  end.

(** The sign bit is clear (NaN included). *)
Definition unsigned_sf (x : spec_float) : Prop :=
  match x with
  | S754_nan | S754_zero false | S754_finite false _ _
  | S754_infinity false => True
  | _ => False
  end.

(** The same notions on the primitive floats. *)
Definition B2R (x : float) : R := SF2R (Prim2SF x).
Definition rk (x : float) : R := rank (Prim2SF x).
Definition nanf (x : float) : bool := is_nan_sf (Prim2SF x).
Definition lb (x : float) : Prop := lbs (Prim2SF x).
Definition unsigned (x : float) : Prop := unsigned_sf (Prim2SF x).
Definition posfin (k : float) : Prop :=
  exists m e, Prim2SF k = S754_finite false m e.
Definition finf (k : float) : Prop := finish (Prim2SF k).

(** [a] is not above [b]: the test [b < a] is false, because [a <= b] or
    because one of them is NaN. *)
Definition not_above (a b : float) : Prop :=
  nanf a = true \/ nanf b = true \/ rk a <= rk b.

(** A normal number: finite, not zero and not subnormal (magnitude in
    [2^-1022, 2^1024)). *)
Definition is_normal (x : float) : bool :=
  match classify x with
  | PNormal | NNormal => true
  | _ => false
  end.

(** [p] is [m] within floating-point tolerance, 1e-6 relative: as the
    test [|p - m| <= 1e-6 * |m|] computed in doubles, and for the real
    values of the two doubles. *)
Definition within_tolerance (p m : float) : Prop :=
  (abs (p - m) <=? 1e-6 * abs m)%float = true
  /\ Rabs (B2R p - B2R m) <= / 1000000 * Rabs (B2R m).

(** Decidable forms of [posfin] and [finf], for the constants of the
    program. *)
Definition posfinb (k : float) : bool :=
  match Prim2SF k with
  | S754_finite false _ _ => true
  | _ => false
  end.

Definition finfb (k : float) : bool :=
  match Prim2SF k with
  | S754_finite _ _ _ | S754_zero _ => true
  | _ => false
  end.

End Rounding.

(** ** Facts about binary64 used below *)

Module Binary64Facts.

Local Open Scope float_scope.

(** The decimal literals of the program denote the doubles a JavaScript
    parser gives them. *)
Lemma literal_values :
  Binary64.literal 81.90 = 81.9
  /\ Binary64.literal 1518.00 = 1518
  /\ Binary64.literal 0.06 = 0.06
  /\ Binary64.literal 0.1633 = 0.1633
  /\ Binary64.literal 0.20 = 0.2
  /\ Binary64.literal 2259.20 = 2259.2
  /\ Binary64.literal 2828.65 = 2828.65
  /\ Binary64.literal 3751.05 = 3751.05
  /\ Binary64.literal 4664.68 = 4664.68
  /\ Binary64.literal 0.075 = 0.075
  /\ Binary64.literal 0.15 = 0.15
  /\ Binary64.literal 0.225 = 0.225
  /\ Binary64.literal 0.275 = 0.275
  /\ Binary64.literal 169.44 = 169.44
  /\ Binary64.literal 381.44 = 381.44
  /\ Binary64.literal 662.77 = 662.77
  /\ Binary64.literal 896.00 = 896.
Proof. vm_compute. repeat split. Qed.

(** A positive number, finite or not, divided by +0 is +infinity. *)
Lemma div_pos_zero (x : float) :
  (0 <? x) = true -> x / 0 = infinity.
Proof.
  intros Hpos. apply Prim2SF_inj.
  rewrite div_spec. rewrite ltb_spec in Hpos.
  change (Prim2SF 0) with (S754_zero false) in *.
  change (Prim2SF infinity) with (S754_infinity false).
  destruct (Prim2SF x) as [[ | ] | [ | ] | | [ | ] m e];
    first [ discriminate Hpos | reflexivity ].
Qed.

(** Below the first bound the exempt bracket's [income * 0 - 0] is a zero
    (of either sign: -0 for the income -0). *)
Lemma exempt_formula_zero (x : float) :
  (0 <=? x) = true -> (x <=? 2259.2) = true ->
  x * 0 - 0 = 0 \/ x * 0 - 0 = -0.
Proof.
  intros H0 Hb. rewrite leb_spec in H0, Hb.
  assert (Hsf : Prim2SF (x * 0 - 0) = S754_zero false
                \/ Prim2SF (x * 0 - 0) = S754_zero true).
  { rewrite sub_spec, mul_spec.
    change (Prim2SF 0) with (S754_zero false) in *.
    let v := eval vm_compute in (Prim2SF 2259.2) in
    change (Prim2SF 2259.2) with v in Hb.
    destruct (Prim2SF x) as [[ | ] | [ | ] | | [ | ] m e].
    - right. reflexivity.
    - left. reflexivity.
    - discriminate H0.
    - discriminate Hb.
    - discriminate H0.
    - discriminate H0.
    - left. reflexivity. }
  destruct Hsf as [E | E]; [left | right]; apply Prim2SF_inj; exact E.
Qed.

End Binary64Facts.

(** ** Properties that hold at every carrier *)

Section Generic.

Context {N : Type} `{JSNumber N}.
Local Open Scope string_scope.
Local Open Scope js_scope.

Lemma known_regime_false (r : string) :
  ~ In r taxRegimes ->
  String.eqb r "MEI" = false /\ String.eqb r "PJ_SIMPLES" = false
  /\ String.eqb r "PJ_PRESUMIDO" = false /\ String.eqb r "AUTONOMO" = false.
Proof.
  intros Hnot. repeat split; apply String.eqb_neq; intros ->;
    apply Hnot; simpl; auto.
Qed.

Lemma known_regime_cases (r : string) :
  known_regime r = true ->
  r = "MEI" \/ r = "PJ_SIMPLES" \/ r = "PJ_PRESUMIDO" \/ r = "AUTONOMO".
Proof.
  unfold known_regime, taxRegimes. simpl.
  rewrite !orb_true_iff, !String.eqb_eq. intuition discriminate.
Qed.

Lemma taxes_simples (x : N) :
  calculateMonthlyTaxes x "PJ_SIMPLES" = x * num_lit 0.06.
Proof. reflexivity. Qed.

Lemma taxes_presumido (x : N) :
  calculateMonthlyTaxes x "PJ_PRESUMIDO" = x * num_lit 0.1633.
Proof. reflexivity. Qed.

Lemma taxes_autonomo (x : N) :
  calculateMonthlyTaxes x "AUTONOMO"
  = MINIMUM_WAGE * num_lit 0.20 + calculateProgressiveIR x.
Proof. reflexivity. Qed.

Lemma taxes_mei (x : N) : calculateMonthlyTaxes x "MEI" = MEI_DAS_VALUE.
Proof. reflexivity. Qed.

(** C8: the monthly tax under the MEI regime is the constant 81.90 for
    every income (non-negative or not). *)
Theorem mei_tax_constant (x : N) :
  calculateMonthlyTaxes x "MEI" = num_lit 81.90.
Proof. reflexivity. Qed.

(** C9: in every Output of [calculate], [dailyRate] is the product
    [hourlyRate * hoursPerDay] and [weeklyRate] is the product
    [dailyRate * daysPerWeek], as the same value and not up to a
    tolerance. *)
Theorem daily_weekly_by_construction (input : Input.t N) :
  let out := calculate input in
  Output.dailyRate out = Output.hourlyRate out * Input.hoursPerDay input
  /\ Output.weeklyRate out = Output.dailyRate out * Input.daysPerWeek input.
Proof. split; reflexivity. Qed.

(** C10: the Output echoes two input fields: [netMonthlyIncome] is the
    input's [desiredMonthlyIncome] and [taxRegime] is the input's
    [taxRegime]. *)
Theorem output_echoes_input (input : Input.t N) :
  Output.netMonthlyIncome (calculate input) = Input.desiredMonthlyIncome input
  /\ Output.taxRegime (calculate input) = Input.taxRegime input.
Proof. split; reflexivity. Qed.

(** C6, as amended: for a [taxRegime] that is none of the four keys the
    [default] branch of [calculateMonthlyTaxes] returns 0; [calculate]
    reports no error, it returns a complete Output whose [monthlyTaxes] is
    0 and whose [taxRegime] is the unrecognised string. *)
Theorem unknown_regime_taxed_zero (input : Input.t N) :
  ~ In (Input.taxRegime input) taxRegimes ->
  calculateMonthlyTaxes (Input.desiredMonthlyIncome input)
                        (Input.taxRegime input) = num_lit 0
  /\ call_calculate input = Returned (calculate input)
  /\ Output.monthlyTaxes (calculate input) = num_lit 0
  /\ Output.taxRegime (calculate input) = Input.taxRegime input.
Proof.
  intros Hnot.
  destruct (known_regime_false _ Hnot) as (E1 & E2 & E3 & E4).
  assert (Htax : calculateMonthlyTaxes (Input.desiredMonthlyIncome input)
                   (Input.taxRegime input) = num_lit 0).
  { unfold calculateMonthlyTaxes. now rewrite E1, E2, E3, E4. }
  repeat split; try reflexivity; exact Htax.
Qed.

(** The annual cost is twelve times the monthly cost, as the same value
    (app.js 102). *)
Theorem annual_costs_by_construction (input : Input.t N) :
  Output.totalAnnualCosts (calculate input)
  = Output.totalMonthlyCosts (calculate input) * num_lit 12.
Proof. reflexivity. Qed.

(** The three suggested project prices are the hourly rate times 30, 100
    and 200 (app.js 90-92). *)
Theorem project_values_by_construction (input : Input.t N) :
  let out := calculate input in
  Output.smallProjectValue out = Output.hourlyRate out * num_lit 30
  /\ Output.mediumProjectValue out = Output.hourlyRate out * num_lit 100
  /\ Output.largeProjectValue out = Output.hourlyRate out * num_lit 200.
Proof. repeat split. Qed.

(** The two proportional regimes: 6 percent of the income under PJ_SIMPLES
    and 16.33 percent under PJ_PRESUMIDO (app.js 123-131). *)
Theorem proportional_regimes (x : N) :
  calculateMonthlyTaxes x "PJ_SIMPLES" = x * num_lit 0.06
  /\ calculateMonthlyTaxes x "PJ_PRESUMIDO" = x * num_lit 0.1633.
Proof. split; reflexivity. Qed.

(** The provisions: a twelfth of the income for the 13th salary, a twelfth
    of a third of it for the vacation bonus, each added when its toggle is
    set (app.js 64-70). *)
Theorem provisions_by_toggle (input : Input.t N) :
  let income := Input.desiredMonthlyIncome input in
  Output.monthlyProvisions (calculate input)
  = match Input.include13th input, Input.includeVacation input with
    | false, false => num_lit 0
    | true, false => num_lit 0 + income / num_lit 12
    | false, true => num_lit 0 + (income / num_lit 3) / num_lit 12
    | true, true =>
        num_lit 0 + income / num_lit 12 + (income / num_lit 3) / num_lit 12
    end.
Proof.
  unfold calculate. cbn [Output.monthlyProvisions].
  destruct (Input.include13th input), (Input.includeVacation input);
    reflexivity.
Qed.

End Generic.

(** ** Properties of the program as executed (binary64) *)

Module OnBinary64.

Local Open Scope string_scope.
Local Open Scope float_scope.

(** C1: the worked scenario.  The integers and the currency amounts are
    the very doubles the decimal numerals denote; the hourly rate lies in
    the interval that rounds to 34.19. *)
Theorem scenario_mei3000 :
  let out := calculate (N := float) Scenario.mei3000 in
  Output.workingHoursPerMonth out = 120
  /\ Output.workingDaysPerMonth out = 20
  /\ Output.monthlyTaxes out = 81.90
  /\ Output.totalMonthlyCosts out = 3281.90
  /\ Output.monthlyRate out = 4102.375
  /\ (34.185 <=? Output.hourlyRate out) = true
  /\ (Output.hourlyRate out <? 34.195) = true.
Proof. vm_compute. repeat split. Qed.

Lemma unknown_regime_taxed_zero_witness :
  let input : Input.t float := Scenario.regimeCLT in
  ~ In (Input.taxRegime input) taxRegimes
  /\ Output.monthlyTaxes (calculate input) = 0.
Proof.
  intros input.
  assert (Hnot : ~ In (Input.taxRegime input) taxRegimes).
  { simpl. intros [E | [E | [E | [E | []]]]]; discriminate E. }
  split; [ exact Hnot | ].
  exact (proj1 (proj2 (proj2 (unknown_regime_taxed_zero input Hnot)))).
Defined.

(** C6, refuted as stated: with the regime string "CLT" the call reports
    nothing; it returns an Output computed with a tax of 0. *)
Lemma unknown_regime_not_rejected :
  let input : Input.t float := Scenario.regimeCLT in
  ~ In (Input.taxRegime input) taxRegimes
  /\ call_calculate input <> Reported InvalidInput
  /\ (exists out, call_calculate input = Returned out
                  /\ Output.monthlyTaxes out = 0
                  /\ Output.monthlyRate out = 4000).
Proof.
  repeat split.
  - simpl. intros [E | [E | [E | [E | []]]]]; discriminate E.
  - discriminate.
  - eexists. split; [reflexivity | ]. vm_compute. split; reflexivity.
Qed.

(** C2, refuted as stated: with a margin of 100 the call reports nothing;
    it returns an Output whose rates are +infinity. *)
Lemma margin_100_not_rejected :
  let input : Input.t float := Scenario.margin100 in
  Input.profitMarginPercentage input = 100
  /\ call_calculate input <> Reported InvalidInput
  /\ (exists out, call_calculate input = Returned out
                  /\ Output.monthlyRate out = infinity
                  /\ Output.hourlyRate out = infinity
                  /\ Output.totalMonthlyCosts out = 3281.90).
Proof.
  repeat split.
  - discriminate.
  - eexists. split; [reflexivity | ]. vm_compute. repeat split.
Qed.

(** C2, as amended: [calculate] has no check of the margin.  At a margin
    of exactly 100 the call returns a complete Output whose [monthlyRate]
    is [totalMonthlyCosts / 0]: +infinity whenever the total monthly
    costs are positive. *)
Theorem margin_100_divides_by_zero (input : Input.t float) :
  Input.profitMarginPercentage input = 100 ->
  let out := calculate input in
  call_calculate input = Returned out
  /\ Output.monthlyRate out = Output.totalMonthlyCosts out / 0
  /\ ((0 <? Output.totalMonthlyCosts out) = true ->
      Output.monthlyRate out = infinity).
Proof.
  intros Hm out.
  assert (Hrate : Output.monthlyRate out = Output.totalMonthlyCosts out / 0).
  { subst out. unfold calculate. cbn [Output.monthlyRate Output.totalMonthlyCosts].
    rewrite Hm. reflexivity. }
  repeat split.
  - exact Hrate.
  - intros Hpos. rewrite Hrate. now apply Binary64Facts.div_pos_zero.
Qed.

Lemma margin_100_divides_by_zero_witness :
  let input : Input.t float := Scenario.margin100 in
  Input.profitMarginPercentage input = 100
  /\ (0 <? Output.totalMonthlyCosts (calculate input)) = true
  /\ Output.monthlyRate (calculate input) = infinity.
Proof.
  intros input. split; [ reflexivity | split; [ reflexivity | ] ].
  apply (margin_100_divides_by_zero input); reflexivity.
Defined.

(** C4: under AUTONOMO the tax is [MINIMUM_WAGE * 0.20] plus the
    progressive IR read off the bracket table, for every income from 0
    upwards (+infinity included); an income of 2000 is taxed 303.60 and an
    income of 3000 is taxed 372.16. *)
Theorem autonomo_tax_formula :
  (forall x : float,
      (0 <=? x) = true ->
      calculateMonthlyTaxes x "AUTONOMO"
      = MINIMUM_WAGE * 0.20 + progressiveIR x)
  /\ calculateMonthlyTaxes 2000 "AUTONOMO" = 303.60
  /\ calculateMonthlyTaxes 3000 "AUTONOMO" = 372.16
  /\ progressiveIR 2000 = 0
  /\ progressiveIR 3000 = 68.56.
Proof.
  split; [ | vm_compute; repeat split ].
  intros x H0.
  change (calculateMonthlyTaxes x "AUTONOMO")
    with (303.6 + calculateProgressiveIR x).
  change (MINIMUM_WAGE * 0.20) with 303.6.
  unfold progressiveIR, calculateProgressiveIR.
  cbn [bracketTable evalBrackets topBracket fst snd].
  change (@num_le float _) with PrimFloat.leb.
  change (@num_mul float _) with PrimFloat.mul.
  change (@num_sub float _) with PrimFloat.sub.
  change (num_lit 2259.20) with 2259.2.
  change (@num_lit float _ 0) with 0.
  destruct (x <=? 2259.2) eqn:Hb; [ | reflexivity ].
  destruct (Binary64Facts.exempt_formula_zero x H0 Hb) as [E | E];
    rewrite E; vm_compute; reflexivity.
Qed.

Lemma autonomo_tax_formula_witness :
  (0 <=? 2000) = true
  /\ calculateMonthlyTaxes 2000 "AUTONOMO"
     = MINIMUM_WAGE * 0.20 + progressiveIR 2000.
Proof.
  split; [ reflexivity | ].
  apply (proj1 autonomo_tax_formula 2000). reflexivity.
Defined.

(** C3, evaluated at the bound 2828.65: from that income to the next
    double the progressive IR rises by more than fourteen cents, while at
    the three other bounds the step to the next double stays below half a
    cent in absolute value. *)
Theorem progressive_ir_jump_at_2828_65 :
  let ir := calculateProgressiveIR (N := float) in
  (0.14 <? ir (next_up 2828.65) - ir 2828.65) = true
  /\ (abs (ir (next_up 2259.20) - ir 2259.20) <? 0.005) = true
  /\ (abs (ir (next_up 3751.05) - ir 3751.05) <? 0.005) = true
  /\ (abs (ir (next_up 4664.68) - ir 4664.68) <? 0.005) = true.
Proof. vm_compute. repeat split. Qed.

(** C5, refuted as stated: two valid inputs equal but for the income,
    3751.05 against 3751.0505, and the larger income gets the smaller
    hourly rate. *)
Lemma larger_income_smaller_rate :
  let low : Input.t float := Scenario.autonomo 3751.05 4 in
  let high : Input.t float := with_income low 3751.0505 in
  valid_input low = true
  /\ valid_input high = true
  /\ (Input.desiredMonthlyIncome low <? Input.desiredMonthlyIncome high) = true
  /\ (Output.hourlyRate (calculate high) <? Output.hourlyRate (calculate low))
     = true.
Proof. vm_compute. repeat split. Qed.

(** C7, refuted as stated: a valid input with three weeks of vacation
    works 163.33 hours a month; the Output carries 163, and
    [hourlyRate * 163] misses [monthlyRate] by two parts in a thousand. *)
Lemma rounded_hours_break_product :
  let input : Input.t float := Scenario.autonomo 3000 3 in
  let out := calculate input in
  valid_input input = true
  /\ Output.workingHoursPerMonth out = 163
  /\ (1e-6 * Output.monthlyRate out
      <? abs (Output.hourlyRate out * Output.workingHoursPerMonth out
              - Output.monthlyRate out)) = true
  /\ (0.002 * Output.monthlyRate out
      <? abs (Output.hourlyRate out * Output.workingHoursPerMonth out
              - Output.monthlyRate out)) = true.
Proof. vm_compute. repeat split. Qed.

End OnBinary64.

(** ** The rounding of binary64

    [SpecFloat] defines the operations of the format by an algorithm on
    mantissas and exponents ([binary_round_aux], [shr], [SFdiv_core_binary],
    ...).  This part relates that algorithm to the reals: the result of an
    operation on finite operands is the exact result [rounded], and the
    comparisons of the format are the order of the [rank]s. *)

Module RoundingFacts.

Import Rounding.
Local Open Scope R_scope.

Lemma pow2_pos (e : Z) : 0 < pow2 e.
Proof. apply powerRZ_lt. lra. Qed.

Lemma pow2_add (a b : Z) : pow2 (a + b) = pow2 a * pow2 b.
Proof. apply powerRZ_add. lra. Qed.

Lemma pow2_0 : pow2 0 = 1.
Proof. reflexivity. Qed.

Lemma pow2_1 : pow2 1 = 2.
Proof. unfold pow2. simpl. lra. Qed.

Lemma pow2_succ (a : Z) : pow2 (a + 1) = 2 * pow2 a.
Proof. rewrite pow2_add, pow2_1. lra. Qed.

Lemma pow2_pred (a : Z) : pow2 a = 2 * pow2 (a - 1).
Proof. rewrite <- pow2_succ. f_equal. lia. Qed.

Lemma pow2_nonneg_ge1 (n : Z) : (0 <= n)%Z -> 1 <= pow2 n.
Proof.
  intros Hn. pattern n. apply natlike_ind; [ | | exact Hn ].
  - rewrite pow2_0. lra.
  - intros x Hx IH. replace (Z.succ x) with (x + 1)%Z by lia.
    rewrite pow2_succ. lra.
Qed.

Lemma pow2_le (a b : Z) : (a <= b)%Z -> pow2 a <= pow2 b.
Proof.
  intros Hab. replace b with (a + (b - a))%Z by lia. rewrite pow2_add.
  pose proof (pow2_nonneg_ge1 (b - a) ltac:(lia)).
  pose proof (pow2_pos a). nra.
Qed.

Lemma pow2_lt (a b : Z) : (a < b)%Z -> pow2 a < pow2 b.
Proof.
  intros Hab. pose proof (pow2_le (a + 1) b ltac:(lia)) as H.
  rewrite pow2_succ in H. pose proof (pow2_pos a). lra.
Qed.

Lemma pow2_lt_inv (a b : Z) : pow2 a < pow2 b -> (a < b)%Z.
Proof.
  intros H. destruct (Z_lt_le_dec a b) as [Hlt | Hle]; [ exact Hlt | ].
  apply pow2_le in Hle. lra.
Qed.

Lemma pow2_IZR (n : Z) : (0 <= n)%Z -> IZR (2 ^ n) = pow2 n.
Proof.
  intros Hn. pattern n. apply natlike_ind; [ | | exact Hn ].
  - reflexivity.
  - intros x Hx IH. rewrite Z.pow_succ_r by lia. rewrite mult_IZR, IH.
    replace (Z.succ x) with (x + 1)%Z by lia. rewrite pow2_succ. reflexivity.
Qed.

(** *** Bit lengths *)

Lemma digits2_pos_bounds (p : positive) :
  (2 ^ (Zpos (digits2_pos p) - 1) <= Zpos p < 2 ^ Zpos (digits2_pos p))%Z.
Proof.
  induction p as [p IH | p IH | ]; cbn [digits2_pos].
  - rewrite Pos2Z.inj_succ. replace (Z.succ (Zpos (digits2_pos p)) - 1)%Z
      with (Z.succ (Zpos (digits2_pos p) - 1)) by lia.
    rewrite !Z.pow_succ_r by lia. lia.
  - rewrite Pos2Z.inj_succ. replace (Z.succ (Zpos (digits2_pos p)) - 1)%Z
      with (Z.succ (Zpos (digits2_pos p) - 1)) by lia.
    rewrite !Z.pow_succ_r by lia. lia.
  - cbn. lia.
Qed.

Lemma digits2_pos_bounds_R (p : positive) :
  pow2 (Zpos (digits2_pos p) - 1) <= IZR (Zpos p)
  /\ IZR (Zpos p) < pow2 (Zpos (digits2_pos p)).
Proof.
  destruct (digits2_pos_bounds p) as [Hlo Hhi].
  rewrite <- !pow2_IZR by lia. split; [ now apply IZR_le | now apply IZR_lt ].
Qed.

Lemma fexp_fexp64 (e : Z) : fexp prec emax e = fexp64 e.
Proof. reflexivity. Qed.

(** *** Where a real sits between two multiples of [2^e] *)

Lemma inbetween_bounds (m e : Z) (l : location) (v : R) :
  inbetween m e l v -> IZR m * pow2 e <= v < (IZR m + 1) * pow2 e.
Proof.
  pose proof (pow2_pos e) as Hp.
  destruct l as [ | [ | | ]]; cbn [inbetween]; intros H; nra.
Qed.

Lemma IZR_xI (p : positive) : IZR (Zpos p~1) = 2 * IZR (Zpos p) + 1.
Proof. rewrite Pos2Z.inj_xI, plus_IZR, mult_IZR. reflexivity. Qed.

Lemma IZR_xO (p : positive) : IZR (Zpos p~0) = 2 * IZR (Zpos p).
Proof. rewrite Pos2Z.inj_xO, mult_IZR. reflexivity. Qed.

Lemma shr_1_ok (mrs : shr_record) (e : Z) (v : R) :
  shr_ok mrs e v -> shr_ok (shr_1 mrs) (e + 1) v.
Proof.
  unfold shr_ok. destruct mrs as [m r s]. cbn [shr_m].
  intros [Hm Hin]. pose proof (pow2_pos e) as Hp.
  destruct m as [ | p | p ]; [ | | lia ].
  - destruct r, s; cbn [shr_1 shr_m orb loc_of_shr_record inbetween] in *;
      rewrite pow2_succ; split; try lia; nra.
  - destruct p as [p | p | ]; destruct r, s;
      cbn [shr_1 shr_m orb loc_of_shr_record inbetween] in *;
      rewrite pow2_succ;
      try rewrite (IZR_xI p) in Hin; try rewrite (IZR_xO p) in Hin;
      (split; [ lia | ]); nra.
Qed.

Lemma iter_shr_1_ok (n : positive) :
  forall mrs e v, shr_ok mrs e v ->
    shr_ok (iter_pos shr_1 n mrs) (e + Zpos n) v.
Proof.
  induction n as [n IH | n IH | ]; intros mrs e v H; cbn [iter_pos].
  - replace (e + Zpos n~1)%Z with (e + 1 + Zpos n + Zpos n)%Z by lia.
    apply IH, IH. now apply shr_1_ok.
  - replace (e + Zpos n~0)%Z with (e + Zpos n + Zpos n)%Z by lia.
    now apply IH, IH.
  - now apply shr_1_ok.
Qed.

Lemma shr_ok_shift (mrs : shr_record) (e n : Z) (v : R) :
  shr_ok mrs e v -> (0 <= n)%Z ->
  snd (shr mrs e n) = (e + n)%Z /\ shr_ok (fst (shr mrs e n)) (e + n) v.
Proof.
  intros H Hn. destruct n as [ | p | p ]; [ | | lia ]; cbn [shr fst snd].
  - rewrite Z.add_0_r. split; [ reflexivity | exact H ].
  - split; [ reflexivity | now apply iter_shr_1_ok ].
Qed.

Lemma shr_nonpos (mrs : shr_record) (e n : Z) :
  (n <= 0)%Z -> shr mrs e n = (mrs, e).
Proof. destruct n; [ reflexivity | lia | reflexivity ]. Qed.

Lemma shr_record_of_loc_ok (m e : Z) (l : location) (v : R) :
  (0 <= m)%Z -> inbetween m e l v -> shr_ok (shr_record_of_loc m l) e v.
Proof.
  intros Hm Hin. unfold shr_ok.
  destruct l as [ | [ | | ]]; cbn; split; assumption.
Qed.

(** *** Rounding to nearest, ties to even *)

Lemma div_pow2 (v : R) (g : Z) : v = v / pow2 g * pow2 g.
Proof. pose proof (pow2_pos g). field. lra. Qed.

Lemma nearest_of_inbetween (m g : Z) (l : location) (v : R) :
  inbetween m g l v -> nearest_even (v / pow2 g) (round_nearest_even m l).
Proof.
  intros Hin. pose proof (pow2_pos g) as Hp.
  rewrite (div_pow2 v g) in Hin. set (x := v / pow2 g) in *.
  unfold nearest_even.
  destruct l as [ | [ | | ]]; cbn [inbetween round_nearest_even] in *.
  - assert (E : x = IZR m) by nra. rewrite E.
    replace (IZR m - IZR m) with 0 by ring. rewrite Rabs_R0. split; lra.
  - assert (E : x = IZR m + / 2) by nra.
    destruct (Z.even m) eqn:Hev.
    + rewrite E. replace (IZR m - (IZR m + / 2)) with (- / 2) by ring.
      rewrite Rabs_Ropp, Rabs_pos_eq by lra. split; [ lra | intros _; exact Hev ].
    + rewrite plus_IZR, E.
      replace (IZR m + 1 - (IZR m + / 2)) with (/ 2) by field.
      rewrite Rabs_pos_eq by lra. split; [ lra | intros _ ].
      rewrite Z.even_add, Hev. reflexivity.
  - assert (E : IZR m < x < IZR m + / 2) by nra.
    assert (Ha : Rabs (IZR m - x) < / 2).
    { rewrite Rabs_left by lra. lra. }
    split; lra.
  - assert (E : IZR m + / 2 < x < IZR m + 1) by nra.
    rewrite plus_IZR.
    assert (Ha : Rabs (IZR m + 1 - x) < / 2).
    { rewrite Rabs_pos_eq by lra. lra. }
    split; lra.
Qed.

Lemma round_nearest_even_range (m : Z) (l : location) :
  (m <= round_nearest_even m l <= m + 1)%Z.
Proof.
  destruct l as [ | [ | | ]]; cbn [round_nearest_even];
    try destruct (Z.even m); lia.
Qed.

Lemma grid_of_digits (m e : Z) (l : location) (v : R) :
  (0 <= m)%Z -> inbetween m e l v ->
  (e <= fexp64 (Zdigits2 m + e))%Z ->
  grid v (fexp64 (Zdigits2 m + e)).
Proof.
  intros Hm Hin Hpre. apply inbetween_bounds in Hin.
  pose proof (pow2_pos e) as Hp. unfold grid, fexp64 in *.
  destruct m as [ | p | p ]; [ | | lia ]; cbn [Zdigits2] in *.
  - left. assert (He : (e <= -1074)%Z) by lia.
    split; [ lia | ].
    pose proof (pow2_le e (-1021) ltac:(lia)). split; nra.
  - destruct (digits2_pos_bounds_R p) as [Hlo _].
    assert (Hhi : IZR (Zpos p) + 1 <= pow2 (Zpos (digits2_pos p))).
    { destruct (digits2_pos_bounds p) as [_ Hz].
      rewrite <- pow2_IZR by lia. rewrite <- plus_IZR. apply IZR_le. lia. }
    set (d := Zpos (digits2_pos p)) in *.
    assert (Hv : pow2 (d - 1 + e) <= v < pow2 (d + e)).
    { rewrite !pow2_add. split; nra. }
    destruct (Z_le_gt_dec (d + e - 53) (-1074)) as [Hs | Hn].
    + left. rewrite Z.max_r by lia. split; [ reflexivity | ].
      pose proof (pow2_le (d + e) (-1021) ltac:(lia)).
      pose proof (pow2_pos (d - 1 + e)). lra.
    + right. rewrite Z.max_l by lia. split; [ lia | ].
      replace (d + e - 53 + 52)%Z with (d - 1 + e)%Z by lia.
      replace (d + e - 53 + 53)%Z with (d + e)%Z by lia. exact Hv.
Qed.

Lemma grid_upper (v : R) (g : Z) : grid v g -> 0 <= v < pow2 (g + 53).
Proof.
  intros [[-> H] | [Hg H]]; [ exact H | ].
  pose proof (pow2_pos (g + 52)). lra.
Qed.

Lemma grid_exponent (v : R) (g : Z) : grid v g -> (-1074 <= g)%Z.
Proof. intros [[-> _] | [Hg _]]; lia. Qed.

Lemma Zdigits2_le_53 (n : Z) :
  (0 < n < 2 ^ 53)%Z -> (Zdigits2 n <= 53)%Z.
Proof.
  intros [Hpos Hlt]. destruct n as [ | p | p ]; try lia. cbn [Zdigits2].
  destruct (digits2_pos_bounds p) as [Hlo _].
  assert (H : (2 ^ (Zpos (digits2_pos p) - 1) < 2 ^ 53)%Z) by lia.
  apply Z.pow_lt_mono_r_iff in H; lia.
Qed.

Theorem round_spec (s : bool) (m e : Z) (l : location) (v : R) :
  (0 <= m)%Z -> inbetween m e l v ->
  (e <= fexp64 (Zdigits2 m + e))%Z ->
  exists g n,
    grid v g /\ nearest_even (v / pow2 g) n /\ (0 <= n <= 2 ^ 53)%Z
    /\ binary_round_aux prec emax s m e l = pack s n g.
Proof.
  intros Hm Hin Hpre.
  pose proof (grid_of_digits m e l v Hm Hin Hpre) as Hgrid.
  set (g := fexp64 (Zdigits2 m + e)) in *.
  destruct (shr_ok_shift (shr_record_of_loc m l) e (g - e) v
              (shr_record_of_loc_ok m e l v Hm Hin) ltac:(lia)) as [He' Hok].
  replace (e + (g - e))%Z with g in * by lia.
  unfold binary_round_aux, shr_fexp. rewrite fexp_fexp64. fold g.
  destruct (shr (shr_record_of_loc m l) e (g - e)) as [mrs' e'].
  cbn [fst snd] in He', Hok. subst e'.
  destruct Hok as [Hm' Hin'].
  set (m' := shr_m mrs') in *. set (l' := loc_of_shr_record mrs') in *.
  set (n := round_nearest_even m' l').
  pose proof (nearest_of_inbetween m' g l' v Hin') as Hnear. fold n in Hnear.
  pose proof (round_nearest_even_range m' l') as Hrange. fold n in Hrange.
  pose proof (grid_exponent v g Hgrid) as Hg.
  assert (Hm'53 : (m' < 2 ^ 53)%Z).
  { apply lt_IZR. rewrite pow2_IZR by lia.
    apply inbetween_bounds in Hin'. destruct (grid_upper v g Hgrid) as [_ Hup].
    rewrite pow2_add in Hup. pose proof (pow2_pos g). nra. }
  exists g, n. split; [ exact Hgrid | ]. split; [ exact Hnear | ].
  split; [ lia | ].
  rewrite fexp_fexp64. unfold pack.
  destruct (Z.eqb_spec n 0) as [E0 | N0].
  - rewrite E0. cbn [Zdigits2 shr_record_of_loc].
    rewrite shr_nonpos by (unfold fexp64; lia). reflexivity.
  - destruct (Z.eqb_spec n (2 ^ 53)) as [E53 | N53].
    + rewrite E53.
      change (Zdigits2 (2 ^ 53)) with 54%Z.
      assert (Esh : (fexp64 (54 + g) - g = 1)%Z) by (unfold fexp64; lia).
      rewrite Esh. cbn [shr_record_of_loc shr iter_pos].
      change (shr_m (shr_1 {| shr_m := 2 ^ 53; shr_r := false; shr_s := false |}))
        with (Zpos (2 ^ 52)).
      cbv iota. change (Z.sub emax prec) with 971%Z. reflexivity.
    + assert (Hn : (0 < n < 2 ^ 53)%Z) by lia.
      pose proof (Zdigits2_le_53 n Hn) as Hd.
      rewrite shr_nonpos by (unfold fexp64; lia).
      cbn [shr_record_of_loc shr_m].
      destruct n as [ | p | p ]; try lia.
      change (Z.sub emax prec) with 971%Z. reflexivity.
Qed.

(** *** Values and order of valid floats *)

Lemma valid_finite (s : bool) (m : positive) (e : Z) :
  valid_binary (S754_finite s m e) = true ->
  (e <= 971)%Z
  /\ ((e = (-1074)%Z /\ (Zpos (digits2_pos m) <= 53)%Z)
      \/ ((-1074 < e)%Z /\ Zpos (digits2_pos m) = 53%Z)).
Proof.
  cbn [valid_binary]. unfold bounded, canonical_mantissa.
  rewrite andb_true_iff, Z.eqb_eq, Z.leb_le, fexp_fexp64.
  change (Z.sub emax prec) with 971%Z. unfold fexp64. lia.
Qed.

Lemma valid_finite_bounds (s : bool) (m : positive) (e : Z) :
  valid_binary (S754_finite s m e) = true ->
  (-1074 <= e <= 971)%Z
  /\ IZR (Zpos m) < pow2 53
  /\ ((-1074 < e)%Z -> pow2 52 <= IZR (Zpos m))
  /\ 0 < IZR (Zpos m) * pow2 e < pow2 1024.
Proof.
  intros Hv. destruct (valid_finite s m e Hv) as [He Hc].
  destruct (digits2_pos_bounds_R m) as [Hlo Hhi].
  assert (H53 : IZR (Zpos m) < pow2 53).
  { destruct Hc as [[_ Hd] | [_ Hd]].
    - pose proof (pow2_le _ 53 Hd). lra.
    - rewrite Hd in Hhi. exact Hhi. }
  assert (H52 : (-1074 < e)%Z -> pow2 52 <= IZR (Zpos m)).
  { intros Hn. destruct Hc as [[Hc _] | [_ Hd]]; [ lia | ].
    rewrite Hd in Hlo. exact Hlo. }
  assert (Hpos : 0 < IZR (Zpos m)) by (apply IZR_lt; lia).
  pose proof (pow2_pos e) as Hp.
  pose proof (pow2_le e 971 He) as Hle.
  assert (E : pow2 1024 = pow2 53 * pow2 971)
    by (rewrite <- pow2_add; reflexivity).
  repeat split; try lia; try assumption; nra.
Qed.

Lemma canonical_lt (s1 s2 : bool) (m1 m2 : positive) (e1 e2 : Z) :
  valid_binary (S754_finite s1 m1 e1) = true ->
  valid_binary (S754_finite s2 m2 e2) = true ->
  (e1 < e2)%Z ->
  IZR (Zpos m1) * pow2 e1 < IZR (Zpos m2) * pow2 e2.
Proof.
  intros V1 V2 Hlt.
  destruct (valid_finite_bounds _ _ _ V1) as (He1 & H1 & _ & _).
  destruct (valid_finite_bounds _ _ _ V2) as (He2 & _ & H2 & _).
  specialize (H2 ltac:(lia)).
  pose proof (pow2_pos e1) as Hp1.
  pose proof (pow2_le (e1 + 1) e2 ltac:(lia)) as Hle.
  rewrite pow2_succ in Hle.
  assert (E : pow2 53 = 2 * pow2 52) by (rewrite <- pow2_succ; reflexivity).
  pose proof (pow2_pos 52) as Hp52. pose proof (pow2_pos e2) as Hp2.
  apply Rlt_le_trans with (pow2 53 * pow2 e1).
  { apply Rmult_lt_compat_r; assumption. }
  apply Rle_trans with (pow2 52 * pow2 e2); [ nra | ].
  apply Rmult_le_compat_r; lra.
Qed.

Lemma rank_finite_bound (x : spec_float) :
  valid_binary x = true ->
  match x with
  | S754_finite _ _ _ | S754_zero _ => - pow2 1024 < rank x < pow2 1024
  | _ => True
  end.
Proof.
  intros V. pose proof (pow2_pos 1024). destruct x as [s | s | | s m e]; cbn [rank SF2R]; try exact I.
  - lra.
  - destruct (valid_finite_bounds _ _ _ V) as (_ & _ & _ & Hb).
    unfold sgn. destruct s; lra.
Qed.

Lemma pow2_1025 : pow2 1025 = 2 * pow2 1024.
Proof. rewrite <- pow2_succ. reflexivity. Qed.

(** On valid floats that are not NaN, the comparisons of the format are
    the order of the ranks. *)
Lemma SFcompare_rank (x y : spec_float) :
  valid_binary x = true -> valid_binary y = true ->
  is_nan_sf x = false -> is_nan_sf y = false ->
  match SFcompare x y with
  | Some Lt => rank x < rank y
  | Some Eq => rank x = rank y
  | Some Gt => rank y < rank x
  | None => False
  end.
Proof.
  intros Vx Vy Nx Ny.
  pose proof (rank_finite_bound x Vx) as Bx.
  pose proof (rank_finite_bound y Vy) as By.
  pose proof (pow2_pos 1024) as Hp. pose proof pow2_1025 as E25.
  destruct x as [sx | sx | | sx mx ex]; try discriminate;
    destruct y as [sy | sy | | sy my ey]; try discriminate;
    cbn [SFcompare rank SF2R] in *.
  - lra.
  - destruct sy; cbn [sgn]; lra.
  - destruct (valid_finite_bounds _ _ _ Vy) as (_ & _ & _ & Hb).
    destruct sy; cbn [sgn]; lra.
  - destruct sx; cbn [sgn]; lra.
  - destruct sx, sy; cbn [sgn]; lra.
  - destruct sx; cbn [sgn] in *; lra.
  - destruct (valid_finite_bounds _ _ _ Vx) as (_ & _ & _ & Hb).
    destruct sx; cbn [sgn]; lra.
  - destruct sy; cbn [sgn] in *; lra.
  - destruct (valid_finite_bounds _ _ _ Vx) as (_ & _ & _ & Hbx).
    destruct (valid_finite_bounds _ _ _ Vy) as (_ & _ & _ & Hby).
    assert (Hlt12 : (ex < ey)%Z -> IZR (Zpos mx) * pow2 ex < IZR (Zpos my) * pow2 ey)
      by (intros; eapply canonical_lt; eassumption).
    assert (Hlt21 : (ey < ex)%Z -> IZR (Zpos my) * pow2 ey < IZR (Zpos mx) * pow2 ex)
      by (intros; eapply canonical_lt; eassumption).
    assert (Heq : ex = ey ->
              match Pos.compare_cont Eq mx my with
              | Lt => IZR (Zpos mx) * pow2 ex < IZR (Zpos my) * pow2 ey
              | Eq => IZR (Zpos mx) * pow2 ex = IZR (Zpos my) * pow2 ey
              | Gt => IZR (Zpos my) * pow2 ey < IZR (Zpos mx) * pow2 ex
              end).
    { intros <-. pose proof (pow2_pos ex) as Hpe.
      change (Pos.compare_cont Eq mx my) with (Pos.compare mx my).
      destruct (Pos.compare_spec mx my) as [E | L | L].
      - subst my. reflexivity.
      - apply Rmult_lt_compat_r; [ exact Hpe | apply IZR_lt; lia ].
      - apply Rmult_lt_compat_r; [ exact Hpe | apply IZR_lt; lia ]. }
    destruct sx, sy; cbn [sgn]; try lra;
      destruct (Z.compare_spec ex ey) as [E | L | L];
      try specialize (Heq E); try specialize (Hlt12 L); try specialize (Hlt21 L);
      try lra;
      destruct (Pos.compare_cont Eq mx my); cbn [CompOpp]; lra.
Qed.

(** *** Rounding is monotone *)

Lemma nearest_even_bounds (x : R) (n : Z) :
  nearest_even x n -> x - / 2 <= IZR n <= x + / 2.
Proof.
  intros [H _]. unfold Rabs in H. destruct (Rcase_abs (IZR n - x)); lra.
Qed.

Lemma nearest_even_mono (x1 x2 : R) (n1 n2 : Z) :
  x1 <= x2 -> nearest_even x1 n1 -> nearest_even x2 n2 -> (n1 <= n2)%Z.
Proof.
  intros Hx H1 H2.
  destruct (Z_le_gt_dec n1 n2) as [Hle | Hgt]; [ exact Hle | exfalso ].
  pose proof (nearest_even_bounds _ _ H1) as B1.
  pose proof (nearest_even_bounds _ _ H2) as B2.
  assert (Hz : (n2 + 1 <= n1)%Z) by lia.
  apply IZR_le in Hz. rewrite plus_IZR in Hz.
  assert (E1 : IZR n1 - x1 = / 2) by lra.
  assert (E2 : IZR n2 - x2 = - / 2) by lra.
  assert (En : IZR n1 = IZR (n2 + 1)) by (rewrite plus_IZR; lra).
  apply eq_IZR in En.
  destruct H1 as [_ T1], H2 as [_ T2].
  rewrite E1, Rabs_pos_eq in T1 by lra.
  rewrite E2, Rabs_Ropp, Rabs_pos_eq in T2 by lra.
  specialize (T1 eq_refl). specialize (T2 eq_refl).
  rewrite En, Z.even_add, T2 in T1. discriminate.
Qed.

Lemma nearest_even_ge_pow (x : R) (n k : Z) :
  (0 <= k)%Z -> nearest_even x n -> pow2 k <= x -> (2 ^ k <= n)%Z.
Proof.
  intros Hk Hn Hx. pose proof (nearest_even_bounds _ _ Hn) as B.
  assert (H : (2 ^ k - 1 < n)%Z).
  { apply lt_IZR. rewrite minus_IZR, pow2_IZR by lia. lra. }
  lia.
Qed.

Lemma rounds_normal (v : R) (n g : Z) :
  rounds v n g -> (-1074 < g)%Z -> (2 ^ 52 <= n)%Z.
Proof.
  intros (Hg & Hn & _) Hgt.
  destruct Hg as [[-> _] | [_ [Hlo _]]]; [ lia | ].
  apply (nearest_even_ge_pow (v / pow2 g)); [ lia | exact Hn | ].
  rewrite pow2_add in Hlo. pose proof (pow2_pos g) as Hp.
  apply Rmult_le_reg_r with (pow2 g); [ exact Hp | ].
  rewrite <- div_pow2. lra.
Qed.

Lemma rounds_mono (v1 v2 : R) (n1 n2 g1 g2 : Z) :
  v1 <= v2 -> rounds v1 n1 g1 -> rounds v2 n2 g2 ->
  IZR n1 * pow2 g1 <= IZR n2 * pow2 g2.
Proof.
  intros Hv R1 R2.
  pose proof (rounds_normal _ _ _ R1) as N1.
  pose proof (rounds_normal _ _ _ R2) as N2.
  destruct R1 as (G1 & Hn1 & Hr1), R2 as (G2 & Hn2 & Hr2).
  pose proof (grid_exponent _ _ G1) as E1.
  pose proof (grid_exponent _ _ G2) as E2.
  pose proof (pow2_pos g1) as Hp1. pose proof (pow2_pos g2) as Hp2.
  destruct (Z.lt_trichotomy g1 g2) as [Hlt | [Heq | Hgt]].
  - specialize (N2 ltac:(lia)).
    assert (H1 : IZR n1 <= pow2 53)
      by (rewrite <- pow2_IZR by lia; apply IZR_le; lia).
    assert (H2 : pow2 52 <= IZR n2)
      by (rewrite <- pow2_IZR by lia; apply IZR_le; lia).
    pose proof (pow2_le (g1 + 53) (g2 + 52) ltac:(lia)) as Hle.
    rewrite !pow2_add in Hle.
    apply Rle_trans with (pow2 53 * pow2 g1);
      [ apply Rmult_le_compat_r; lra | ].
    apply Rle_trans with (pow2 52 * pow2 g2);
      [ lra | apply Rmult_le_compat_r; lra ].
  - subst g2. apply Rmult_le_compat_r; [ lra | ]. apply IZR_le.
    apply (nearest_even_mono (v1 / pow2 g1) (v2 / pow2 g1)); try assumption.
    apply Rmult_le_compat_r; [ | exact Hv ].
    apply Rlt_le, Rinv_0_lt_compat, Hp1.
  - exfalso.
    destruct G1 as [[-> _] | [_ [Hlo1 _]]]; [ lia | ].
    destruct (grid_upper _ _ G2) as [_ Hup2].
    pose proof (pow2_le (g2 + 53) (g1 + 52) ltac:(lia)). lra.
Qed.

Lemma clamp_mono (y1 y2 : R) : y1 <= y2 -> clamp y1 <= clamp y2.
Proof.
  intros H. unfold clamp. pose proof (pow2_pos 1024). pose proof pow2_1025.
  destruct (Rlt_dec y1 (pow2 1024)), (Rlt_dec y2 (pow2 1024)); lra.
Qed.

Lemma clamp_nonneg (y : R) : 0 <= y -> 0 <= clamp y.
Proof.
  intros H. unfold clamp. pose proof (pow2_pos 1025).
  destruct (Rlt_dec y (pow2 1024)); lra.
Qed.

Lemma pow2_Zpos_52 : IZR (Zpos (2 ^ 52)) = pow2 52.
Proof. change (Zpos (2 ^ 52)) with (2 ^ 52)%Z. apply pow2_IZR. lia. Qed.

Lemma pack_rank (s : bool) (v : R) (n g : Z) :
  rounds v n g -> rank (pack s n g) = sgn s * clamp (IZR n * pow2 g).
Proof.
  intros Hr. pose proof (rounds_normal _ _ _ Hr) as Hnorm.
  destruct Hr as (Hg & _ & Hn). pose proof (grid_exponent _ _ Hg) as He.
  pose proof (pow2_pos g) as Hp. pose proof (pow2_pos 1024) as Hp24.
  unfold pack, clamp.
  destruct (Z.eqb_spec n 0) as [E0 | N0].
  - subst n. cbn [rank SF2R]. rewrite Rmult_0_l.
    destruct (Rlt_dec 0 (pow2 1024)); [ ring | lra ].
  - destruct (Z.eqb_spec n (2 ^ 53)) as [E53 | N53].
    + subst n. rewrite pow2_IZR by lia. rewrite <- pow2_add.
      destruct (Z.leb_spec (g + 1) 971) as [Hle | Hgt].
      * cbn [rank SF2R]. rewrite pow2_Zpos_52, <- pow2_add.
        replace (52 + (g + 1))%Z with (53 + g)%Z by lia.
        pose proof (pow2_lt (53 + g) 1024 ltac:(lia)).
        destruct (Rlt_dec (pow2 (53 + g)) (pow2 1024)); [ reflexivity | lra ].
      * cbn [rank]. pose proof (pow2_le 1024 (53 + g) ltac:(lia)).
        destruct (Rlt_dec (pow2 (53 + g)) (pow2 1024)); [ lra | reflexivity ].
    + assert (Hpos : (0 < n)%Z) by lia.
      assert (Hlt : IZR n < pow2 53)
        by (rewrite <- pow2_IZR by lia; apply IZR_lt; lia).
      destruct (Z.leb_spec g 971) as [Hle | Hgt].
      * cbn [rank SF2R]. rewrite Z2Pos.id by lia.
        pose proof (pow2_le g 971 Hle).
        assert (E : pow2 1024 = pow2 53 * pow2 971)
          by (rewrite <- pow2_add; reflexivity).
        assert (0 < IZR n) by (apply IZR_lt; lia).
        destruct (Rlt_dec (IZR n * pow2 g) (pow2 1024)); [ reflexivity | ].
        exfalso. apply n0. rewrite E.
        apply Rlt_le_trans with (pow2 53 * pow2 g);
          [ apply Rmult_lt_compat_r; lra | apply Rmult_le_compat_l; lra ].
      * specialize (Hnorm ltac:(lia)).
        assert (H52 : pow2 52 <= IZR n)
          by (rewrite <- pow2_IZR by lia; apply IZR_le; lia).
        pose proof (pow2_le 972 g ltac:(lia)).
        assert (E : pow2 1024 = pow2 52 * pow2 972)
          by (rewrite <- pow2_add; reflexivity).
        pose proof (pow2_pos 52). pose proof (pow2_pos 972).
        cbn [rank].
        destruct (Rlt_dec (IZR n * pow2 g) (pow2 1024)); [ | reflexivity ].
        exfalso.
        assert (pow2 52 * pow2 972 <= IZR n * pow2 g).
        { apply Rle_trans with (pow2 52 * pow2 g);
            [ apply Rmult_le_compat_l; lra | apply Rmult_le_compat_r; lra ]. }
        lra.
Qed.

Lemma rounds_nonneg_value (v : R) (n g : Z) :
  rounds v n g -> 0 <= IZR n * pow2 g.
Proof.
  intros (_ & _ & Hn). pose proof (pow2_pos g).
  assert (0 <= IZR n) by (apply IZR_le; lia). nra.
Qed.

Lemma rounded_rank_mono (v1 v2 : R) (r1 r2 : spec_float) :
  v1 <= v2 -> rounded v1 r1 -> rounded v2 r2 -> rank r1 <= rank r2.
Proof.
  intros Hv H1 H2.
  assert (Pos : forall v r, (0 < v /\ exists g n, rounds v n g /\ r = pack false n g) ->
                 0 <= rank r).
  { intros v r (_ & g & n & Hr & ->). rewrite (pack_rank false v) by assumption.
    cbn [sgn]. pose proof (clamp_nonneg _ (rounds_nonneg_value _ _ _ Hr)). lra. }
  assert (Neg : forall v r, (v < 0 /\ exists g n, rounds (- v) n g /\ r = pack true n g) ->
                 rank r <= 0).
  { intros v r (_ & g & n & Hr & ->). rewrite (pack_rank true (- v)) by assumption.
    cbn [sgn]. pose proof (clamp_nonneg _ (rounds_nonneg_value _ _ _ Hr)). lra. }
  destruct H1 as [[E1 [s1 ->]] | [P1 | N1]]; destruct H2 as [[E2 [s2 ->]] | [P2 | N2]].
  - cbn. lra.
  - specialize (Pos _ _ P2). cbn [rank SF2R]. lra.
  - destruct N2 as [N2 _]. lra.
  - destruct P1 as [P1 _]. lra.
  - destruct P1 as (Hp1 & g1 & n1 & R1 & ->), P2 as (Hp2 & g2 & n2 & R2 & ->).
    rewrite (pack_rank false v1), (pack_rank false v2) by assumption.
    cbn [sgn]. pose proof (clamp_mono _ _ (rounds_mono _ _ _ _ _ _ Hv R1 R2)). lra.
  - destruct P1 as [P1 _], N2 as [N2 _]. lra.
  - specialize (Neg _ _ N1). cbn [rank SF2R]. lra.
  - specialize (Neg _ _ N1). specialize (Pos _ _ P2). lra.
  - destruct N1 as (Hn1 & g1 & n1 & R1 & ->), N2 as (Hn2 & g2 & n2 & R2 & ->).
    rewrite (pack_rank true (- v1)), (pack_rank true (- v2)) by assumption.
    cbn [sgn].
    assert (Hv' : - v2 <= - v1) by lra.
    pose proof (clamp_mono _ _ (rounds_mono _ _ _ _ _ _ Hv' R2 R1)). lra.
Qed.

(** *** The operations of the format on finite operands *)

Lemma round_spec_rounds (s : bool) (m e : Z) (l : location) (v : R) :
  (0 <= m)%Z -> inbetween m e l v -> (e <= fexp64 (Zdigits2 m + e))%Z ->
  exists g n, rounds v n g /\ binary_round_aux prec emax s m e l = pack s n g.
Proof.
  intros Hm Hin He.
  destruct (round_spec s m e l v Hm Hin He) as (g & n & A & B & C & D).
  exists g, n. unfold rounds. auto.
Qed.

Lemma iter_xO_value (d m : positive) :
  Zpos (Pos.iter xO m d) = (Zpos m * 2 ^ Zpos d)%Z.
Proof.
  induction d as [ | d IH] using Pos.peano_ind.
  - cbn. lia.
  - rewrite Pos.iter_succ, Pos2Z.inj_xO, IH, Pos2Z.inj_succ, Z.pow_succ_r by lia.
    lia.
Qed.

Lemma iter_xO_digits (d m : positive) :
  Zpos (digits2_pos (Pos.iter xO m d)) = (Zpos (digits2_pos m) + Zpos d)%Z.
Proof.
  induction d as [ | d IH] using Pos.peano_ind.
  - cbn [Pos.iter digits2_pos]. lia.
  - rewrite Pos.iter_succ. cbn [digits2_pos]. lia.
Qed.

Lemma shl_align_spec (m : positive) (e e' : Z) :
  exists m', shl_align m e e' = (m', Z.min e e')
    /\ IZR (Zpos m') * pow2 (Z.min e e') = IZR (Zpos m) * pow2 e
    /\ (Zpos (digits2_pos m') + Z.min e e' = Zpos (digits2_pos m) + e)%Z.
Proof.
  unfold shl_align. destruct (e' - e)%Z as [ | p | p] eqn:E.
  - exists m. replace (Z.min e e') with e by lia. auto.
  - exists m. replace (Z.min e e') with e by lia. auto.
  - exists (Pos.iter xO m p). replace (Z.min e e') with e' by lia.
    split; [ reflexivity | ]. split.
    + rewrite iter_xO_value, mult_IZR, pow2_IZR by lia.
      rewrite Rmult_assoc, <- pow2_add. do 2 f_equal. lia.
    + rewrite iter_xO_digits. lia.
Qed.

Lemma binary_round_spec (s : bool) (m : positive) (e : Z) :
  exists g n, rounds (IZR (Zpos m) * pow2 e) n g
              /\ binary_round prec emax s m e = pack s n g.
Proof.
  unfold binary_round.
  destruct (shl_align_spec m e (fexp prec emax (Zpos (digits2_pos m) + e)))
    as (m' & E & V & Dg).
  rewrite E. apply round_spec_rounds.
  - lia.
  - cbn [inbetween]. symmetry. exact V.
  - cbn [Zdigits2]. rewrite Dg, fexp_fexp64. lia.
Qed.

Lemma binary_normalize_spec (M e : Z) :
  rounded (IZR M * pow2 e) (binary_normalize prec emax M e false).
Proof.
  pose proof (pow2_pos e) as Hp.
  destruct M as [ | m | m]; cbn [binary_normalize].
  - left. split; [ ring | exists false; reflexivity ].
  - right; left. split.
    + assert (0 < IZR (Zpos m)) by (apply IZR_lt; lia). nra.
    + destruct (binary_round_spec false m e) as (g & n & Hr & E).
      exists g, n. auto.
  - right; right.
    assert (En : IZR (Zneg m) = - IZR (Zpos m))
      by (rewrite <- opp_IZR; reflexivity).
    assert (0 < IZR (Zpos m)) by (apply IZR_lt; lia).
    split.
    + rewrite En. nra.
    + destruct (binary_round_spec true m e) as (g & n & Hr & E).
      exists g, n. split; [ | exact E ].
      replace (- (IZR (Zneg m) * pow2 e)) with (IZR (Zpos m) * pow2 e)
        by (rewrite En; ring).
      exact Hr.
Qed.

Lemma cond_Zopp_IZR (s : bool) (z : Z) : IZR (cond_Zopp s z) = sgn s * IZR z.
Proof. destruct s; cbn [cond_Zopp sgn]; [ rewrite opp_IZR | ]; ring. Qed.

Lemma add_finite (sx sy : bool) (mx my : positive) (ex ey : Z) :
  rounded (SF2R (S754_finite sx mx ex) + SF2R (S754_finite sy my ey))
          (SFadd prec emax (S754_finite sx mx ex) (S754_finite sy my ey)).
Proof.
  unfold SFadd. cbv zeta.
  destruct (shl_align_spec mx ex (Z.min ex ey)) as (mx' & Ex & Vx & _).
  destruct (shl_align_spec my ey (Z.min ex ey)) as (my' & Ey & Vy & _).
  rewrite Ex, Ey. cbn [fst].
  replace (Z.min ex (Z.min ex ey)) with (Z.min ex ey) in Vx by lia.
  replace (Z.min ey (Z.min ex ey)) with (Z.min ex ey) in Vy by lia.
  match goal with
  | |- rounded ?v (binary_normalize _ _ ?M ?e _) =>
      replace v with (IZR M * pow2 e); [ apply binary_normalize_spec | ]
  end.
  rewrite plus_IZR, !cond_Zopp_IZR. cbn [SF2R].
  rewrite <- Vx, <- Vy. ring.
Qed.

Lemma sub_finite (sx sy : bool) (mx my : positive) (ex ey : Z) :
  rounded (SF2R (S754_finite sx mx ex) - SF2R (S754_finite sy my ey))
          (SFsub prec emax (S754_finite sx mx ex) (S754_finite sy my ey)).
Proof.
  unfold SFsub. cbv zeta.
  destruct (shl_align_spec mx ex (Z.min ex ey)) as (mx' & Ex & Vx & _).
  destruct (shl_align_spec my ey (Z.min ex ey)) as (my' & Ey & Vy & _).
  rewrite Ex, Ey. cbn [fst].
  replace (Z.min ex (Z.min ex ey)) with (Z.min ex ey) in Vx by lia.
  replace (Z.min ey (Z.min ex ey)) with (Z.min ex ey) in Vy by lia.
  match goal with
  | |- rounded ?v (binary_normalize _ _ ?M ?e _) =>
      replace v with (IZR M * pow2 e); [ apply binary_normalize_spec | ]
  end.
  rewrite minus_IZR, !cond_Zopp_IZR. cbn [SF2R].
  rewrite <- Vx, <- Vy. ring.
Qed.

Lemma digits2_mul (a b : positive) :
  (Zpos (digits2_pos a) + Zpos (digits2_pos b) - 1
   <= Zpos (digits2_pos (a * b)))%Z.
Proof.
  pose proof (digits2_pos_bounds a) as [La _].
  pose proof (digits2_pos_bounds b) as [Lb _].
  pose proof (digits2_pos_bounds (a * b)) as [_ Uab].
  assert (H : (2 ^ (Zpos (digits2_pos a) - 1 + (Zpos (digits2_pos b) - 1))
               <= Zpos (a * b))%Z).
  { rewrite Z.pow_add_r, Pos2Z.inj_mul by lia.
    apply Z.mul_le_mono_nonneg; try assumption; apply Z.pow_nonneg; lia. }
  assert (Hlt : (Zpos (digits2_pos a) - 1 + (Zpos (digits2_pos b) - 1)
                 < Zpos (digits2_pos (a * b)))%Z).
  { apply (Z.pow_lt_mono_r_iff 2); lia. }
  lia.
Qed.

Lemma sgn_xorb (a b : bool) : sgn (xorb a b) = sgn a * sgn b.
Proof. destruct a, b; cbn; ring. Qed.

Lemma sgn_cases (s : bool) (v y : R) (r : spec_float) :
  0 < y -> v = sgn s * y ->
  (exists g n, rounds y n g /\ r = pack s n g) -> rounded v r.
Proof.
  intros Hy -> (g & n & Hr & ->). destruct s; cbn [sgn].
  - right; right. split; [ lra | ]. exists g, n.
    replace (- (-1 * y)) with y by ring. auto.
  - right; left. split; [ lra | ]. exists g, n.
    replace (1 * y) with y by ring. auto.
Qed.

Lemma finite_value_pos (m : positive) (e : Z) : 0 < IZR (Zpos m) * pow2 e.
Proof.
  pose proof (pow2_pos e). assert (0 < IZR (Zpos m)) by (apply IZR_lt; lia).
  apply Rmult_lt_0_compat; assumption.
Qed.

Lemma mul_finite (sx sy : bool) (mx my : positive) (ex ey : Z) :
  valid_binary (S754_finite sx mx ex) = true ->
  valid_binary (S754_finite sy my ey) = true ->
  rounded (SF2R (S754_finite sx mx ex) * SF2R (S754_finite sy my ey))
          (SFmul prec emax (S754_finite sx mx ex) (S754_finite sy my ey)).
Proof.
  intros Vx Vy. unfold SFmul.
  apply (sgn_cases (xorb sx sy) _
           (IZR (Zpos mx) * pow2 ex * (IZR (Zpos my) * pow2 ey))).
  - apply Rmult_lt_0_compat; apply finite_value_pos.
  - cbn [SF2R]. rewrite sgn_xorb. ring.
  - apply round_spec_rounds.
    + lia.
    + cbn [inbetween]. rewrite Pos2Z.inj_mul, mult_IZR, pow2_add. ring.
    + apply valid_finite in Vx, Vy. pose proof (digits2_mul mx my).
      cbn [Zdigits2]. unfold fexp64.
      pose proof (Pos2Z.is_pos (digits2_pos mx)).
      pose proof (Pos2Z.is_pos (digits2_pos my)). lia.
Qed.

Lemma new_location_spec (nb k : Z) :
  (0 < nb)%Z -> (0 <= k < nb)%Z ->
  match new_location nb k with
  | loc_Exact => k = 0%Z
  | loc_Inexact Lt => (0 < k /\ 2 * k < nb)%Z
  | loc_Inexact Eq => (2 * k = nb)%Z
  | loc_Inexact Gt => (nb < 2 * k)%Z
  end.
Proof.
  intros Hnb Hk. unfold new_location, new_location_even, new_location_odd.
  destruct (Z.even nb) eqn:Ev.
  - destruct (Z.eqb_spec k 0); [ assumption | ].
    destruct (Z.compare_spec (2 * k) nb); lia.
  - destruct (Z.eqb_spec k 0); [ assumption | ].
    assert (Hodd : Z.odd nb = true) by (rewrite <- Z.negb_even, Ev; reflexivity).
    apply Z.odd_spec in Hodd. destruct Hodd as [c Hc].
    destruct (Z.compare_spec (2 * k + 1) nb); lia.
Qed.

Lemma div_location (m' m2 q r e' : Z) :
  (0 <= m')%Z -> (0 < m2)%Z -> Z.div_eucl m' m2 = (q, r) ->
  (0 <= q)%Z
  /\ q = (m' / m2)%Z
  /\ inbetween q e' (new_location m2 r) (IZR m' / IZR m2 * pow2 e').
Proof.
  intros Hm' Hm2 Hd.
  pose proof (Z_div_mod m' m2 ltac:(lia)) as Hdm. rewrite Hd in Hdm.
  destruct Hdm as [Em Hr].
  assert (Eq : q = (m' / m2)%Z) by (unfold Z.div; rewrite Hd; reflexivity).
  assert (Hq : (0 <= q)%Z) by (rewrite Eq; apply Z.div_pos; lia).
  split; [ exact Hq | ]. split; [ exact Eq | ].
  pose proof (new_location_spec m2 r Hm2 Hr) as Hl.
  pose proof (pow2_pos e') as Hp.
  assert (Hm2R : 0 < IZR m2) by (apply IZR_lt; lia).
  set (x := IZR r / IZR m2).
  assert (Ex : x * IZR m2 = IZR r) by (unfold x; field; lra).
  assert (Ev : IZR m' / IZR m2 = IZR q + x).
  { unfold x. rewrite Em, plus_IZR, mult_IZR. field. lra. }
  rewrite Ev.
  destruct (new_location m2 r) as [ | [ | | ]]; cbn [inbetween].
  - subst r. assert (x = 0) by (unfold x; field; lra). rewrite H. ring.
  - apply (f_equal IZR) in Hl. rewrite mult_IZR in Hl.
    assert (x = / 2) by nra.
    rewrite H. ring.
  - destruct Hl as [H0 H2]. apply IZR_lt in H0, H2. rewrite mult_IZR in H2.
    assert (0 < x < / 2) by (split; nra).
    split; apply Rmult_lt_compat_r; lra.
  - destruct Hr as [_ Hr]. apply IZR_lt in Hl, Hr. rewrite mult_IZR in Hl.
    assert (/ 2 < x < 1) by (split; nra).
    split; apply Rmult_lt_compat_r; lra.
Qed.

Lemma Zdigits2_nonneg (q : Z) : (0 <= Zdigits2 q)%Z.
Proof. destruct q; cbn [Zdigits2]; lia. Qed.

Lemma div_digits (m1 m2 : positive) (s : Z) :
  (0 <= s)%Z ->
  (Zpos (digits2_pos m1) + s - Zpos (digits2_pos m2)
   <= Zdigits2 (Zpos m1 * 2 ^ s / Zpos m2))%Z.
Proof.
  intros Hs.
  pose proof (digits2_pos_bounds m1) as [L1 _].
  pose proof (digits2_pos_bounds m2) as [_ U2].
  set (d1 := Zpos (digits2_pos m1)) in *.
  set (d2 := Zpos (digits2_pos m2)) in *.
  assert (Hd1 : (0 < d1)%Z) by (unfold d1; lia).
  assert (Hd2 : (0 < d2)%Z) by (unfold d2; lia).
  set (q := (Zpos m1 * 2 ^ s / Zpos m2)%Z).
  destruct (Z_lt_le_dec (d1 + s - d2 - 1) 0) as [Hneg | Hk].
  - pose proof (Zdigits2_nonneg q). lia.
  - set (k := (d1 + s - d2 - 1)%Z) in *.
    assert (Hq : (2 ^ k <= q)%Z).
    { apply Z.div_le_lower_bound; [ lia | ].
      assert (E : (2 ^ (d1 - 1) * 2 ^ s = 2 ^ d2 * 2 ^ k)%Z).
      { rewrite <- !Z.pow_add_r by lia. f_equal. unfold k. lia. }
      assert (P2s : (0 < 2 ^ s)%Z) by (apply Z.pow_pos_nonneg; lia).
      assert (P2k : (0 < 2 ^ k)%Z) by (apply Z.pow_pos_nonneg; lia).
      apply Z.le_trans with (2 ^ d2 * 2 ^ k)%Z.
      - apply Z.mul_le_mono_nonneg_r; lia.
      - rewrite <- E. apply Z.mul_le_mono_nonneg_r; lia. }
    assert (P2k : (0 < 2 ^ k)%Z) by (apply Z.pow_pos_nonneg; lia).
    destruct q as [ | p | p]; try lia.
    cbn [Zdigits2].
    pose proof (digits2_pos_bounds p) as [_ Up].
    assert (Hlt : (k < Zpos (digits2_pos p))%Z)
      by (apply (Z.pow_lt_mono_r_iff 2); lia).
    lia.
Qed.

Lemma shifted_mantissa (m : Z) (s : Z) :
  (0 <= s)%Z ->
  match s with
  | Zpos _ => Z.shiftl m s
  | Z0 => m
  | Zneg _ => 0%Z
  end = (m * 2 ^ s)%Z.
Proof.
  intros Hs. destruct s as [ | p | p].
  - rewrite Z.pow_0_r. lia.
  - apply Z.shiftl_mul_pow2. lia.
  - lia.
Qed.

Lemma div_finite (sx sy : bool) (mx my : positive) (ex ey : Z) :
  rounded (SF2R (S754_finite sx mx ex) / SF2R (S754_finite sy my ey))
          (SFdiv prec emax (S754_finite sx mx ex) (S754_finite sy my ey)).
Proof.
  unfold SFdiv, SFdiv_core_binary. cbv zeta.
  set (d1 := Zdigits2 (Zpos mx)). set (d2 := Zdigits2 (Zpos my)).
  set (e' := Z.min (fexp prec emax (d1 + ex - (d2 + ey))) (ex - ey)).
  assert (Hs : (0 <= ex - ey - e')%Z) by (unfold e'; lia).
  rewrite (shifted_mantissa (Zpos mx) _ Hs).
  set (s := (ex - ey - e')%Z) in *.
  destruct (Z.div_eucl (Zpos mx * 2 ^ s) (Zpos my)) as [q r] eqn:Hd.
  assert (P2s : (0 < 2 ^ s)%Z) by (apply Z.pow_pos_nonneg; lia).
  assert (Hm' : (0 <= Zpos mx * 2 ^ s)%Z) by (apply Z.mul_nonneg_nonneg; lia).
  destruct (div_location (Zpos mx * 2 ^ s) (Zpos my) q r e' Hm' (Pos2Z.is_pos my) Hd)
    as (Hq & Eq & Hin).
  pose proof (pow2_pos ex) as Hpx. pose proof (pow2_pos ey) as Hpy.
  pose proof (pow2_pos e') as Hpe. pose proof (pow2_pos s) as Hps.
  assert (Hmx : 0 < IZR (Zpos mx)) by (apply IZR_lt; lia).
  assert (Hmy : 0 < IZR (Zpos my)) by (apply IZR_lt; lia).
  assert (Epow : pow2 ex = pow2 s * pow2 e' * pow2 ey).
  { rewrite <- !pow2_add. f_equal. unfold s. lia. }
  assert (Ev : IZR (Zpos mx * 2 ^ s) / IZR (Zpos my) * pow2 e'
               = IZR (Zpos mx) * pow2 ex / (IZR (Zpos my) * pow2 ey)).
  { rewrite mult_IZR, pow2_IZR by lia. rewrite Epow. field. lra. }
  rewrite Ev in Hin.
  apply (sgn_cases (xorb sx sy) _
           (IZR (Zpos mx) * pow2 ex / (IZR (Zpos my) * pow2 ey))).
  - apply Rdiv_lt_0_compat; apply finite_value_pos.
  - cbn [SF2R]. rewrite sgn_xorb.
    destruct sx, sy; cbn [sgn]; field; lra.
  - apply round_spec_rounds; [ exact Hq | exact Hin | ].
    pose proof (div_digits mx my s Hs) as Hdg. rewrite <- Eq in Hdg.
    clear - Hdg. subst s e' d1 d2. cbn [Zdigits2] in *.
    rewrite fexp_fexp64 in *. unfold fexp64 in *. lia.
Qed.

(** A float of the format is the rounding of its own value. *)
Lemma rounded_self (s : bool) (m : positive) (e : Z) :
  valid_binary (S754_finite s m e) = true ->
  rounded (SF2R (S754_finite s m e)) (S754_finite s m e).
Proof.
  intros V.
  pose proof (valid_finite _ _ _ V) as [He Hc].
  pose proof (valid_finite_bounds _ _ _ V) as (Hr & Hlt & Hnorm & Hpos & Hup).
  pose proof (digits2_pos_bounds_R m) as [Lm Um].
  pose proof (pow2_pos e) as Hp.
  apply (sgn_cases s _ (IZR (Zpos m) * pow2 e)).
  - apply finite_value_pos.
  - reflexivity.
  - exists e, (Zpos m). split.
    + split; [ | split ].
      * destruct Hc as [[-> Hd] | [Hgt Hd]].
        -- left. split; [ reflexivity | ]. split; [ lra | ].
           replace (-1021)%Z with (53 + -1074)%Z by lia. rewrite pow2_add.
           apply Rmult_lt_compat_r; lra.
        -- right. split; [ exact Hgt | ].
           specialize (Hnorm Hgt).
           replace (e + 52)%Z with (52 + e)%Z by lia.
           replace (e + 53)%Z with (53 + e)%Z by lia.
           rewrite !pow2_add. split.
           ++ apply Rmult_le_compat_r; lra.
           ++ apply Rmult_lt_compat_r; lra.
      * replace (IZR (Zpos m) * pow2 e / pow2 e) with (IZR (Zpos m))
          by (field; lra).
        split.
        -- replace (IZR (Zpos m) - IZR (Zpos m)) with 0 by ring.
           rewrite Rabs_R0. lra.
        -- replace (IZR (Zpos m) - IZR (Zpos m)) with 0 by ring.
           rewrite Rabs_R0. lra.
      * assert (Zpos m < 2 ^ 53)%Z
          by (apply lt_IZR; rewrite pow2_IZR by lia; exact Hlt).
        lia.
    + unfold pack.
      assert (Hm53 : (Zpos m < 2 ^ 53)%Z)
        by (apply lt_IZR; rewrite pow2_IZR by lia; exact Hlt).
      destruct (Z.eqb_spec (Zpos m) 0) as [E0 | _]; [ lia | ].
      destruct (Z.eqb_spec (Zpos m) (2 ^ 53)) as [E53 | _]; [ lia | ].
      destruct (Z.leb_spec e 971) as [_ | Hgt]; [ reflexivity | lia ].
Qed.

Lemma rounded_error (v : R) (r : spec_float) :
  rounded v r -> normal_sf r ->
  Rabs (SF2R r - v) <= pow2 (-53) * Rabs (SF2R r).
Proof.
  intros Hr Hn.
  assert (Core : forall s y g n, 0 < y -> rounds y n g ->
            normal_sf (pack s n g) ->
            Rabs (SF2R (pack s n g) - sgn s * y)
            <= pow2 (-53) * Rabs (SF2R (pack s n g))).
  { clear. intros s y g n Hy Hr Hn.
    pose proof (rounds_normal _ _ _ Hr) as Hnorm.
    destruct Hr as (Hg & Hne & Hrange).
    pose proof (pow2_pos g) as Hp.
    pose proof (nearest_even_bounds _ _ Hne) as Hb.
    assert (Ey : y = y / pow2 g * pow2 g) by apply div_pow2.
    set (x := y / pow2 g) in *.
    assert (E53 : pow2 (-53) * pow2 53 = 1)
      by (rewrite <- pow2_add; reflexivity).
    assert (E52 : pow2 53 = 2 * pow2 52)
      by (rewrite <- pow2_succ; reflexivity).
    assert (Hval : SF2R (pack s n g) = sgn s * (IZR n * pow2 g)
                   /\ pow2 52 <= IZR n).
    { unfold pack in *.
      destruct (Z.eqb_spec n 0) as [E0 | N0]; [ destruct Hn | ].
      destruct (Z.eqb_spec n (2 ^ 53)) as [En | N53].
      - destruct (Z.leb_spec (g + 1) 971); [ | destruct Hn ].
        cbn [SF2R]. rewrite pow2_Zpos_52, En, pow2_IZR by lia.
        split; [ | pose proof (pow2_pos 52); lra ].
        rewrite pow2_succ. rewrite E52. ring.
      - destruct (Z.leb_spec g 971); [ | destruct Hn ].
        cbn [SF2R normal_sf] in *. rewrite Z2Pos.id in * by lia.
        split; [ reflexivity | ].
        destruct (Z.eq_dec g (-1074)) as [-> | Hne'].
        + assert (E : pow2 (-1022) = pow2 52 * pow2 (-1074))
            by (rewrite <- pow2_add; reflexivity).
          rewrite E in Hn. apply Rmult_le_reg_r in Hn; assumption.
        + pose proof (grid_exponent _ _ Hg).
          rewrite <- pow2_IZR by lia. apply IZR_le. apply Hnorm. lia. }
    destruct Hval as [-> H52].
    replace (sgn s * (IZR n * pow2 g) - sgn s * y)
      with (sgn s * ((IZR n - x) * pow2 g)) by (unfold x; field; lra).
    assert (Hs : forall z, Rabs (sgn s * z) = Rabs z).
    { intros z. destruct s; cbn [sgn].
      - replace (-1 * z) with (- z) by ring. apply Rabs_Ropp.
      - f_equal. ring. }
    rewrite !Hs.
    rewrite (Rabs_pos_eq (IZR n * pow2 g))
      by (apply Rmult_le_pos; [ pose proof (pow2_pos 52); lra | lra ]).
    rewrite Rabs_mult, (Rabs_pos_eq (pow2 g)) by lra.
    rewrite <- Rmult_assoc. apply Rmult_le_compat_r; [ lra | ].
    destruct Hne as [Hab _].
    pose proof (pow2_pos (-53)). pose proof (pow2_pos 52). nra. }
  destruct Hr as [[_ [s ->]] | [[Hv (g & n & Hr & ->)] | [Hv (g & n & Hr & ->)]]].
  - destruct Hn.
  - specialize (Core false v g n Hv Hr Hn). cbn [sgn] in Core.
    replace (1 * v) with v in Core by ring. exact Core.
  - specialize (Core true (- v) g n ltac:(lra) Hr Hn). cbn [sgn] in Core.
    replace (-1 * - v) with v in Core by ring. exact Core.
Qed.

(** *** Zeros, infinities and NaN *)

Lemma SFadd_fin (x y : spec_float) :
  valid_binary x = true -> valid_binary y = true -> finish x -> finish y ->
  rounded (SF2R x + SF2R y) (SFadd prec emax x y).
Proof.
  intros Vx Vy Fx Fy.
  destruct x as [sx | sx | | sx mx ex]; try contradiction;
    destruct y as [sy | sy | | sy my ey]; try contradiction.
  - left. split; [ cbn; ring | ]. destruct sx, sy; eexists; reflexivity.
  - replace (SF2R (S754_zero sx) + SF2R (S754_finite sy my ey))
      with (SF2R (S754_finite sy my ey)) by (cbn [SF2R]; ring).
    apply rounded_self. exact Vy.
  - replace (SF2R (S754_finite sx mx ex) + SF2R (S754_zero sy))
      with (SF2R (S754_finite sx mx ex)) by (cbn [SF2R]; ring).
    apply rounded_self. exact Vx.
  - apply add_finite.
Qed.

Lemma SFsub_fin (x y : spec_float) :
  valid_binary x = true -> valid_binary y = true -> finish x -> finish y ->
  rounded (SF2R x - SF2R y) (SFsub prec emax x y).
Proof.
  intros Vx Vy Fx Fy.
  destruct x as [sx | sx | | sx mx ex]; try contradiction;
    destruct y as [sy | sy | | sy my ey]; try contradiction.
  - left. split; [ cbn; ring | ]. destruct sx, sy; eexists; reflexivity.
  - replace (SF2R (S754_zero sx) - SF2R (S754_finite sy my ey))
      with (SF2R (S754_finite (negb sy) my ey))
      by (cbn [SF2R]; destruct sy; cbn [sgn negb]; ring).
    apply (rounded_self (negb sy) my ey). exact Vy.
  - replace (SF2R (S754_finite sx mx ex) - SF2R (S754_zero sy))
      with (SF2R (S754_finite sx mx ex)) by (cbn [SF2R]; ring).
    apply rounded_self. exact Vx.
  - apply sub_finite.
Qed.

Lemma SFmul_fin (x y : spec_float) :
  valid_binary x = true -> valid_binary y = true -> finish x -> finish y ->
  rounded (SF2R x * SF2R y) (SFmul prec emax x y).
Proof.
  intros Vx Vy Fx Fy.
  destruct x as [sx | sx | | sx mx ex]; try contradiction;
    destruct y as [sy | sy | | sy my ey]; try contradiction.
  - left. split; [ cbn; ring | ]. eexists; reflexivity.
  - left. split; [ cbn; ring | ]. eexists; reflexivity.
  - left. split; [ cbn; ring | ]. eexists; reflexivity.
  - apply mul_finite; assumption.
Qed.

Lemma SFdiv_fin (x : spec_float) (sy : bool) (my : positive) (ey : Z) :
  finish x ->
  rounded (SF2R x / SF2R (S754_finite sy my ey))
          (SFdiv prec emax x (S754_finite sy my ey)).
Proof.
  intros Fx.
  destruct x as [sx | sx | | sx mx ex]; try contradiction.
  - left. split; [ cbn [SF2R]; unfold Rdiv; ring | ]. eexists; reflexivity.
  - apply div_finite.
Qed.

Lemma pack_cases (s : bool) (n g : Z) :
  (exists s', pack s n g = S754_zero s' /\ s' = s)
  \/ (exists m e, pack s n g = S754_finite s m e)
  \/ pack s n g = S754_infinity s.
Proof.
  unfold pack.
  destruct (n =? 0)%Z; [ left; eauto | ].
  destruct (n =? 2 ^ 53)%Z.
  - destruct (g + 1 <=? 971)%Z; [ right; left; eauto | right; right; auto ].
  - destruct (g <=? 971)%Z; [ right; left; eauto | right; right; auto ].
Qed.

Lemma rounded_nonnan (v : R) (r : spec_float) :
  rounded v r -> is_nan_sf r = false.
Proof.
  intros [[_ [s ->]] | [[_ (g & n & _ & ->)] | [_ (g & n & _ & ->)]]];
    [ reflexivity | | ].
  - destruct (pack_cases false n g) as [(s' & -> & _) | [(m & e & ->) | ->]];
      reflexivity.
  - destruct (pack_cases true n g) as [(s' & -> & _) | [(m & e & ->) | ->]];
      reflexivity.
Qed.

Lemma clamp_bounds (y : R) : 0 <= y -> 0 <= clamp y <= pow2 1025.
Proof.
  intros H. unfold clamp. pose proof (pow2_pos 1024). pose proof pow2_1025.
  destruct (Rlt_dec y (pow2 1024)); lra.
Qed.

Lemma rounded_rank_bounds (v : R) (r : spec_float) :
  rounded v r -> - pow2 1025 <= rank r <= pow2 1025.
Proof.
  pose proof (pow2_pos 1025).
  intros [[_ [s ->]] | [[_ (g & n & Hr & ->)] | [_ (g & n & Hr & ->)]]].
  - cbn [rank SF2R]. lra.
  - rewrite (pack_rank false v) by assumption. cbn [sgn].
    pose proof (clamp_bounds _ (rounds_nonneg_value _ _ _ Hr)). lra.
  - rewrite (pack_rank true (- v)) by assumption. cbn [sgn].
    pose proof (clamp_bounds _ (rounds_nonneg_value _ _ _ Hr)). lra.
Qed.

Lemma rounded_nonneg_unsigned (v : R) (r : spec_float) :
  rounded v r -> 0 < v -> unsigned_sf r.
Proof.
  intros [[E _] | [[_ (g & n & _ & ->)] | [N _]]] Hv; try lra.
  destruct (pack_cases false n g) as [(s' & -> & ->) | [(m & e & ->) | ->]];
    exact I.
Qed.

Lemma rank_finish (x : spec_float) :
  valid_binary x = true -> finish x ->
  rank x = SF2R x /\ - pow2 1024 < rank x < pow2 1024.
Proof.
  intros V F. pose proof (rank_finite_bound x V) as H.
  destruct x; try contradiction; split; try reflexivity; exact H.
Qed.

Lemma rank_bounds (x : spec_float) :
  valid_binary x = true -> is_nan_sf x = false ->
  - pow2 1025 <= rank x <= pow2 1025.
Proof.
  intros V N. pose proof (pow2_pos 1024). pose proof pow2_1025.
  pose proof (rank_finite_bound x V) as Hb.
  destruct x as [s | [ | ] | | s m e]; try discriminate;
    cbn [rank sgn] in *; lra.
Qed.

(** A float operation that rounds a monotone real function on finite
    arguments and keeps the infinities is monotone on all floats that are
    not NaN. *)
Lemma mono_engine (phi : spec_float -> spec_float) (rho : R -> R) :
  (forall x, valid_binary x = true -> finish x ->
             rounded (rho (SF2R x)) (phi x)) ->
  (forall u v, u <= v -> rho u <= rho v) ->
  phi (S754_infinity false) = S754_infinity false ->
  phi (S754_infinity true) = S754_infinity true ->
  forall x x', valid_binary x = true -> valid_binary x' = true ->
    is_nan_sf x = false -> is_nan_sf x' = false -> rank x <= rank x' ->
    is_nan_sf (phi x) = false /\ is_nan_sf (phi x') = false
    /\ rank (phi x) <= rank (phi x').
Proof.
  intros Hfin Hmono Hp Hn x x' V V' N N' Hle.
  pose proof (pow2_pos 1024) as P24. pose proof pow2_1025 as E25.
  assert (Cls : forall z, valid_binary z = true -> is_nan_sf z = false ->
            (z = S754_infinity true /\ rank z = - pow2 1025)
            \/ (z = S754_infinity false /\ rank z = pow2 1025)
            \/ (finish z /\ rank z = SF2R z
                /\ - pow2 1024 < rank z < pow2 1024)).
  { intros z Vz Nz. destruct z as [s | [ | ] | | s m e]; try discriminate.
    - right; right. split; [ exact I | ]. apply (rank_finish _ Vz I).
    - left. split; [ reflexivity | cbn [rank sgn]; ring ].
    - right; left. split; [ reflexivity | cbn [rank sgn]; ring ].
    - right; right. split; [ exact I | ]. apply (rank_finish _ Vz I). }
  destruct (Cls x V N) as [[-> Rx] | [[-> Rx] | (Fx & Rx & Bx)]];
    destruct (Cls x' V' N') as [[-> Rx'] | [[-> Rx'] | (Fx' & Rx' & Bx')]];
    try (exfalso; lra).
  - rewrite Hn. cbn [is_nan_sf]. repeat split; try reflexivity; lra.
  - rewrite Hn, Hp. cbn [is_nan_sf]. repeat split; try reflexivity; lra.
  - rewrite Hn. pose proof (Hfin _ V' Fx') as Hr.
    pose proof (rounded_nonnan _ _ Hr). pose proof (rounded_rank_bounds _ _ Hr).
    cbn [is_nan_sf]. repeat split; try reflexivity; try assumption; lra.
  - rewrite Hp. cbn [is_nan_sf]. repeat split; try reflexivity; lra.
  - rewrite Hp. pose proof (Hfin _ V Fx) as Hr.
    pose proof (rounded_nonnan _ _ Hr). pose proof (rounded_rank_bounds _ _ Hr).
    cbn [is_nan_sf]. repeat split; try reflexivity; try assumption; lra.
  - pose proof (Hfin _ V Fx) as Hr. pose proof (Hfin _ V' Fx') as Hr'.
    pose proof (rounded_nonnan _ _ Hr). pose proof (rounded_nonnan _ _ Hr').
    repeat split; try assumption.
    assert (Hv : SF2R x <= SF2R x') by lra.
    apply (rounded_rank_mono _ _ _ _ (Hmono _ _ Hv) Hr Hr').
Qed.

Lemma sub_finite_unsigned (sx sy : bool) (mx my : positive) (ex ey : Z) :
  0 <= SF2R (S754_finite sx mx ex) - SF2R (S754_finite sy my ey) ->
  unsigned_sf (SFsub prec emax (S754_finite sx mx ex) (S754_finite sy my ey)).
Proof.
  intros Hv. unfold SFsub. cbv zeta.
  destruct (shl_align_spec mx ex (Z.min ex ey)) as (mx' & Ex & Vx & _).
  destruct (shl_align_spec my ey (Z.min ex ey)) as (my' & Ey & Vy & _).
  rewrite Ex, Ey. cbn [fst].
  replace (Z.min ex (Z.min ex ey)) with (Z.min ex ey) in Vx by lia.
  replace (Z.min ey (Z.min ex ey)) with (Z.min ex ey) in Vy by lia.
  set (M := (cond_Zopp sx (Zpos mx') - cond_Zopp sy (Zpos my'))%Z).
  assert (EM : IZR M * pow2 (Z.min ex ey)
               = SF2R (S754_finite sx mx ex) - SF2R (S754_finite sy my ey)).
  { unfold M. rewrite minus_IZR, !cond_Zopp_IZR. cbn [SF2R].
    rewrite <- Vx, <- Vy. ring. }
  rewrite <- EM in Hv. pose proof (pow2_pos (Z.min ex ey)) as Hp.
  destruct M as [ | m | m]; cbn [binary_normalize].
  - exact I.
  - destruct (binary_round_spec false m (Z.min ex ey)) as (g & n & _ & ->).
    destruct (pack_cases false n g) as [(s' & -> & ->) | [(m0 & e0 & ->) | ->]];
      exact I.
  - exfalso. assert (IZR (Zneg m) < 0) by (apply IZR_lt; lia). nra.
Qed.

(** *** Primitive floats: order *)

Lemma leb_rk (a b : float) :
  (a <=? b)%float = true
  <-> nanf a = false /\ nanf b = false /\ rk a <= rk b.
Proof.
  rewrite leb_spec. unfold SFleb, nanf, rk.
  pose proof (Prim2SF_valid a) as Va. pose proof (Prim2SF_valid b) as Vb.
  destruct (is_nan_sf (Prim2SF a)) eqn:Na.
  { destruct (Prim2SF a); try discriminate. cbn [SFcompare].
    split; [ discriminate | intros [H _]; discriminate ]. }
  destruct (is_nan_sf (Prim2SF b)) eqn:Nb.
  { destruct (Prim2SF b); try discriminate.
    destruct (Prim2SF a); cbn [SFcompare];
      (split; [ discriminate | intros (_ & H & _); discriminate ]). }
  pose proof (SFcompare_rank _ _ Va Vb Na Nb) as H.
  destruct (SFcompare (Prim2SF a) (Prim2SF b)) as [[ | | ] | ]; try contradiction.
  - split; [ intros _; repeat split; lra | reflexivity ].
  - split; [ intros _; repeat split; lra | reflexivity ].
  - split; [ discriminate | intros (_ & _ & Hle); lra ].
Qed.

Lemma ltb_rk (a b : float) :
  (a <? b)%float = true
  <-> nanf a = false /\ nanf b = false /\ rk a < rk b.
Proof.
  rewrite ltb_spec. unfold SFltb, nanf, rk.
  pose proof (Prim2SF_valid a) as Va. pose proof (Prim2SF_valid b) as Vb.
  destruct (is_nan_sf (Prim2SF a)) eqn:Na.
  { destruct (Prim2SF a); try discriminate. cbn [SFcompare].
    split; [ discriminate | intros [H _]; discriminate ]. }
  destruct (is_nan_sf (Prim2SF b)) eqn:Nb.
  { destruct (Prim2SF b); try discriminate.
    destruct (Prim2SF a); cbn [SFcompare];
      (split; [ discriminate | intros (_ & H & _); discriminate ]). }
  pose proof (SFcompare_rank _ _ Va Vb Na Nb) as H.
  destruct (SFcompare (Prim2SF a) (Prim2SF b)) as [[ | | ] | ]; try contradiction.
  - split; [ discriminate | intros (_ & _ & Hlt); lra ].
  - split; [ intros _; repeat split; lra | reflexivity ].
  - split; [ discriminate | intros (_ & _ & Hlt); lra ].
Qed.

Lemma leb_false_gt (a b : float) :
  nanf a = false -> nanf b = false -> (a <=? b)%float = false -> rk b < rk a.
Proof.
  intros Na Nb H. destruct (Rlt_le_dec (rk b) (rk a)) as [Hlt | Hle];
    [ exact Hlt | ].
  assert (T : (a <=? b)%float = true) by (apply leb_rk; auto).
  rewrite T in H. discriminate.
Qed.

Lemma leb_trans (a b c : float) :
  (a <=? b)%float = true -> (b <=? c)%float = true -> (a <=? c)%float = true.
Proof.
  rewrite !leb_rk. intros (Na & Nb & H1) (_ & Nc & H2). repeat split; try assumption; lra.
Qed.

Lemma leb_refl (a : float) : nanf a = false -> (a <=? a)%float = true.
Proof. intros Na. apply leb_rk. repeat split; try assumption; lra. Qed.

Lemma leb_not_above (a b : float) : (a <=? b)%float = true -> not_above a b.
Proof. rewrite leb_rk. intros (_ & _ & H). right; right; exact H. Qed.

Lemma not_above_ltb (a b : float) : not_above a b -> (b <? a)%float = false.
Proof.
  intros H. destruct (b <? a)%float eqn:E; [ | reflexivity ].
  apply ltb_rk in E. destruct E as (Nb & Na & Hlt).
  destruct H as [H | [H | H]]; try congruence. lra.
Qed.

Lemma lbs_rank (x : spec_float) :
  valid_binary x = true ->
  (lbs x <-> is_nan_sf x = false /\ - pow2 1025 < rank x).
Proof.
  intros V. pose proof (rank_finite_bound x V) as Hb.
  pose proof (pow2_pos 1024). pose proof pow2_1025.
  destruct x as [s | [ | ] | | s m e]; cbn [lbs is_nan_sf rank sgn] in *;
    split; try (intros _; split; [ reflexivity | lra ]); try (intros; exact I);
    try (intros [? ?]; try discriminate; lra); try contradiction.
Qed.

Lemma lb_rk (x : float) : lb x <-> nanf x = false /\ - pow2 1025 < rk x.
Proof. apply lbs_rank, Prim2SF_valid. Qed.

Lemma lb_leb (a b : float) : lb a -> (a <=? b)%float = true -> lb b.
Proof.
  rewrite !lb_rk, leb_rk. intros [_ H] (_ & Nb & Hle). split; [ exact Nb | lra ].
Qed.

Lemma Prim2SF_zero : Prim2SF 0 = S754_zero false.
Proof. reflexivity. Qed.

Lemma nn_rk (x : float) :
  (0 <=? x)%float = true <-> nanf x = false /\ 0 <= rk x.
Proof.
  rewrite leb_rk. unfold nanf at 1, rk at 1. rewrite Prim2SF_zero.
  cbn [is_nan_sf rank SF2R]. tauto.
Qed.

Lemma nn_lb (x : float) : (0 <=? x)%float = true -> lb x.
Proof.
  rewrite nn_rk, lb_rk. intros [N H]. split; [ exact N | ].
  pose proof (pow2_pos 1025). lra.
Qed.

(** *** Monotone operations *)

Section Monotone.

Variables (phi : spec_float -> spec_float) (rho : R -> R).
Variable (op : float -> float).
Hypothesis op_spec : forall x, Prim2SF (op x) = phi (Prim2SF x).
Hypothesis Hfin : forall x, valid_binary x = true -> finish x ->
                            rounded (rho (SF2R x)) (phi x).
Hypothesis Hmono : forall u v, u <= v -> rho u <= rho v.
Hypothesis Hp : phi (S754_infinity false) = S754_infinity false.
Hypothesis Hn : phi (S754_infinity true) = S754_infinity true.

Lemma op_le (a a' : float) :
  (a <=? a')%float = true -> (op a <=? op a')%float = true.
Proof.
  rewrite !leb_rk. unfold nanf, rk. rewrite !op_spec.
  intros (Na & Na' & Hle).
  apply (mono_engine phi rho Hfin Hmono Hp Hn); try apply Prim2SF_valid;
    assumption.
Qed.

End Monotone.

Lemma finite_value_nonneg (m : positive) (e : Z) : 0 <= IZR (Zpos m) * pow2 e.
Proof. left. apply finite_value_pos. Qed.

Lemma mul_le (k a a' : float) :
  posfin k -> (a <=? a')%float = true -> (a * k <=? a' * k)%float = true.
Proof.
  intros (m & e & Ek).
  pose proof (Prim2SF_valid k) as Vk. rewrite Ek in Vk.
  apply (op_le (fun x => SFmul prec emax x (S754_finite false m e))
               (fun u => u * SF2R (S754_finite false m e))
               (fun x => (x * k)%float)).
  - intros x. rewrite mul_spec, Ek. reflexivity.
  - intros x Vx Fx. apply SFmul_fin; auto. exact I.
  - intros u v Huv. apply Rmult_le_compat_r; [ | exact Huv ].
    cbn [SF2R sgn]. rewrite Rmult_1_l. apply finite_value_nonneg.
  - reflexivity.
  - reflexivity.
Qed.

Lemma div_le (k a a' : float) :
  posfin k -> (a <=? a')%float = true -> (a / k <=? a' / k)%float = true.
Proof.
  intros (m & e & Ek).
  apply (op_le (fun x => SFdiv prec emax x (S754_finite false m e))
               (fun u => u / SF2R (S754_finite false m e))
               (fun x => (x / k)%float)).
  - intros x. rewrite div_spec, Ek. reflexivity.
  - intros x Vx Fx. apply SFdiv_fin; auto.
  - intros u v Huv. apply Rmult_le_compat_r; [ | exact Huv ].
    cbn [SF2R sgn]. rewrite Rmult_1_l.
    left. apply Rinv_0_lt_compat, finite_value_pos.
  - reflexivity.
  - reflexivity.
Qed.

Lemma sub_le (d a a' : float) :
  finf d -> (a <=? a')%float = true -> (a - d <=? a' - d)%float = true.
Proof.
  intros Fd. pose proof (Prim2SF_valid d) as Vd. unfold finf in Fd.
  apply (op_le (fun x => SFsub prec emax x (Prim2SF d))
               (fun u => u - SF2R (Prim2SF d))
               (fun x => (x - d)%float)).
  - intros x. rewrite sub_spec. reflexivity.
  - intros x Vx Fx. apply SFsub_fin; auto.
  - intros u v Huv. lra.
  - destruct (Prim2SF d); try contradiction; reflexivity.
  - destruct (Prim2SF d); try contradiction; reflexivity.
Qed.

Lemma add_le_l (b a a' : float) :
  finf b -> (a <=? a')%float = true -> (a + b <=? a' + b)%float = true.
Proof.
  intros Fb. pose proof (Prim2SF_valid b) as Vb. unfold finf in Fb.
  apply (op_le (fun x => SFadd prec emax x (Prim2SF b))
               (fun u => u + SF2R (Prim2SF b))
               (fun x => (x + b)%float)).
  - intros x. rewrite add_spec. reflexivity.
  - intros x Vx Fx. apply SFadd_fin; auto.
  - intros u v Huv. lra.
  - destruct (Prim2SF b); try contradiction; reflexivity.
  - destruct (Prim2SF b); try contradiction; reflexivity.
Qed.

Lemma add_le_r (b a a' : float) :
  finf b -> (a <=? a')%float = true -> (b + a <=? b + a')%float = true.
Proof.
  intros Fb. pose proof (Prim2SF_valid b) as Vb. unfold finf in Fb.
  apply (op_le (fun x => SFadd prec emax (Prim2SF b) x)
               (fun u => SF2R (Prim2SF b) + u)
               (fun x => (b + x)%float)).
  - intros x. rewrite add_spec. reflexivity.
  - intros x Vx Fx. apply SFadd_fin; auto.
  - intros u v Huv. lra.
  - destruct (Prim2SF b); try contradiction; reflexivity.
  - destruct (Prim2SF b); try contradiction; reflexivity.
Qed.

Lemma lb_cases (x : float) :
  lb x -> finf x \/ Prim2SF x = S754_infinity false.
Proof.
  unfold lb, finf. destruct (Prim2SF x) as [s | [ | ] | | s m e]; cbn;
    try contradiction; auto.
Qed.

Lemma add_inf_r (a b : float) :
  lb a -> Prim2SF b = S754_infinity false ->
  Prim2SF (a + b) = S754_infinity false.
Proof.
  unfold lb. intros La Eb. rewrite add_spec, Eb.
  destruct (Prim2SF a) as [s | [ | ] | | s m e]; try contradiction; reflexivity.
Qed.

Lemma add_inf_l (a b : float) :
  lb a -> Prim2SF b = S754_infinity false ->
  Prim2SF (b + a) = S754_infinity false.
Proof.
  unfold lb. intros La Eb. rewrite add_spec, Eb.
  destruct (Prim2SF a) as [s | [ | ] | | s m e]; try contradiction; reflexivity.
Qed.

Lemma same_leb (a b : float) :
  Prim2SF a = S754_infinity false -> Prim2SF b = S754_infinity false ->
  (a <=? b)%float = true.
Proof.
  intros Ea Eb. rewrite leb_spec, Ea, Eb. reflexivity.
Qed.

(** Addition is monotone in both arguments as long as no operand is NaN
    or minus infinity. *)
Lemma add_le (a a' b b' : float) :
  lb a -> lb b ->
  (a <=? a')%float = true -> (b <=? b')%float = true ->
  (a + b <=? a' + b')%float = true.
Proof.
  intros La Lb Ha Hb.
  pose proof (lb_leb _ _ La Ha) as La'. pose proof (lb_leb _ _ Lb Hb) as Lb'.
  apply leb_trans with (a' + b)%float.
  - destruct (lb_cases b Lb) as [Fb | Eb].
    + apply add_le_l; assumption.
    + apply same_leb; apply add_inf_r; assumption.
  - destruct (lb_cases a' La') as [Fa | Ea].
    + apply add_le_r; assumption.
    + apply same_leb; apply add_inf_l; assumption.
Qed.

Lemma add_nn (a b : float) :
  (0 <=? a)%float = true -> (0 <=? b)%float = true ->
  (0 <=? a + b)%float = true.
Proof.
  intros Ha Hb.
  apply (leb_trans _ (0 + 0)%float); [ reflexivity | ].
  apply add_le; try assumption; apply nn_lb; reflexivity.
Qed.

(** *** Operands with a clear sign bit *)

Lemma unsigned_mul (a b : float) :
  unsigned a -> unsigned b -> unsigned (a * b).
Proof.
  unfold unsigned. rewrite mul_spec. unfold SF64mul.
  pose proof (Prim2SF_valid a) as Va. pose proof (Prim2SF_valid b) as Vb.
  destruct (Prim2SF a) as [[ | ] | [ | ] | | [ | ] ma ea]; try contradiction;
    destruct (Prim2SF b) as [[ | ] | [ | ] | | [ | ] mb eb]; try contradiction;
    intros _ _; try exact I.
  apply (rounded_nonneg_unsigned _ _ (mul_finite _ _ _ _ _ _ Va Vb)).
  cbn [SF2R sgn]. rewrite !Rmult_1_l.
  apply Rmult_lt_0_compat; apply finite_value_pos.
Qed.

Lemma unsigned_div (a b : float) :
  unsigned a -> unsigned b -> unsigned (a / b).
Proof.
  unfold unsigned. rewrite div_spec. unfold SF64div.
  destruct (Prim2SF a) as [[ | ] | [ | ] | | [ | ] ma ea]; try contradiction;
    destruct (Prim2SF b) as [[ | ] | [ | ] | | [ | ] mb eb]; try contradiction;
    intros _ _; try exact I.
  apply (rounded_nonneg_unsigned _ _ (div_finite _ _ _ _ _ _)).
  cbn [SF2R sgn]. rewrite !Rmult_1_l.
  apply Rdiv_lt_0_compat; apply finite_value_pos.
Qed.

Lemma posfin_unsigned (k : float) : posfin k -> unsigned k.
Proof. intros (m & e & E). unfold unsigned. rewrite E. exact I. Qed.

(** [k - q] for [q] between 0 and the positive number [k]. *)
Lemma sub_unsigned (k q : float) :
  posfin k -> lb q -> (q <=? k)%float = true -> unsigned (k - q).
Proof.
  intros (m & e & Ek) Lq Hle. apply leb_rk in Hle.
  destruct Hle as (Nq & _ & Hle). unfold rk in Hle. rewrite Ek in Hle.
  pose proof (Prim2SF_valid k) as Vk. rewrite Ek in Vk.
  pose proof (rank_finite_bound _ Vk) as Bk.
  pose proof (Prim2SF_valid q) as Vq. pose proof (pow2_pos 1024) as P24.
  pose proof pow2_1025 as E25.
  unfold unsigned, lb, nanf in *. rewrite sub_spec, Ek. unfold SF64sub.
  destruct (Prim2SF q) as [sq | [ | ] | | sq mq eq]; try contradiction.
  - exact I.
  - exfalso. cbn [rank sgn] in *. lra.
  - apply sub_finite_unsigned. cbn [rank] in Hle. lra.
Qed.

(** *** Division by an operand with a clear sign bit *)

Lemma rank_sign (s : bool) (m : positive) (e : Z) :
  (s = true -> rank (S754_finite s m e) < 0)
  /\ (s = false -> 0 < rank (S754_finite s m e)).
Proof.
  pose proof (finite_value_pos m e). cbn [rank SF2R].
  split; intros ->; cbn [sgn]; lra.
Qed.

Lemma div_not_above (k a a' : float) :
  unsigned k -> not_above a a' -> not_above (a / k) (a' / k).
Proof.
  intros Uk H. unfold not_above, nanf, rk, unsigned in *.
  rewrite !div_spec. unfold SF64div.
  pose proof (Prim2SF_valid a) as Va. pose proof (Prim2SF_valid a') as Va'.
  pose proof (pow2_pos 1025) as P25.
  destruct (is_nan_sf (Prim2SF a)) eqn:Na.
  { left. destruct (Prim2SF a); try discriminate. reflexivity. }
  destruct (is_nan_sf (Prim2SF a')) eqn:Na'.
  { right; left. destruct (Prim2SF a'); try discriminate. reflexivity. }
  destruct H as [H | [H | Hle]]; try discriminate.
  destruct (Prim2SF k) as [[ | ] | [ | ] | | [ | ] mk ek] eqn:Ek;
    try contradiction.
  - (* k = +0 *)
    destruct (Prim2SF a) as [sa | sa | | sa ma ea]; try discriminate;
      try (left; reflexivity);
      destruct (Prim2SF a') as [sa' | sa' | | sa' ma' ea']; try discriminate;
      try (right; left; reflexivity); right; right;
      cbn [SFdiv xorb rank]; rewrite !xorb_false_r.
    + destruct sa, sa'; cbn [rank sgn] in *; lra.
    + pose proof (rank_sign sa' ma' ea') as [Hn Hp].
      destruct sa, sa'; cbn [rank sgn] in *; try lra.
      all: try (specialize (Hn eq_refl); lra).
    + pose proof (rank_sign sa ma ea) as [Hn Hp].
      destruct sa, sa'; cbn [rank sgn] in *; try lra.
      all: try (specialize (Hp eq_refl); lra).
    + pose proof (rank_sign sa ma ea) as [Hn Hp].
      pose proof (rank_sign sa' ma' ea') as [Hn' Hp'].
      destruct sa, sa'; cbn [rank sgn] in *; try lra.
      all: try (specialize (Hp eq_refl); specialize (Hn' eq_refl); lra).
  - (* k = +infinity *)
    destruct (Prim2SF a) as [sa | sa | | sa ma ea]; try discriminate;
      try (left; reflexivity);
      destruct (Prim2SF a') as [sa' | sa' | | sa' ma' ea']; try discriminate;
      try (right; left; reflexivity); right; right;
      cbn [SFdiv rank SF2R]; lra.
  - (* k = NaN *)
    left. destruct (Prim2SF a); reflexivity.
  - (* k finite and positive *)
    right; right.
    apply (mono_engine (fun x => SFdiv prec emax x (S754_finite false mk ek))
                       (fun u => u / SF2R (S754_finite false mk ek)));
      try assumption.
    + intros x Vx Fx. apply SFdiv_fin; auto.
    + intros u v Huv. apply Rmult_le_compat_r; [ | exact Huv ].
      cbn [SF2R sgn]. rewrite Rmult_1_l.
      left. apply Rinv_0_lt_compat, finite_value_pos.
    + reflexivity.
    + reflexivity.
Qed.

(** *** Normal numbers and the error of one rounding *)

Lemma is_normal_sf (x : float) :
  is_normal x = true ->
  exists s m e, Prim2SF x = S754_finite s m e
                /\ normal_sf (S754_finite s m e).
Proof.
  unfold is_normal. rewrite classify_spec. unfold SF64classify, SFclassify.
  pose proof (Prim2SF_valid x) as V.
  destruct (Prim2SF x) as [[ | ] | [ | ] | | s m e]; try discriminate.
  intros H. exists s, m, e. split; [ reflexivity | ].
  assert (Hd : Zpos (digits2_pos m) = 53%Z).
  { destruct s; destruct (Z.eqb_spec (Zpos (digits2_pos m)) prec) as [E | _];
      try discriminate; exact E. }
  destruct (valid_finite_bounds _ _ _ V) as (He & _ & _ & _).
  destruct (digits2_pos_bounds_R m) as [Lo _]. rewrite Hd in Lo.
  change (53 - 1)%Z with 52%Z in Lo.
  cbn [normal_sf].
  assert (E : pow2 (-1022) = pow2 52 * pow2 (-1074))
    by (rewrite <- pow2_add; reflexivity).
  pose proof (pow2_le (-1074) e ltac:(lia)) as Hle.
  pose proof (pow2_pos (-1074)). pose proof (pow2_pos 52).
  rewrite E. apply Rmult_le_compat; lra.
Qed.

Lemma pow2_m53_small : pow2 (-53) <= / 10000000.
Proof.
  assert (E : pow2 (-53) * pow2 53 = 1) by (rewrite <- pow2_add; reflexivity).
  rewrite <- (pow2_IZR 53) in E by lia.
  change (2 ^ 53)%Z with 9007199254740992%Z in E.
  lra.
Qed.

Lemma back_and_forth (M W H P : R) :
  W <> 0 ->
  Rabs (H - M / W) <= pow2 (-53) * Rabs H ->
  Rabs (P - H * W) <= pow2 (-53) * Rabs P ->
  Rabs (P - M) <= / 1000000 * Rabs M.
Proof.
  intros HW E1 E2. pose proof pow2_m53_small as Hu.
  pose proof (pow2_pos (-53)) as Hu0.
  assert (E1' : Rabs (H * W - M) <= pow2 (-53) * Rabs (H * W)).
  { replace (H * W - M) with ((H - M / W) * W) by (field; exact HW).
    rewrite !Rabs_mult. rewrite <- Rmult_assoc.
    apply Rmult_le_compat_r; [ apply Rabs_pos | exact E1 ]. }
  set (a := H * W) in *.
  pose proof (Rabs_pos a) as Pa. pose proof (Rabs_pos M) as PM.
  pose proof (Rabs_pos P) as PP.
  assert (T1 : Rabs (P - M) <= Rabs (P - a) + Rabs (a - M)).
  { replace (P - M) with ((P - a) + (a - M)) by ring. apply Rabs_triang. }
  assert (T2 : Rabs a <= Rabs M + Rabs (a - M)).
  { replace a with (M + (a - M)) at 1 by ring. apply Rabs_triang. }
  assert (T3 : Rabs P <= Rabs a + Rabs (P - a)).
  { replace P with (a + (P - a)) at 1 by ring. apply Rabs_triang. }
  assert (B1 : Rabs (a - M) <= / 10000000 * Rabs a).
  { apply Rle_trans with (1 := E1'). apply Rmult_le_compat_r; assumption. }
  assert (B2 : Rabs (P - a) <= / 10000000 * Rabs P).
  { apply Rle_trans with (1 := E2). apply Rmult_le_compat_r; assumption. }
  lra.
Qed.

(** [(m / w) * w] is [m] up to two roundings when neither result leaves
    the normal range. *)
Lemma div_mul_back (m w : float) :
  is_normal (m / w) = true -> is_normal (m / w * w) = true ->
  Rabs (B2R (m / w * w) - B2R m) <= / 1000000 * Rabs (B2R m).
Proof.
  intros N1 N2.
  destruct (is_normal_sf _ N1) as (s1 & m1 & e1 & E1 & Hn1).
  destruct (is_normal_sf _ N2) as (s2 & m2 & e2 & E2 & Hn2).
  pose proof (Prim2SF_valid (m / w)) as V1. rewrite E1 in V1.
  pose proof (Prim2SF_valid w) as Vw.
  pose proof E1 as D1. rewrite div_spec in D1. unfold SF64div in D1.
  pose proof E2 as D2. rewrite mul_spec, E1 in D2. unfold SF64mul in D2.
  unfold B2R. rewrite E2.
  destruct (Prim2SF m) as [sm | sm | | sm mm em] eqn:Em;
    destruct (Prim2SF w) as [sw | sw | | sw mw ew] eqn:Ew;
    try discriminate D1.
  pose proof (div_finite sm sw mm mw em ew) as R1. rewrite D1 in R1.
  pose proof (mul_finite s1 sw m1 mw e1 ew V1 Vw) as R2. rewrite D2 in R2.
  pose proof (rounded_error _ _ R1 Hn1) as B1.
  pose proof (rounded_error _ _ R2 Hn2) as B2.
  apply (back_and_forth _ (SF2R (S754_finite sw mw ew))
           (SF2R (S754_finite s1 m1 e1))); try assumption.
  pose proof (finite_value_pos mw ew). cbn [SF2R]. destruct sw; cbn [sgn]; lra.
Qed.

(** *** [Math.round] on whole numbers *)

Lemma grid_unique (v : R) (g g' : Z) : grid v g -> grid v g' -> g = g'.
Proof.
  intros [[-> H] | [Hg H]] [[-> H'] | [Hg' H']]; try reflexivity.
  - pose proof (pow2_le (-1021) (g' + 52) ltac:(lia)). lra.
  - pose proof (pow2_le (-1021) (g + 52) ltac:(lia)). lra.
  - assert (A : (g + 52 < g' + 53)%Z) by (apply pow2_lt_inv; lra).
    assert (B : (g' + 52 < g + 53)%Z) by (apply pow2_lt_inv; lra).
    lia.
Qed.

Lemma rounds_unique (v : R) (n n' g g' : Z) :
  rounds v n g -> rounds v n' g' -> g = g' /\ n = n'.
Proof.
  intros (G & N & _) (G' & N' & _).
  pose proof (grid_unique _ _ _ G G') as <-. split; [ reflexivity | ].
  pose proof (nearest_even_mono _ _ _ _ (Rle_refl _) N N').
  pose proof (nearest_even_mono _ _ _ _ (Rle_refl _) N' N).
  lia.
Qed.

Lemma rounded_unique (v : R) (r r' : spec_float) :
  v <> 0 -> rounded v r -> rounded v r' -> r = r'.
Proof.
  intros Hv [[E _] | [[P (g & n & Hr & ->)] | [P (g & n & Hr & ->)]]]
         [[E' _] | [[P' (g' & n' & Hr' & ->)] | [P' (g' & n' & Hr' & ->)]]];
    try lra.
  - destruct (rounds_unique _ _ _ _ _ Hr Hr') as [<- <-]. reflexivity.
  - destruct (rounds_unique _ _ _ _ _ Hr Hr') as [<- <-]. reflexivity.
Qed.

(** The float of a positive integer below 2^53 that a float represents is
    that float. *)
Lemma of_uint63_exact (m : positive) (e k : Z) :
  valid_binary (S754_finite false m e) = true ->
  (0 < k < 2 ^ 53)%Z -> IZR k = IZR (Zpos m) * pow2 e ->
  Prim2SF (of_uint63 (Uint63.of_Z k)) = S754_finite false m e.
Proof.
  intros V Hk Ek.
  rewrite of_uint63_spec, Uint63.of_Z_spec.
  rewrite Z.mod_small
    by (split; [ lia | apply Z.lt_trans with (2 ^ 53)%Z; [ lia | reflexivity ] ]).
  apply (rounded_unique (IZR k)).
  - apply Rgt_not_eq. apply IZR_lt. lia.
  - replace (IZR k) with (IZR k * pow2 0) at 1 by (rewrite pow2_0; ring).
    apply binary_normalize_spec.
  - rewrite Ek.
    replace (IZR (Zpos m) * pow2 e) with (SF2R (S754_finite false m e))
      by (cbn [SF2R sgn]; ring).
    apply rounded_self. exact V.
Qed.

Lemma round_integer (x : float) :
  Binary64.is_integer x = true -> Binary64.round x = x.
Proof.
  unfold Binary64.is_integer, Binary64.round.
  pose proof (Prim2SF_valid x) as V.
  destruct (Prim2SF x) as [s | s | | s m e] eqn:Ex; try reflexivity.
  destruct (Z.leb_spec 0 e) as [He | He]; [ reflexivity | ].
  cbn [orb]. intros Hmod. apply Z.eqb_eq in Hmod.
  assert (P2 : (0 < 2 ^ (- e))%Z) by (apply Z.pow_pos_nonneg; lia).
  apply Z.mod_divide in Hmod; [ | lia ]. destruct Hmod as [k Hk].
  assert (Hkpos : (0 < k)%Z) by nia.
  destruct (valid_finite_bounds _ _ _ V) as (_ & Hm53 & _ & _).
  assert (Hm53' : (Zpos m < 2 ^ 53)%Z)
    by (apply lt_IZR; rewrite pow2_IZR by lia; exact Hm53).
  assert (Hk53 : (k < 2 ^ 53)%Z) by nia.
  assert (E12 : (2 ^ (1 - e) = 2 * 2 ^ (- e))%Z).
  { replace (1 - e)%Z with (Z.succ (- e)) by lia. apply Z.pow_succ_r. lia. }
  assert (EkR : IZR k = IZR (Zpos m) * pow2 e).
  { rewrite Hk, mult_IZR, pow2_IZR by lia. rewrite Rmult_assoc, <- pow2_add.
    replace (- e + e)%Z with 0%Z by lia. rewrite pow2_0. ring. }
  assert (Vf : valid_binary (S754_finite false m e) = true) by exact V.
  pose proof (of_uint63_exact m e k Vf (conj Hkpos Hk53) EkR) as Hof.
  destruct s.
  - assert (En : ((2 * Z.neg m + 2 ^ (- e)) / 2 ^ (1 - e) = - k)%Z).
    { rewrite E12. symmetry. apply (Z.div_unique_pos _ _ _ (2 ^ (- e))%Z); lia. }
    rewrite En. destruct (Z.eqb_spec (- k) 0) as [E0 | _]; [ lia | ].
    unfold Binary64.of_Z. destruct (Z.ltb_spec (- k) 0) as [_ | Hge]; [ | lia ].
    replace (- - k)%Z with k by lia. apply Prim2SF_inj.
    rewrite opp_spec, Hof, Ex. reflexivity.
  - assert (En : ((2 * Z.pos m + 2 ^ (- e)) / 2 ^ (1 - e) = k)%Z).
    { rewrite E12. symmetry. apply (Z.div_unique_pos _ _ _ (2 ^ (- e))%Z); lia. }
    rewrite En. destruct (Z.eqb_spec k 0) as [E0 | _]; [ lia | ].
    unfold Binary64.of_Z. destruct (Z.ltb_spec k 0) as [Hlt | _]; [ lia | ].
    apply Prim2SF_inj. rewrite Hof, Ex. reflexivity.
Qed.

(** *** Finite operands: from real inequalities to float comparisons *)

Lemma rounded_own_value (x : spec_float) :
  valid_binary x = true -> finish x -> rounded (SF2R x) x.
Proof.
  intros V F. destruct x as [s | s | | s m e]; try contradiction.
  - left. split; [ reflexivity | eauto ].
  - apply rounded_self. exact V.
Qed.

Lemma bounded_finf (k q : float) :
  finf k -> (0 <=? q)%float = true -> (q <=? k)%float = true -> finf q.
Proof.
  intros Fk H0 Hk. apply nn_rk in H0. destruct H0 as [Nq H0].
  apply leb_rk in Hk. destruct Hk as (_ & _ & Hk).
  pose proof (rank_finish _ (Prim2SF_valid k) Fk) as [_ Bk].
  pose proof (pow2_pos 1024) as P24. pose proof pow2_1025 as E25.
  unfold finf, nanf, rk in *.
  destruct (Prim2SF q) as [s | [ | ] | | s m e]; try discriminate;
    try exact I; cbn [rank sgn] in *; lra.
Qed.

Lemma finf_rk (x : float) : finf x -> nanf x = false /\ rk x = B2R x.
Proof.
  intros F. pose proof (rank_finish _ (Prim2SF_valid x) F) as [E _].
  unfold finf, nanf, rk, B2R in *. split; [ | exact E ].
  destruct (Prim2SF x); try contradiction; reflexivity.
Qed.

Lemma add_le_real (a b a' b' : float) :
  finf a -> finf b -> finf a' -> finf b' ->
  B2R a + B2R b <= B2R a' + B2R b' ->
  (a + b <=? a' + b')%float = true.
Proof.
  intros Fa Fb Fa' Fb' Hv. unfold B2R in Hv.
  pose proof (SFadd_fin _ _ (Prim2SF_valid a) (Prim2SF_valid b) Fa Fb) as R1.
  pose proof (SFadd_fin _ _ (Prim2SF_valid a') (Prim2SF_valid b') Fa' Fb') as R2.
  apply leb_rk. unfold nanf, rk. rewrite !add_spec. unfold SF64add.
  split; [ apply (rounded_nonnan _ _ R1) | ].
  split; [ apply (rounded_nonnan _ _ R2) | ].
  apply (rounded_rank_mono _ _ _ _ Hv R1 R2).
Qed.

(** If the difference computed in floats reaches [c], the real
    difference reaches every float below [c]. *)
Lemma difference_lower_bound (x1 x2 d c : float) :
  finf x1 -> finf x2 -> finf d ->
  (d <? c)%float = true -> (c <=? x2 - x1)%float = true ->
  B2R d <= B2R x2 - B2R x1.
Proof.
  intros F1 F2 Fd Hdc Hc.
  destruct (Rle_lt_dec (B2R d) (B2R x2 - B2R x1)) as [Hle | Hlt];
    [ exact Hle | exfalso ].
  pose proof (SFsub_fin _ _ (Prim2SF_valid x2) (Prim2SF_valid x1) F2 F1) as R1.
  pose proof (rounded_own_value _ (Prim2SF_valid d) Fd) as R2.
  assert (Hv : SF2R (Prim2SF x2) - SF2R (Prim2SF x1) <= SF2R (Prim2SF d))
    by (unfold B2R in Hlt; lra).
  pose proof (rounded_rank_mono _ _ _ _ Hv R1 R2) as Hr.
  apply ltb_rk in Hdc. destruct Hdc as (_ & _ & Hdc).
  apply leb_rk in Hc. destruct Hc as (_ & _ & Hc).
  unfold rk in *. rewrite sub_spec in Hc. unfold SF64sub in Hc. lra.
Qed.

(** *** The relative tolerance as a test on floats *)

Lemma rounded_abs (v : R) (r : spec_float) :
  rounded v r -> rounded (Rabs v) (SFabs r).
Proof.
  intros [[-> [s ->]] | [[P (g & n & Hr & ->)] | [P (g & n & Hr & ->)]]].
  - left. split; [ apply Rabs_R0 | exists false; reflexivity ].
  - right; left. rewrite Rabs_pos_eq by lra. split; [ exact P | ].
    exists g, n. split; [ exact Hr | ].
    destruct (pack_cases false n g) as [(s' & E & ->) | [(m & e & E) | E]];
      rewrite E; reflexivity.
  - right; left. rewrite Rabs_left by exact P. split; [ lra | ].
    exists g, n. split; [ exact Hr | ].
    unfold pack. destruct (n =? 0)%Z; [ reflexivity | ].
    destruct (n =? 2 ^ 53)%Z.
    + destruct (g + 1 <=? 971)%Z; reflexivity.
    + destruct (g <=? 971)%Z; reflexivity.
Qed.

Lemma pow2_m53_tiny : pow2 (-53) <= / 1000000000.
Proof.
  assert (E : pow2 (-53) * pow2 53 = 1) by (rewrite <- pow2_add; reflexivity).
  rewrite <- (pow2_IZR 53) in E by lia.
  change (2 ^ 53)%Z with 9007199254740992%Z in E.
  lra.
Qed.

Lemma back_and_forth_tight (M W H P : R) :
  W <> 0 ->
  Rabs (H - M / W) <= pow2 (-53) * Rabs H ->
  Rabs (P - H * W) <= pow2 (-53) * Rabs P ->
  Rabs (P - M) <= / 4000000 * Rabs M.
Proof.
  intros HW E1 E2. pose proof pow2_m53_tiny as Hu.
  pose proof (pow2_pos (-53)) as Hu0.
  assert (E1' : Rabs (H * W - M) <= pow2 (-53) * Rabs (H * W)).
  { replace (H * W - M) with ((H - M / W) * W) by (field; exact HW).
    rewrite !Rabs_mult. rewrite <- Rmult_assoc.
    apply Rmult_le_compat_r; [ apply Rabs_pos | exact E1 ]. }
  set (a := H * W) in *.
  pose proof (Rabs_pos a) as Pa. pose proof (Rabs_pos M) as PM.
  pose proof (Rabs_pos P) as PP.
  assert (T1 : Rabs (P - M) <= Rabs (P - a) + Rabs (a - M)).
  { replace (P - M) with ((P - a) + (a - M)) by ring. apply Rabs_triang. }
  assert (T2 : Rabs a <= Rabs M + Rabs (a - M)).
  { replace a with (M + (a - M)) at 1 by ring. apply Rabs_triang. }
  assert (T3 : Rabs P <= Rabs a + Rabs (P - a)).
  { replace P with (a + (P - a)) at 1 by ring. apply Rabs_triang. }
  assert (B1 : Rabs (a - M) <= / 1000000000 * Rabs a).
  { apply Rle_trans with (1 := E1'). apply Rmult_le_compat_r; assumption. }
  assert (B2 : Rabs (P - a) <= / 1000000000 * Rabs P).
  { apply Rle_trans with (1 := E2). apply Rmult_le_compat_r; assumption. }
  lra.
Qed.

(** The double [1e-6] is at least a quarter of a millionth. *)
Lemma millionth_value : / 4000000 <= B2R 1e-6.
Proof.
  unfold B2R.
  let v := eval vm_compute in (Prim2SF 1e-6) in
  change (Prim2SF 1e-6) with v.
  cbn [SF2R sgn].
  match goal with
  | |- _ <= 1 * (_ * pow2 ?e) =>
      assert (E : pow2 e * pow2 (- e) = 1)
        by (rewrite <- pow2_add; reflexivity);
      rewrite <- (pow2_IZR (- e)) in E by lia
  end.
  match type of E with
  | context [IZR ?z] =>
      let v := eval vm_compute in z in change z with v in E
  end.
  lra.
Qed.

(** [(m / w) * w] passes the test [|p - m| <= 1e-6 * |m|] computed in
    floats, when neither result leaves the normal range. *)
Lemma div_mul_back_test (m w : float) :
  is_normal (m / w) = true -> is_normal (m / w * w) = true ->
  (abs (m / w * w - m) <=? 1e-6 * abs m)%float = true.
Proof.
  intros N1 N2.
  destruct (is_normal_sf _ N1) as (s1 & m1 & e1 & E1 & Hn1).
  destruct (is_normal_sf _ N2) as (s2 & m2 & e2 & E2 & Hn2).
  pose proof (Prim2SF_valid (m / w)) as V1. rewrite E1 in V1.
  pose proof (Prim2SF_valid (m / w * w)) as V2. rewrite E2 in V2.
  pose proof (Prim2SF_valid w) as Vw. pose proof (Prim2SF_valid m) as Vm.
  pose proof E1 as D1. rewrite div_spec in D1. unfold SF64div in D1.
  pose proof E2 as D2. rewrite mul_spec, E1 in D2. unfold SF64mul in D2.
  destruct (Prim2SF m) as [sm | sm | | sm mm em] eqn:Em;
    destruct (Prim2SF w) as [sw | sw | | sw mw ew] eqn:Ew;
    try discriminate D1.
  pose proof (div_finite sm sw mm mw em ew) as R1. rewrite D1 in R1.
  pose proof (mul_finite s1 sw m1 mw e1 ew V1 Vw) as R2. rewrite D2 in R2.
  pose proof (rounded_error _ _ R1 Hn1) as B1.
  pose proof (rounded_error _ _ R2 Hn2) as B2.
  assert (HW : SF2R (S754_finite sw mw ew) <> 0).
  { pose proof (finite_value_pos mw ew). cbn [SF2R].
    destruct sw; cbn [sgn]; lra. }
  pose proof (back_and_forth_tight _ _ _ _ HW B1 B2) as Hreal.
  (* the two sides of the test *)
  pose proof (SFsub_fin (S754_finite s2 m2 e2) (S754_finite sm mm em)
                V2 Vm I I) as Rd.
  apply rounded_abs in Rd.
  assert (Vabs : valid_binary (S754_finite false mm em) = true) by exact Vm.
  pose proof (Prim2SF_valid 1e-6) as Vc.
  assert (Fc : finish (Prim2SF 1e-6)) by (vm_compute; exact I).
  pose proof (SFmul_fin _ _ Vc Vabs Fc I) as Rt.
  apply leb_rk. unfold nanf, rk.
  rewrite abs_spec, sub_spec, E2, Em, mul_spec, abs_spec, Em.
  unfold SF64sub, SF64mul. cbn [SFabs] in *.
  split; [ apply (rounded_nonnan _ _ Rd) | ].
  split; [ apply (rounded_nonnan _ _ Rt) | ].
  assert (Eabs : SF2R (S754_finite false mm em)
                 = Rabs (SF2R (S754_finite sm mm em))).
  { pose proof (finite_value_pos mm em) as Hp. cbn [SF2R].
    destruct sm; cbn [sgn].
    - rewrite Rabs_left by lra. ring.
    - rewrite Rabs_pos_eq by lra. reflexivity. }
  assert (Hv : Rabs (SF2R (S754_finite s2 m2 e2) - SF2R (S754_finite sm mm em))
               <= SF2R (Prim2SF 1e-6) * SF2R (S754_finite false mm em)).
  { pose proof millionth_value as Hc. unfold B2R in Hc. rewrite Eabs.
    apply Rle_trans with (1 := Hreal).
    apply Rmult_le_compat_r; [ apply Rabs_pos | exact Hc ]. }
  apply (rounded_rank_mono _ _ _ _ Hv Rd Rt).
Qed.
End RoundingFacts.

(** ** The calculator on binary64: order and tolerance *)

Module Binary64Laws.

Import Rounding.
Import RoundingFacts.
Local Open Scope string_scope.
Local Open Scope float_scope.

(** *** The progressive IR and the monthly tax *)

Lemma posfinb_posfin (k : float) : posfinb k = true -> posfin k.
Proof.
  unfold posfinb, posfin.
  destruct (Prim2SF k) as [s | s | | [ | ] m e]; try discriminate. eauto.
Qed.

Lemma finfb_finf (k : float) : finfb k = true -> finf k.
Proof.
  unfold finfb, finf.
  destruct (Prim2SF k) as [s | s | | s m e]; try discriminate; intros _; exact I.
Qed.

Ltac const_side :=
  first [ apply posfinb_posfin; vm_compute; reflexivity
        | apply finfb_finf; vm_compute; reflexivity ].

Lemma leb_nonnan (a b : float) :
  (a <=? b) = true -> nanf a = false /\ nanf b = false.
Proof. rewrite leb_rk. tauto. Qed.

Lemma leb_false_leb (x b : float) :
  nanf x = false -> nanf b = false -> (x <=? b) = false -> (b <=? x) = true.
Proof.
  intros Nx Nb H. apply leb_rk. repeat split; try assumption.
  left. apply leb_false_gt; assumption.
Qed.

(** [income * rate - deduction] and the tax built on it grow with the
    income. *)
Lemma bracket_formula_le (rate deduction base x x' : float) :
  posfinb rate = true -> finfb deduction = true -> finfb base = true ->
  (x <=? x') = true ->
  (base + (x * rate - deduction) <=? base + (x' * rate - deduction)) = true.
Proof.
  intros Hr Hd Hb Hx.
  apply add_le_r; [ apply finfb_finf; exact Hb | ].
  apply sub_le; [ apply finfb_finf; exact Hd | ].
  apply mul_le; [ apply posfinb_posfin; exact Hr | exact Hx ].
Qed.

Lemma autonomo_unfold (x : float) :
  calculateMonthlyTaxes x "AUTONOMO"
  = 303.6 + (if x <=? 2259.2 then 0
             else if x <=? 2828.65 then x * 0.075 - 169.44
             else if x <=? 3751.05 then x * 0.15 - 381.44
             else if x <=? 4664.68 then x * 0.225 - 662.77
             else x * 0.275 - 896).
Proof. reflexivity. Qed.

Ltac bracket_contradiction :=
  match goal with
  | A : (?x1 <=? ?bk) = false, B : (?x2 <=? ?bj) = true,
    H : (?x1 <=? ?x2) = true |- _ =>
      assert ((x1 <=? bk) = true)
        by (apply leb_trans with x2;
            [ exact H
            | apply leb_trans with bj; [ exact B | vm_compute; reflexivity ] ]);
      congruence
  end.

Ltac formula_le :=
  apply bracket_formula_le; [ reflexivity | reflexivity | reflexivity | ].

Ltac from_below x2 :=
  match goal with
  | B : (x2 <=? ?b) = false |- (?base + (?b' * ?r - ?d) <=? _) = true =>
      unify b b'; formula_le; apply leb_false_leb;
      [ assumption | vm_compute; reflexivity | exact B ]
  end.

Ltac bracket_chain x1 x2 :=
  match goal with
  | |- (?base + 0 <=? ?base + 0) = true => reflexivity
  | H : (x1 <=? x2) = true
    |- (?base + (x1 * ?r - ?d) <=? ?base + (x2 * ?r - ?d)) = true =>
      formula_le; exact H
  | B : (x2 <=? ?b) = false
    |- (?base + 0 <=? ?base + (x2 * ?r - ?d)) = true =>
      apply leb_trans with (base + (b * r - d));
      [ vm_compute; reflexivity | from_below x2 ]
  | A : (x1 <=? ?bi) = true, B : (x2 <=? ?b) = false
    |- (?base + (x1 * ?r1 - ?d1) <=? ?base + (x2 * ?r2 - ?d2)) = true =>
      apply leb_trans with (base + (bi * r1 - d1));
      [ formula_le; exact A
      | apply leb_trans with (base + (b * r2 - d2));
        [ vm_compute; reflexivity | from_below x2 ] ]
  end.

(** The AUTONOMO tax never falls when the income rises, except across
    the bound 3751.05 between incomes less than a cent from it. *)
Lemma autonomo_taxes_le (x1 x2 : float) :
  (x1 <=? x2) = true ->
  (x1 <=? 3751.04) = true \/ (3751.06 <=? x2) = true
  \/ (x1 <=? 3751.05) = false \/ (x2 <=? 3751.05) = true ->
  (calculateMonthlyTaxes x1 "AUTONOMO" <=? calculateMonthlyTaxes x2 "AUTONOMO")
  = true.
Proof.
  intros Hle Hside. rewrite !autonomo_unfold.
  destruct (leb_nonnan _ _ Hle) as [N1 N2].
  destruct (x1 <=? 2259.2) eqn:A1;
    [ | destruct (x1 <=? 2828.65) eqn:A2;
        [ | destruct (x1 <=? 3751.05) eqn:A3;
            [ | destruct (x1 <=? 4664.68) eqn:A4 ] ] ];
    (destruct (x2 <=? 2259.2) eqn:B1;
     [ | destruct (x2 <=? 2828.65) eqn:B2;
         [ | destruct (x2 <=? 3751.05) eqn:B3;
             [ | destruct (x2 <=? 4664.68) eqn:B4 ] ] ]);
    try bracket_contradiction;
    try (bracket_chain x1 x2).
  (* x1 in (2828.65, 3751.05], x2 in (3751.05, 4664.68] *)
  destruct Hside as [Hlo | [Hhi | [C | C]]]; try congruence.
  - apply leb_trans with (303.6 + (3751.04 * 0.15 - 381.44)).
    + formula_le. exact Hlo.
    + apply leb_trans with (303.6 + (3751.05 * 0.225 - 662.77));
        [ vm_compute; reflexivity | from_below x2 ].
  - apply leb_trans with (303.6 + (3751.05 * 0.15 - 381.44)).
    + formula_le. exact A3.
    + apply leb_trans with (303.6 + (3751.06 * 0.225 - 662.77));
        [ vm_compute; reflexivity | formula_le; exact Hhi ].
Qed.

Ltac float_ops :=
  cbv [num_add num_sub num_mul num_div num_le num_lt num_round
       Binary64.number] in *.

Lemma taxes_le (r : string) (x1 x2 : float) :
  (x1 <=? x2) = true ->
  (String.eqb r "AUTONOMO" = true ->
   (x1 <=? 3751.04) = true \/ (3751.06 <=? x2) = true
   \/ (x1 <=? 3751.05) = false \/ (x2 <=? 3751.05) = true) ->
  (calculateMonthlyTaxes x1 r <=? calculateMonthlyTaxes x2 r) = true.
Proof.
  intros Hle Hside. unfold calculateMonthlyTaxes.
  destruct (String.eqb r "MEI"); [ reflexivity | ].
  destruct (String.eqb r "PJ_SIMPLES");
    [ apply mul_le; [ const_side | exact Hle ] | ].
  destruct (String.eqb r "PJ_PRESUMIDO");
    [ apply mul_le; [ const_side | exact Hle ] | ].
  destruct (String.eqb r "AUTONOMO"); [ | reflexivity ].
  apply (autonomo_taxes_le x1 x2 Hle (Hside eq_refl)).
Qed.

Lemma taxes_nn (r : string) (x : float) :
  (0 <=? x) = true -> (0 <=? calculateMonthlyTaxes x r) = true.
Proof.
  intros Hx.
  apply leb_trans with (calculateMonthlyTaxes 0 r).
  - unfold calculateMonthlyTaxes.
    destruct (String.eqb r "MEI"); [ reflexivity | ].
    destruct (String.eqb r "PJ_SIMPLES"); [ reflexivity | ].
    destruct (String.eqb r "PJ_PRESUMIDO"); [ reflexivity | ].
    destruct (String.eqb r "AUTONOMO"); reflexivity.
  - apply taxes_le; [ exact Hx | ]. intros _. left. reflexivity.
Qed.

(** *** Income plus tax across the bound 3751.05 *)

Lemma leb_false_ltb (x b : float) :
  nanf x = false -> nanf b = false -> (x <=? b) = false -> (b <? x) = true.
Proof.
  intros Nx Nb H. apply ltb_rk. repeat split; try assumption.
  apply leb_false_gt; assumption.
Qed.

Lemma leb_false_below (x k k' : float) :
  (x <=? k) = false -> (k' <=? k) = true -> (x <=? k') = false.
Proof.
  intros H Hk. destruct (x <=? k') eqn:E; [ | reflexivity ].
  rewrite (leb_trans _ _ _ E Hk) in H. discriminate.
Qed.

(** The drop of the AUTONOMO tax at 3751.05, from the formula of the
    third bracket to that of the fourth, is a double below 0.00125. *)
Lemma tax_drop_at_3751_05 :
  (B2R (303.6 + (3751.05 * 0.15 - 381.44))
   - B2R (303.6 + (3751.05 * 0.225 - 662.77))
   = B2R (303.6 + (3751.05 * 0.15 - 381.44)
          - (303.6 + (3751.05 * 0.225 - 662.77))))%R
  /\ (303.6 + (3751.05 * 0.15 - 381.44)
      - (303.6 + (3751.05 * 0.225 - 662.77)) <? 0.00125) = true.
Proof.
  split; [ | vm_compute; reflexivity ].
  unfold B2R.
  let v := eval vm_compute in
    (Prim2SF (303.6 + (3751.05 * 0.15 - 381.44)
              - (303.6 + (3751.05 * 0.225 - 662.77)))) in
  change (Prim2SF (303.6 + (3751.05 * 0.15 - 381.44)
                   - (303.6 + (3751.05 * 0.225 - 662.77)))) with v.
  let v := eval vm_compute in (Prim2SF (303.6 + (3751.05 * 0.15 - 381.44))) in
  change (Prim2SF (303.6 + (3751.05 * 0.15 - 381.44))) with v.
  let v := eval vm_compute in (Prim2SF (303.6 + (3751.05 * 0.225 - 662.77))) in
  change (Prim2SF (303.6 + (3751.05 * 0.225 - 662.77))) with v.
  cbn [SF2R sgn].
  assert (E : (pow2 (-44) = 262144 * pow2 (-62))%R).
  { change (-44)%Z with (18 + -62)%Z. rewrite pow2_add.
    rewrite <- (pow2_IZR 18) by lia. reflexivity. }
  rewrite E. ring.
Qed.

(** Under AUTONOMO the income plus its tax never falls when the income
    rises by 0.00125 or more across the bound 3751.05. *)
Lemma income_plus_tax_across (x1 x2 : float) :
  (0 <=? x1) = true ->
  (x1 <=? 3751.04) = false -> (x1 <=? 3751.05) = true ->
  (x2 <=? 3751.05) = false -> (3751.06 <=? x2) = false ->
  (0.00125 <=? x2 - x1) = true ->
  (x1 + calculateMonthlyTaxes x1 "AUTONOMO"
   <=? x2 + calculateMonthlyTaxes x2 "AUTONOMO") = true.
Proof.
  intros H0 C A B D Hdiff.
  destruct (leb_nonnan _ _ H0) as [_ N1].
  assert (N2 : nanf x2 = false).
  { apply leb_nonnan in Hdiff. destruct Hdiff as [_ Nd].
    unfold nanf in *. rewrite sub_spec in Nd.
    destruct (Prim2SF x2); try reflexivity. discriminate Nd. }
  assert (Hlo : (3751.04 <=? x1) = true)
    by (apply leb_false_leb; [ exact N1 | vm_compute; reflexivity | exact C ]).
  assert (Hb : (3751.05 <=? x2) = true)
    by (apply leb_false_leb; [ exact N2 | vm_compute; reflexivity | exact B ]).
  assert (Hhi : (x2 <=? 3751.06) = true)
    by (apply leb_false_leb; [ vm_compute; reflexivity | exact N2 | exact D ]).
  rewrite !autonomo_unfold.
  rewrite (leb_false_below x1 3751.04 2259.2 C eq_refl).
  rewrite (leb_false_below x1 3751.04 2828.65 C eq_refl).
  rewrite A.
  rewrite (leb_false_below x2 3751.05 2259.2 B eq_refl).
  rewrite (leb_false_below x2 3751.05 2828.65 B eq_refl).
  rewrite B.
  rewrite (leb_trans x2 3751.06 4664.68 Hhi eq_refl).
  set (t1 := 303.6 + (x1 * 0.15 - 381.44)).
  set (t2 := 303.6 + (x2 * 0.225 - 662.77)).
  assert (T1lo : (303.6 + (3751.04 * 0.15 - 381.44) <=? t1) = true)
    by (unfold t1; formula_le; exact Hlo).
  assert (T1hi : (t1 <=? 303.6 + (3751.05 * 0.15 - 381.44)) = true)
    by (unfold t1; formula_le; exact A).
  assert (T2lo : (303.6 + (3751.05 * 0.225 - 662.77) <=? t2) = true)
    by (unfold t2; formula_le; exact Hb).
  assert (T2hi : (t2 <=? 303.6 + (3751.06 * 0.225 - 662.77)) = true)
    by (unfold t2; formula_le; exact Hhi).
  assert (F1 : finf x1)
    by (apply (bounded_finf 3751.05); [ const_side | exact H0 | exact A ]).
  assert (F2 : finf x2).
  { apply (bounded_finf 3751.06); [ const_side | | exact Hhi ].
    apply leb_trans with 3751.05; [ reflexivity | exact Hb ]. }
  assert (Ft1 : finf t1).
  { apply (bounded_finf (303.6 + (3751.05 * 0.15 - 381.44)));
      [ const_side | | exact T1hi ].
    apply leb_trans with (303.6 + (3751.04 * 0.15 - 381.44));
      [ reflexivity | exact T1lo ]. }
  assert (Ft2 : finf t2).
  { apply (bounded_finf (303.6 + (3751.06 * 0.225 - 662.77)));
      [ const_side | | exact T2hi ].
    apply leb_trans with (303.6 + (3751.05 * 0.225 - 662.77));
      [ reflexivity | exact T2lo ]. }
  apply add_le_real; try assumption.
  destruct tax_drop_at_3751_05 as [Edrop Hdrop].
  assert (Fd : finf (303.6 + (3751.05 * 0.15 - 381.44)
                     - (303.6 + (3751.05 * 0.225 - 662.77)))) by const_side.
  match type of Fd with
  | finf ?d =>
      pose proof (difference_lower_bound x1 x2 d 0.00125 F1 F2 Fd Hdrop Hdiff)
        as Hd
  end.
  apply leb_rk in T1hi. destruct T1hi as (_ & _ & T1hi).
  apply leb_rk in T2lo. destruct T2lo as (_ & _ & T2lo).
  destruct (finf_rk t1 Ft1) as [_ E1]. destruct (finf_rk t2 Ft2) as [_ E2].
  assert (FL : finf (303.6 + (3751.05 * 0.15 - 381.44))) by const_side.
  assert (FR : finf (303.6 + (3751.05 * 0.225 - 662.77))) by const_side.
  destruct (finf_rk _ FL) as [_ EL]. destruct (finf_rk _ FR) as [_ ER].
  rewrite E1, EL in T1hi. rewrite E2, ER in T2lo.
  lra.
Qed.

(** The income plus its tax never falls when the income rises, unless
    the regime is AUTONOMO and the incomes are on either side of 3751.05
    and less than 0.00125 apart. *)
Lemma income_plus_tax_le (r : string) (x1 x2 : float) :
  (0 <=? x1) = true -> (x1 <=? x2) = true ->
  r <> "AUTONOMO"
  \/ ~ ((x1 <=? 3751.05) = true /\ (3751.05 <? x2) = true)
  \/ (0.00125 <=? x2 - x1) = true ->
  (x1 + calculateMonthlyTaxes x1 r <=? x2 + calculateMonthlyTaxes x2 r)
  = true.
Proof.
  intros H0 Hle Hside.
  destruct (leb_nonnan _ _ Hle) as [N1 N2].
  assert (Easy : (String.eqb r "AUTONOMO" = true ->
                  (x1 <=? 3751.04) = true \/ (3751.06 <=? x2) = true
                  \/ (x1 <=? 3751.05) = false \/ (x2 <=? 3751.05) = true) ->
                 (x1 + calculateMonthlyTaxes x1 r
                  <=? x2 + calculateMonthlyTaxes x2 r) = true).
  { intros Hs. apply add_le;
      [ apply nn_lb; exact H0 | apply nn_lb, taxes_nn; exact H0 | exact Hle
      | apply taxes_le; assumption ]. }
  destruct (String.eqb r "AUTONOMO") eqn:Er;
    [ | apply Easy; intros E; discriminate E ].
  destruct (x1 <=? 3751.04) eqn:C; [ apply Easy; auto | ].
  destruct (3751.06 <=? x2) eqn:D; [ apply Easy; auto | ].
  destruct (x1 <=? 3751.05) eqn:A; [ | apply Easy; auto ].
  destruct (x2 <=? 3751.05) eqn:B; [ apply Easy; auto | ].
  apply String.eqb_eq in Er. subst r.
  destruct Hside as [Hne | [Hno | Hdiff]].
  - contradiction.
  - exfalso. apply Hno. split; [ reflexivity | ].
    apply leb_false_ltb; [ exact N2 | vm_compute; reflexivity | exact B ].
  - apply income_plus_tax_across; assumption.
Qed.

(** *** Provisions and total monthly costs *)

Lemma div_nn (k x : float) :
  posfinb k = true -> (0 <=? x) = true -> (0 <=? x / k) = true.
Proof.
  intros Hk Hx. apply leb_trans with (0 / k).
  - destruct (posfinb_posfin k Hk) as (m & e & Ek).
    rewrite leb_spec, div_spec, Ek. reflexivity.
  - apply div_le; [ apply posfinb_posfin; exact Hk | exact Hx ].
Qed.

Lemma provisions_unfold (input : Input.t float) :
  Output.monthlyProvisions (calculate input)
  = let x := Input.desiredMonthlyIncome input in
    let first := if Input.include13th input then 0 + x / 12 else 0 in
    if Input.includeVacation input then first + x / 3 / 12 else first.
Proof. reflexivity. Qed.

Lemma provisions_nn (input : Input.t float) :
  (0 <=? Input.desiredMonthlyIncome input) = true ->
  (0 <=? Output.monthlyProvisions (calculate input)) = true.
Proof.
  intros Hx. rewrite provisions_unfold. cbv zeta.
  assert (H12 : (0 <=? Input.desiredMonthlyIncome input / 12) = true)
    by (apply div_nn; [ reflexivity | exact Hx ]).
  assert (H3 : (0 <=? Input.desiredMonthlyIncome input / 3 / 12) = true)
    by (apply div_nn; [ reflexivity | apply div_nn; [ reflexivity | exact Hx ] ]).
  assert (Hfirst : (0 <=? (if Input.include13th input
                           then 0 + Input.desiredMonthlyIncome input / 12
                           else 0)) = true).
  { destruct (Input.include13th input); [ | reflexivity ].
    apply add_nn; [ reflexivity | exact H12 ]. }
  destruct (Input.includeVacation input); [ | exact Hfirst ].
  apply add_nn; assumption.
Qed.

Lemma provisions_le (input : Input.t float) (x1 x2 : float) :
  (0 <=? x1) = true -> (x1 <=? x2) = true ->
  (Output.monthlyProvisions (calculate (with_income input x1))
   <=? Output.monthlyProvisions (calculate (with_income input x2))) = true.
Proof.
  intros H0 Hle. rewrite !provisions_unfold.
  cbn [with_income Input.desiredMonthlyIncome Input.include13th
       Input.includeVacation].
  cbv zeta.
  assert (H12 : (x1 / 12 <=? x2 / 12) = true)
    by (apply div_le; [ const_side | exact Hle ]).
  assert (H3 : (x1 / 3 / 12 <=? x2 / 3 / 12) = true)
    by (apply div_le; [ const_side | apply div_le; [ const_side | exact Hle ] ]).
  assert (N12 : (0 <=? x1 / 12) = true)
    by (apply div_nn; [ reflexivity | exact H0 ]).
  assert (N3 : (0 <=? x1 / 3 / 12) = true)
    by (apply div_nn; [ reflexivity | apply div_nn; [ reflexivity | exact H0 ] ]).
  assert (Hfirst : ((if Input.include13th input then 0 + x1 / 12 else 0)
                    <=? (if Input.include13th input then 0 + x2 / 12 else 0))
                   = true).
  { destruct (Input.include13th input); [ | reflexivity ].
    apply add_le_r; [ const_side | exact H12 ]. }
  assert (Nfirst : (0 <=? (if Input.include13th input then 0 + x1 / 12 else 0))
                   = true).
  { destruct (Input.include13th input); [ | reflexivity ].
    apply add_nn; [ reflexivity | exact N12 ]. }
  destruct (Input.includeVacation input); [ | exact Hfirst ].
  apply add_le; try assumption; apply nn_lb; assumption.
Qed.

Lemma total_unfold (input : Input.t float) :
  Output.totalMonthlyCosts (calculate input)
  = Input.desiredMonthlyIncome input
    + calculateMonthlyTaxes (Input.desiredMonthlyIncome input)
                            (Input.taxRegime input)
    + Output.monthlyProvisions (calculate input)
    + Input.monthlyExpenses input
    + Input.variableExpenses input.
Proof. reflexivity. Qed.

Lemma valid_input_facts (input : Input.t float) :
  valid_input input = true ->
  (0 <=? Input.desiredMonthlyIncome input) = true
  /\ (0 <? Input.hoursPerDay input) = true
  /\ (1 <=? Input.daysPerWeek input) = true
  /\ (0 <=? Input.vacationWeeks input) = true
  /\ (Input.vacationWeeks input <=? 52) = true
  /\ (0 <=? Input.monthlyExpenses input) = true
  /\ (0 <=? Input.variableExpenses input) = true
  /\ (0 <=? Input.profitMarginPercentage input) = true
  /\ (Input.profitMarginPercentage input <? 100) = true.
Proof.
  unfold valid_input. rewrite !andb_true_iff.
  intros H. repeat match type of H with _ /\ _ => destruct H as [H ?] end.
  repeat split; assumption.
Qed.

Lemma total_nn (input : Input.t float) :
  valid_input input = true ->
  (0 <=? Output.totalMonthlyCosts (calculate input)) = true.
Proof.
  intros V.
  destruct (valid_input_facts _ V) as (Hx & _ & _ & _ & _ & Hme & Hve & _).
  rewrite total_unfold.
  repeat apply add_nn; try assumption.
  - apply taxes_nn; exact Hx.
  - apply provisions_nn; exact Hx.
Qed.

Lemma total_le (input : Input.t float) (x1 x2 : float) :
  valid_input (with_income input x1) = true ->
  (x1 <=? x2) = true ->
  Input.taxRegime input <> "AUTONOMO"
  \/ ~ ((x1 <=? 3751.05) = true /\ (3751.05 <? x2) = true)
  \/ (0.00125 <=? x2 - x1) = true ->
  (Output.totalMonthlyCosts (calculate (with_income input x1))
   <=? Output.totalMonthlyCosts (calculate (with_income input x2))) = true.
Proof.
  intros V Hle Hside.
  destruct (valid_input_facts _ V) as (Hx & _ & _ & _ & _ & Hme & Hve & _).
  cbn [with_income Input.desiredMonthlyIncome Input.monthlyExpenses
       Input.variableExpenses] in Hx, Hme, Hve.
  rewrite !total_unfold.
  cbn [with_income Input.desiredMonthlyIncome Input.monthlyExpenses
       Input.variableExpenses Input.taxRegime].
  pose proof (taxes_nn (Input.taxRegime input) x1 Hx) as Nt.
  pose proof (provisions_nn (with_income input x1) Hx) as Np.
  pose proof (leb_nonnan _ _ Hme) as [_ Nme].
  pose proof (leb_nonnan _ _ Hve) as [_ Nve].
  apply add_le;
    [ apply nn_lb; repeat apply add_nn; assumption
    | apply nn_lb; assumption | | apply leb_refl; assumption ].
  apply add_le;
    [ apply nn_lb; repeat apply add_nn; assumption
    | apply nn_lb; assumption | | apply leb_refl; assumption ].
  apply add_le;
    [ apply nn_lb; repeat apply add_nn; assumption
    | apply nn_lb; assumption | | apply provisions_le; assumption ].
  apply income_plus_tax_le; assumption.
Qed.

(** *** The two divisors *)

Lemma ltb_leb (a b : float) : (a <? b) = true -> (a <=? b) = true.
Proof.
  rewrite ltb_rk, leb_rk. intros (Na & Nb & H).
  repeat split; try assumption. apply Rlt_le, H.
Qed.

Lemma ltb_false_leb (a b : float) :
  nanf a = false -> nanf b = false -> (a <? b) = false -> (b <=? a) = true.
Proof.
  intros Na Nb H. apply leb_rk. repeat split; try assumption.
  destruct (Rle_lt_dec (rk b) (rk a)) as [Hle | Hlt]; [ exact Hle | ].
  assert (T : (a <? b) = true) by (apply ltb_rk; auto).
  rewrite T in H. discriminate.
Qed.

Lemma pos_unsigned (x : float) : (0 <? x) = true -> unsigned x.
Proof.
  unfold unsigned. rewrite ltb_spec, Prim2SF_zero.
  destruct (Prim2SF x) as [[ | ] | [ | ] | | [ | ] m e];
    first [ discriminate | intros _; exact I ].
Qed.

Lemma above_posfin_unsigned (k x : float) :
  posfinb k = true -> (k <=? x) = true -> unsigned x.
Proof.
  intros Hk. destruct (posfinb_posfin k Hk) as (m & e & Ek).
  unfold unsigned. rewrite leb_spec, Ek.
  destruct (Prim2SF x) as [[ | ] | [ | ] | | [ | ] mx ex];
    first [ discriminate | intros _; exact I ].
Qed.

(** The divisor [1 - profitMarginPercentage / 100] of a valid input has
    a clear sign bit. *)
Lemma margin_factor_unsigned (pm : float) :
  (0 <=? pm) = true -> (pm <? 100) = true -> unsigned (1 - pm / 100).
Proof.
  intros H0 H100. apply sub_unsigned.
  - const_side.
  - apply nn_lb, div_nn; [ reflexivity | exact H0 ].
  - apply leb_trans with (100 / 100); [ | reflexivity ].
    apply div_le; [ const_side | apply ltb_leb; exact H100 ].
Qed.

(** So have the working hours per month. *)
Lemma working_hours_unsigned (input : Input.t float) :
  valid_input input = true ->
  unsigned (unroundedWorkingHoursPerMonth input).
Proof.
  intros V.
  destruct (valid_input_facts _ V) as (_ & Hh & Hd & Hv0 & Hv52 & _).
  unfold unroundedWorkingHoursPerMonth. float_ops.
  apply unsigned_mul; [ apply pos_unsigned; exact Hh | ].
  apply unsigned_div; [ | apply posfin_unsigned; const_side ].
  apply unsigned_mul.
  - apply (above_posfin_unsigned 1); [ reflexivity | exact Hd ].
  - apply sub_unsigned; [ const_side | apply nn_lb; exact Hv0 | exact Hv52 ].
Qed.

(** The side condition of the statements below, as the case analysis on
    the brackets uses it. *)
Lemma bracket_side (r : string) (x1 x2 : float) :
  (x1 <=? x2) = true ->
  r <> "AUTONOMO"
  \/ (x1 <=? 3751.04) = true
  \/ (3751.06 <=? x2) = true
  \/ ~ ((x1 <=? 3751.05) = true /\ (3751.05 <? x2) = true) ->
  String.eqb r "AUTONOMO" = true ->
  (x1 <=? 3751.04) = true \/ (3751.06 <=? x2) = true
  \/ (x1 <=? 3751.05) = false \/ (x2 <=? 3751.05) = true.
Proof.
  intros Hle Hside Hr. apply String.eqb_eq in Hr.
  destruct (leb_nonnan _ _ Hle) as [N1 N2].
  destruct Hside as [Hne | [Hlo | [Hhi | Hno]]].
  - contradiction.
  - left. exact Hlo.
  - right; left. exact Hhi.
  - right; right.
    destruct (x1 <=? 3751.05) eqn:A; [ right | left; reflexivity ].
    apply ltb_false_leb; [ vm_compute; reflexivity | exact N2 | ].
    destruct (3751.05 <? x2) eqn:B; [ | reflexivity ].
    exfalso. apply Hno. split; reflexivity.
Qed.

Lemma hourlyRate_unfold (input : Input.t float) :
  Output.hourlyRate (calculate input)
  = Output.totalMonthlyCosts (calculate input)
    / (1 - Input.profitMarginPercentage input / 100)
    / unroundedWorkingHoursPerMonth input.
Proof. reflexivity. Qed.

(** C5, as amended, on binary64: for two valid inputs that differ only in
    [desiredMonthlyIncome], the larger income never gets the strictly
    smaller hourly rate when the regime is not AUTONOMO, or the two
    incomes are not on either side of the bound 3751.05, or they are at
    least 0.00125 apart (whole cents are).  Nothing else is assumed:
    [vacationWeeks] may be 52 and any amount may be +infinity; a rate
    that is NaN is not smaller than any other. *)
Theorem hourly_rate_monotone (input : Input.t float) (x1 x2 : float) :
  valid_input (with_income input x1) = true ->
  valid_input (with_income input x2) = true ->
  (x1 <=? x2) = true ->
  Input.taxRegime input <> "AUTONOMO"
  \/ ~ ((x1 <=? 3751.05) = true /\ (3751.05 <? x2) = true)
  \/ (0.00125 <=? x2 - x1) = true ->
  (Output.hourlyRate (calculate (with_income input x2))
   <? Output.hourlyRate (calculate (with_income input x1))) = false.
Proof.
  intros V1 V2 Hle Hside.
  destruct (valid_input_facts _ V1) as (_ & _ & _ & _ & _ & _ & _ & Hm0 & Hm100).
  apply not_above_ltb. rewrite !hourlyRate_unfold.
  change (unroundedWorkingHoursPerMonth (with_income input x2))
    with (unroundedWorkingHoursPerMonth (with_income input x1)).
  change (Input.profitMarginPercentage (with_income input x2))
    with (Input.profitMarginPercentage (with_income input x1)).
  apply div_not_above; [ apply working_hours_unsigned; exact V1 | ].
  apply div_not_above; [ apply margin_factor_unsigned; assumption | ].
  apply leb_not_above. apply total_le; assumption.
Qed.

Lemma hourly_rate_monotone_witness :
  let input : Input.t float := Scenario.autonomo 3751.05 4 in
  valid_input (with_income input 3751.05) = true
  /\ valid_input (with_income input 3751.06) = true
  /\ (3751.05 <=? 3751.06) = true
  /\ (0.00125 <=? 3751.06 - 3751.05) = true
  /\ (Output.hourlyRate (calculate (with_income input 3751.06))
      <? Output.hourlyRate (calculate (with_income input 3751.05))) = false.
Proof.
  intros input.
  split; [ reflexivity | split; [ reflexivity | split; [ reflexivity | ] ] ].
  split; [ reflexivity | ].
  apply (hourly_rate_monotone input 3751.05 3751.06);
    [ reflexivity | reflexivity | reflexivity | ].
  right; right. reflexivity.
Defined.

(** C7, as amended, on binary64: [hourlyRate] times the working hours per
    month as computed (before [Math.round]) is [monthlyRate] within the
    tolerance of one part in a million, whenever the hourly rate and the
    product are normal numbers, that is, neither the division nor the
    product underflowed or overflowed; the rounded field of the Output can
    stand for the hours when they are a whole number. *)
Theorem rate_times_working_hours (input : Input.t float) :
  let out := calculate input in
  let hours := unroundedWorkingHoursPerMonth input in
  is_normal (Output.hourlyRate out) = true ->
  is_normal (Output.hourlyRate out * hours) = true ->
  within_tolerance (Output.hourlyRate out * hours) (Output.monthlyRate out)
  /\ (num_is_integer hours = true ->
      within_tolerance
        (Output.hourlyRate out * Output.workingHoursPerMonth out)
        (Output.monthlyRate out)).
Proof.
  intros out hours N1 N2.
  assert (Hprod : within_tolerance (Output.hourlyRate out * hours)
                                   (Output.monthlyRate out)).
  { change (Output.hourlyRate out) with (Output.monthlyRate out / hours) in *.
    split; [ apply div_mul_back_test | apply div_mul_back ]; assumption. }
  split; [ exact Hprod | ].
  intros Hint.
  change (Output.workingHoursPerMonth out) with (Binary64.round hours).
  rewrite (round_integer hours Hint). exact Hprod.
Qed.

Lemma rate_times_working_hours_witness :
  let input : Input.t float := Scenario.mei3000 in
  let out := calculate input in
  is_normal (Output.hourlyRate out) = true
  /\ is_normal (Output.hourlyRate out * unroundedWorkingHoursPerMonth input)
     = true
  /\ num_is_integer (unroundedWorkingHoursPerMonth input) = true
  /\ Output.workingHoursPerMonth out = 120
  /\ within_tolerance
       (Output.hourlyRate out * Output.workingHoursPerMonth out)
       (Output.monthlyRate out).
Proof.
  intros input out.
  split; [ reflexivity | split; [ reflexivity | split; [ reflexivity | ] ] ].
  split; [ reflexivity | ].
  apply (rate_times_working_hours input); reflexivity.
Defined.

(** The two range conditions of the amended C7 are needed: a valid input
    whose hourly rate underflows to 0 has a product of 0 against a
    positive monthly rate, and one whose hourly rate overflows has an
    infinite product against a finite monthly rate. *)
Lemma underflow_breaks_product :
  let input : Input.t float :=
    Input.mk 5e-324 8 5 4 "PJ_SIMPLES" false false 0 0 0 in
  let out := calculate input in
  valid_input input = true
  /\ Output.hourlyRate out = 0
  /\ Output.hourlyRate out * unroundedWorkingHoursPerMonth input = 0
  /\ (0 <? Output.monthlyRate out) = true.
Proof. vm_compute. repeat split. Qed.

Lemma overflow_breaks_product :
  let input : Input.t float :=
    Input.mk 1e308 1 1 51 "PJ_SIMPLES" false false 0 0 0 in
  let out := calculate input in
  valid_input input = true
  /\ Output.hourlyRate out = infinity
  /\ Output.hourlyRate out * unroundedWorkingHoursPerMonth input = infinity
  /\ (Output.monthlyRate out <? infinity) = true.
Proof. vm_compute. repeat split. Qed.

(** *** Further monotonicity on binary64 *)

Lemma add_zero_r_le (a : float) :
  finf a -> nanf a = false -> (a <=? a + 0) = true.
Proof.
  intros Fa Na. apply leb_rk. unfold finf, nanf, rk in *.
  rewrite add_spec, Prim2SF_zero. unfold SF64add.
  destruct (Prim2SF a) as [[ | ] | s | | s m e]; try contradiction;
    cbn [SFadd is_nan_sf rank SF2R]; repeat split; try reflexivity; lra.
Qed.

Lemma add_nn_r (a t : float) :
  (0 <=? a) = true -> (0 <=? t) = true -> (a <=? a + t) = true.
Proof.
  intros Ha Ht. destruct (leb_nonnan _ _ Ha) as [_ Na].
  destruct (lb_cases a (nn_lb a Ha)) as [Fa | Ea].
  - apply leb_trans with (a + 0).
    + apply add_zero_r_le; assumption.
    + apply add_le_r; assumption.
  - apply same_leb; [ exact Ea | ].
    apply add_inf_l; [ apply nn_lb; exact Ht | exact Ea ].
Qed.

(** On binary64, the total monthly cost of a valid input is at least the
    desired income plus both kinds of expenses, added in the order of the
    code: taxes and provisions only add to it. *)
Theorem costs_cover_income (input : Input.t float) :
  valid_input input = true ->
  (Input.desiredMonthlyIncome input + Input.monthlyExpenses input
   + Input.variableExpenses input
   <=? Output.totalMonthlyCosts (calculate input)) = true.
Proof.
  intros V.
  destruct (valid_input_facts _ V) as (Hx & _ & _ & _ & _ & Hme & Hve & _).
  pose proof (taxes_nn (Input.taxRegime input) _ Hx) as Nt.
  pose proof (provisions_nn input Hx) as Np.
  pose proof (leb_nonnan _ _ Hme) as [_ Nme].
  pose proof (leb_nonnan _ _ Hve) as [_ Nve].
  rewrite total_unfold.
  apply add_le;
    [ apply nn_lb, add_nn; assumption | apply nn_lb; assumption
    | | apply leb_refl; assumption ].
  apply add_le;
    [ apply nn_lb; assumption | apply nn_lb; assumption
    | | apply leb_refl; assumption ].
  apply leb_trans with (Input.desiredMonthlyIncome input
                        + calculateMonthlyTaxes (Input.desiredMonthlyIncome input)
                            (Input.taxRegime input)).
  - apply add_nn_r; assumption.
  - apply add_nn_r; [ apply add_nn; assumption | assumption ].
Qed.

Lemma costs_cover_income_witness :
  let input : Input.t float := Scenario.mei3000 in
  valid_input input = true
  /\ (3000 + 200 + 0 <=? Output.totalMonthlyCosts (calculate input)) = true.
Proof.
  intros input. split; [ reflexivity | ].
  apply (costs_cover_income input). reflexivity.
Defined.

(** On binary64, whatever the regime string, the monthly tax of a
    non-negative income is never negative (nor NaN), and it never falls
    when the income rises, except under AUTONOMO across the bound 3751.05
    between incomes less than a cent from it. *)
Theorem tax_grows_with_income (r : string) (x1 x2 : float) :
  (0 <=? x1) = true ->
  (x1 <=? x2) = true ->
  r <> "AUTONOMO"
  \/ (x1 <=? 3751.04) = true
  \/ (3751.06 <=? x2) = true
  \/ ~ ((x1 <=? 3751.05) = true /\ (3751.05 <? x2) = true) ->
  (0 <=? calculateMonthlyTaxes x1 r) = true
  /\ (calculateMonthlyTaxes x1 r <=? calculateMonthlyTaxes x2 r) = true.
Proof.
  intros H0 Hle Hside. split.
  - apply taxes_nn; exact H0.
  - apply taxes_le; [ exact Hle | apply bracket_side; assumption ].
Qed.

Lemma tax_grows_with_income_witness :
  (0 <=? 2000) = true
  /\ (2000 <=? 3000) = true
  /\ (calculateMonthlyTaxes 2000 "AUTONOMO"
      <=? calculateMonthlyTaxes 3000 "AUTONOMO") = true.
Proof.
  split; [ reflexivity | split; [ reflexivity | ] ].
  apply (tax_grows_with_income "AUTONOMO" 2000 3000);
    [ reflexivity | reflexivity | right; left; reflexivity ].
Defined.

(** On binary64, with the proviso of C5, a larger desired income never
    lowers the total monthly cost, and never gives a strictly lower
    monthly rate. *)
Theorem monthly_rate_monotone (input : Input.t float) (x1 x2 : float) :
  valid_input (with_income input x1) = true ->
  valid_input (with_income input x2) = true ->
  (x1 <=? x2) = true ->
  Input.taxRegime input <> "AUTONOMO"
  \/ ~ ((x1 <=? 3751.05) = true /\ (3751.05 <? x2) = true)
  \/ (0.00125 <=? x2 - x1) = true ->
  (Output.totalMonthlyCosts (calculate (with_income input x1))
   <=? Output.totalMonthlyCosts (calculate (with_income input x2))) = true
  /\ (Output.monthlyRate (calculate (with_income input x2))
      <? Output.monthlyRate (calculate (with_income input x1))) = false.
Proof.
  intros V1 V2 Hle Hside.
  destruct (valid_input_facts _ V1) as (_ & _ & _ & _ & _ & _ & _ & Hm0 & Hm100).
  assert (Ht : (Output.totalMonthlyCosts (calculate (with_income input x1))
                <=? Output.totalMonthlyCosts (calculate (with_income input x2)))
               = true)
    by (apply total_le; assumption).
  split; [ exact Ht | ].
  apply not_above_ltb.
  change (Output.monthlyRate (calculate (with_income input x1)))
    with (Output.totalMonthlyCosts (calculate (with_income input x1))
          / (1 - Input.profitMarginPercentage (with_income input x1) / 100)).
  change (Output.monthlyRate (calculate (with_income input x2)))
    with (Output.totalMonthlyCosts (calculate (with_income input x2))
          / (1 - Input.profitMarginPercentage (with_income input x1) / 100)).
  apply div_not_above; [ apply margin_factor_unsigned; assumption | ].
  apply leb_not_above. exact Ht.
Qed.

Lemma monthly_rate_monotone_witness :
  let input : Input.t float := Scenario.mei3000 in
  valid_input (with_income input 3000) = true
  /\ valid_input (with_income input 3500) = true
  /\ (3000 <=? 3500) = true
  /\ (Output.monthlyRate (calculate (with_income input 3500))
      <? Output.monthlyRate (calculate (with_income input 3000))) = false.
Proof.
  intros input.
  split; [ reflexivity | split; [ reflexivity | split; [ reflexivity | ] ] ].
  apply (monthly_rate_monotone input 3000 3500);
    [ reflexivity | reflexivity | reflexivity | ].
  left. discriminate.
Defined.

(** *** The margin *)

Lemma sub_le_r (k q1 q2 : float) :
  finf k -> finf q1 -> finf q2 ->
  (q1 <=? q2) = true -> (k - q2 <=? k - q1) = true.
Proof.
  intros Fk F1 F2 Hle. apply leb_rk in Hle. destruct Hle as (_ & _ & Hle).
  pose proof (rank_finish _ (Prim2SF_valid q1) F1) as [E1 _].
  pose proof (rank_finish _ (Prim2SF_valid q2) F2) as [E2 _].
  pose proof (SFsub_fin _ _ (Prim2SF_valid k) (Prim2SF_valid q1) Fk F1) as R1.
  pose proof (SFsub_fin _ _ (Prim2SF_valid k) (Prim2SF_valid q2) Fk F2) as R2.
  apply leb_rk. unfold nanf, rk in *. rewrite !sub_spec. unfold SF64sub.
  split; [ apply (rounded_nonnan _ _ R2) | ].
  split; [ apply (rounded_nonnan _ _ R1) | ].
  assert (Hv : (SF2R (Prim2SF k) - SF2R (Prim2SF q2)
                <= SF2R (Prim2SF k) - SF2R (Prim2SF q1))%R) by lra.
  apply (rounded_rank_mono _ _ _ _ Hv R2 R1).
Qed.

(** Dividing a non-negative amount by a smaller divisor never gives
    less. *)
Lemma div_divisor_not_above (a c1 c2 : float) :
  (0 <=? a) = true -> unsigned c2 -> finf c2 -> finf c1 ->
  (c2 <=? c1) = true -> not_above (a / c1) (a / c2).
Proof.
  intros Ha U2 F2 F1 Hle. apply nn_rk in Ha. destruct Ha as [Na Ha].
  apply leb_rk in Hle. destruct Hle as (_ & _ & Hle).
  pose proof (Prim2SF_valid (a / c1)) as V1.
  pose proof (pow2_pos 1025) as P25.
  unfold not_above, unsigned, finf, nanf, rk in *.
  destruct (is_nan_sf (Prim2SF (a / c1))) eqn:N1; [ left; reflexivity | ].
  pose proof (rank_bounds _ V1 N1) as B1.
  right. rewrite !div_spec in *. unfold SF64div in *.
  destruct (Prim2SF c2) as [[ | ] | s2 | | [ | ] m2 e2]; try contradiction.
  - (* c2 = +0 *)
    clear V1 N1 Hle F1.
    remember (SFdiv prec emax (Prim2SF a) (Prim2SF c1)) as r1 eqn:Er1.
    clear Er1.
    destruct (Prim2SF a) as [sa | [ | ] | | [ | ] ma ea]; try discriminate.
    + left. reflexivity.
    + exfalso. cbn [rank sgn] in Ha. lra.
    + right. cbn [SFdiv xorb rank sgn]. lra.
    + exfalso. pose proof (rank_sign true ma ea) as [Hn _].
      specialize (Hn eq_refl). lra.
    + right. cbn [SFdiv xorb rank sgn]. lra.
  - (* c2 finite and positive *)
    clear V1 N1 B1.
    pose proof (rank_sign false m2 e2) as [_ Hp2]. specialize (Hp2 eq_refl).
    destruct (Prim2SF c1) as [s1 | s1 | | [ | ] m1 e1]; try contradiction.
    + cbn [rank SF2R] in *. lra.
    + pose proof (rank_sign true m1 e1) as [Hn1 _]. specialize (Hn1 eq_refl).
      cbn [rank SF2R] in *. lra.
    + right.
      destruct (Prim2SF a) as [sa | [ | ] | | [ | ] ma ea]; try discriminate.
      * cbn [SFdiv rank SF2R]. lra.
      * exfalso. cbn [rank sgn] in Ha. lra.
      * cbn [SFdiv xorb rank sgn]. lra.
      * exfalso. pose proof (rank_sign true ma ea) as [Hn _].
        specialize (Hn eq_refl). lra.
      * pose proof (div_finite false false ma m1 ea e1) as R1.
        pose proof (div_finite false false ma m2 ea e2) as R2.
        assert (Hv : (SF2R (S754_finite false ma ea)
                      / SF2R (S754_finite false m1 e1)
                      <= SF2R (S754_finite false ma ea)
                         / SF2R (S754_finite false m2 e2))%R).
        { cbn [rank SF2R sgn] in *.
          pose proof (finite_value_pos ma ea) as Pa.
          pose proof (finite_value_pos m1 e1) as P1.
          pose proof (finite_value_pos m2 e2) as P2.
          rewrite !Rmult_1_l in *.
          apply Rmult_le_compat_l; [ lra | ].
          apply Rinv_le_contravar; [ exact P2 | exact Hle ]. }
        apply (rounded_rank_mono _ _ _ _ Hv R1 R2).
Qed.

Lemma margin_factor_facts (pm : float) :
  (0 <=? pm) = true -> (pm <? 100) = true ->
  finf (pm / 100) /\ finf (1 - pm / 100).
Proof.
  intros H0 H100.
  assert (Hq0 : (0 <=? pm / 100) = true)
    by (apply div_nn; [ reflexivity | exact H0 ]).
  assert (Hq1 : (pm / 100 <=? 1) = true).
  { apply leb_trans with (100 / 100); [ | reflexivity ].
    apply div_le; [ const_side | apply ltb_leb; exact H100 ]. }
  assert (F1 : finf 1) by const_side.
  assert (F0 : finf 0) by const_side.
  assert (Fq : finf (pm / 100)) by (apply (bounded_finf 1); assumption).
  split; [ exact Fq | ].
  apply (bounded_finf 1); [ exact F1 | | ].
  - apply leb_trans with (1 - 1); [ reflexivity | ].
    apply sub_le_r; assumption.
  - apply leb_trans with (1 - 0); [ | reflexivity ].
    apply sub_le_r; assumption.
Qed.

(** On binary64, for two valid inputs that differ only in
    [profitMarginPercentage], the larger margin never gives a strictly
    lower monthly rate nor a strictly lower hourly rate. *)
Theorem rates_monotone_in_margin (input : Input.t float) (m1 m2 : float) :
  valid_input (with_margin input m1) = true ->
  valid_input (with_margin input m2) = true ->
  (m1 <=? m2) = true ->
  (Output.monthlyRate (calculate (with_margin input m2))
   <? Output.monthlyRate (calculate (with_margin input m1))) = false
  /\ (Output.hourlyRate (calculate (with_margin input m2))
      <? Output.hourlyRate (calculate (with_margin input m1))) = false.
Proof.
  intros V1 V2 Hle.
  destruct (valid_input_facts _ V1) as (_ & _ & _ & _ & _ & _ & _ & A0 & A100).
  destruct (valid_input_facts _ V2) as (_ & _ & _ & _ & _ & _ & _ & B0 & B100).
  cbn [with_margin Input.profitMarginPercentage] in A0, A100, B0, B100.
  destruct (margin_factor_facts m1 A0 A100) as [Fq1 Fc1].
  destruct (margin_factor_facts m2 B0 B100) as [Fq2 Fc2].
  assert (Hc : (1 - m2 / 100 <=? 1 - m1 / 100) = true).
  { apply sub_le_r; try assumption; [ const_side | ].
    apply div_le; [ const_side | exact Hle ]. }
  assert (Hm : not_above
                 (Output.totalMonthlyCosts (calculate (with_margin input m1))
                  / (1 - m1 / 100))
                 (Output.totalMonthlyCosts (calculate (with_margin input m1))
                  / (1 - m2 / 100))).
  { apply div_divisor_not_above; try assumption.
    - apply total_nn. exact V1.
    - apply margin_factor_unsigned; assumption. }
  split.
  - apply not_above_ltb. exact Hm.
  - apply not_above_ltb.
    change (Output.hourlyRate (calculate (with_margin input m1)))
      with (Output.totalMonthlyCosts (calculate (with_margin input m1))
            / (1 - m1 / 100)
            / unroundedWorkingHoursPerMonth (with_margin input m1)).
    change (Output.hourlyRate (calculate (with_margin input m2)))
      with (Output.totalMonthlyCosts (calculate (with_margin input m1))
            / (1 - m2 / 100)
            / unroundedWorkingHoursPerMonth (with_margin input m1)).
    apply div_not_above; [ apply working_hours_unsigned; exact V1 | exact Hm ].
Qed.

Lemma rates_monotone_in_margin_witness :
  let input : Input.t float := Scenario.mei3000 in
  valid_input (with_margin input 20) = true
  /\ valid_input (with_margin input 50) = true
  /\ (20 <=? 50) = true
  /\ (Output.monthlyRate (calculate (with_margin input 50))
      <? Output.monthlyRate (calculate (with_margin input 20))) = false.
Proof.
  intros input.
  split; [ reflexivity | split; [ reflexivity | split; [ reflexivity | ] ] ].
  apply (rates_monotone_in_margin input 20 50); reflexivity.
Defined.

(** *** Bounds on the monthly tax *)

Lemma sub_le_self (y d : float) :
  (0 <=? y) = true -> posfinb d = true -> (y - d <=? y) = true.
Proof.
  intros Hy Hd. destruct (posfinb_posfin d Hd) as (m & e & Ed).
  pose proof (Prim2SF_valid d) as Vd. rewrite Ed in Vd.
  destruct (lb_cases y (nn_lb y Hy)) as [Fy | Ey].
  - pose proof (SFsub_fin _ _ (Prim2SF_valid y) Vd Fy I) as R1.
    pose proof (rounded_own_value _ (Prim2SF_valid y) Fy) as R2.
    pose proof (rank_finish _ (Prim2SF_valid y) Fy) as [E _].
    apply leb_rk. unfold nanf, rk. rewrite sub_spec, Ed. unfold SF64sub.
    split; [ apply (rounded_nonnan _ _ R1) | ].
    split; [ apply (rounded_nonnan _ _ R2) | ].
    assert (Hv : (SF2R (Prim2SF y) - SF2R (S754_finite false m e)
                  <= SF2R (Prim2SF y))%R).
    { pose proof (finite_value_pos m e). cbn [SF2R sgn]. lra. }
    apply (rounded_rank_mono _ _ _ _ Hv R1 R2).
  - apply same_leb; [ | exact Ey ].
    rewrite sub_spec, Ey, Ed. reflexivity.
Qed.

Lemma mul_const_le (a k k' : float) :
  (0 <=? a) = true -> posfinb k = true -> posfinb k' = true ->
  (k <=? k') = true -> (a * k <=? a * k') = true.
Proof.
  intros Ha Hk Hk' Hle.
  destruct (posfinb_posfin k Hk) as (m & e & Ek).
  destruct (posfinb_posfin k' Hk') as (m' & e' & Ek').
  pose proof (Prim2SF_valid k) as Vk. rewrite Ek in Vk.
  pose proof (Prim2SF_valid k') as Vk'. rewrite Ek' in Vk'.
  apply leb_rk in Hle. destruct Hle as (_ & _ & Hle).
  unfold rk in Hle. rewrite Ek, Ek' in Hle. cbn [rank] in Hle.
  destruct (lb_cases a (nn_lb a Ha)) as [Fa | Ea].
  - pose proof (SFmul_fin _ _ (Prim2SF_valid a) Vk Fa I) as R1.
    pose proof (SFmul_fin _ _ (Prim2SF_valid a) Vk' Fa I) as R2.
    pose proof (rank_finish _ (Prim2SF_valid a) Fa) as [E _].
    apply nn_rk in Ha. destruct Ha as [_ Ha]. unfold rk in Ha.
    apply leb_rk. unfold nanf, rk. rewrite !mul_spec, Ek, Ek'.
    unfold SF64mul.
    split; [ apply (rounded_nonnan _ _ R1) | ].
    split; [ apply (rounded_nonnan _ _ R2) | ].
    assert (Hv : (SF2R (Prim2SF a) * SF2R (S754_finite false m e)
                  <= SF2R (Prim2SF a) * SF2R (S754_finite false m' e'))%R).
    { apply Rmult_le_compat_l; lra. }
    apply (rounded_rank_mono _ _ _ _ Hv R1 R2).
  - apply same_leb; rewrite mul_spec, Ea; [ rewrite Ek | rewrite Ek' ];
      reflexivity.
Qed.

Lemma add_zero_l_le (a : float) :
  finf a -> nanf a = false -> (a <=? 0 + a) = true.
Proof.
  intros Fa Na. apply leb_rk. unfold finf, nanf, rk in *.
  rewrite add_spec, Prim2SF_zero. unfold SF64add.
  destruct (Prim2SF a) as [[ | ] | s | | s m e]; try contradiction;
    cbn [SFadd is_nan_sf rank SF2R]; repeat split; try reflexivity; lra.
Qed.

Lemma add_nn_l (k y : float) :
  (0 <=? k) = true -> (0 <=? y) = true -> (y <=? k + y) = true.
Proof.
  intros Hk Hy. destruct (leb_nonnan _ _ Hy) as [_ Ny].
  destruct (lb_cases y (nn_lb y Hy)) as [Fy | Ey].
  - apply leb_trans with (0 + y).
    + apply add_zero_l_le; assumption.
    + apply add_le_l; assumption.
  - apply same_leb; [ exact Ey | ].
    apply add_inf_r; [ apply nn_lb; exact Hk | exact Ey ].
Qed.

Lemma mul_nn (k x : float) :
  posfinb k = true -> (0 <=? x) = true -> (0 <=? x * k) = true.
Proof.
  intros Hk Hx. apply leb_trans with (0 * k).
  - destruct (posfinb_posfin k Hk) as (m & e & Ek).
    rewrite leb_spec, mul_spec, Ek. reflexivity.
  - apply mul_le; [ apply posfinb_posfin; exact Hk | exact Hx ].
Qed.

Lemma bracket_formula_below_top (rate deduction x : float) :
  posfinb rate = true -> posfinb deduction = true ->
  (rate <=? 0.275) = true -> (0 <=? x) = true ->
  (x * rate - deduction <=? x * 0.275) = true.
Proof.
  intros Hr Hd Hle Hx.
  apply leb_trans with (x * rate).
  - apply sub_le_self; [ apply mul_nn; assumption | exact Hd ].
  - apply mul_const_le; try assumption. reflexivity.
Qed.

(** On binary64, whatever the regime string, known or not, the monthly
    tax of a non-negative income is never negative (nor NaN) and never
    more than 303.60 plus 27.5 percent of the income. *)
Theorem tax_bounds (x : float) (regime : string) :
  (0 <=? x) = true ->
  (0 <=? calculateMonthlyTaxes x regime) = true
  /\ (calculateMonthlyTaxes x regime <=? 303.60 + x * 0.275) = true.
Proof.
  intros Hx. split; [ apply taxes_nn; exact Hx | ].
  assert (Htop : (0 <=? x * 0.275) = true)
    by (apply mul_nn; [ reflexivity | exact Hx ]).
  unfold calculateMonthlyTaxes.
  destruct (String.eqb regime "MEI").
  { apply leb_trans with (303.6 + 0); [ reflexivity | ].
    apply add_le_r; [ const_side | exact Htop ]. }
  destruct (String.eqb regime "PJ_SIMPLES").
  { apply leb_trans with (x * 0.275).
    - apply mul_const_le; try reflexivity. exact Hx.
    - apply add_nn_l; [ reflexivity | exact Htop ]. }
  destruct (String.eqb regime "PJ_PRESUMIDO").
  { apply leb_trans with (x * 0.275).
    - apply mul_const_le; try reflexivity. exact Hx.
    - apply add_nn_l; [ reflexivity | exact Htop ]. }
  destruct (String.eqb regime "AUTONOMO").
  - change ((303.6 + calculateProgressiveIR x <=? 303.6 + x * 0.275) = true).
    apply add_le_r; [ const_side | ].
    unfold calculateProgressiveIR.
    destruct (num_le x (num_lit 2259.20)); [ exact Htop | ].
    destruct (num_le x (num_lit 2828.65));
      [ apply bracket_formula_below_top; first [ reflexivity | exact Hx ] | ].
    destruct (num_le x (num_lit 3751.05));
      [ apply bracket_formula_below_top; first [ reflexivity | exact Hx ] | ].
    destruct (num_le x (num_lit 4664.68));
      apply bracket_formula_below_top; first [ reflexivity | exact Hx ].
  - apply add_nn; [ reflexivity | exact Htop ].
Qed.

Lemma tax_bounds_witness :
  (0 <=? 3000) = true
  /\ (calculateMonthlyTaxes 3000 "AUTONOMO" <=? 303.60 + 3000 * 0.275) = true.
Proof.
  split; [ reflexivity | ].
  apply (tax_bounds 3000 "AUTONOMO"). reflexivity.
Defined.

End Binary64Laws.

(** ** Edge cases of the program as executed (binary64) *)

Module EdgeCases64.

Local Open Scope string_scope.
Local Open Scope float_scope.

Ltac float_ops :=
  cbv [num_add num_sub num_mul num_div num_le num_lt num_round
       Binary64.number] in *.

Lemma add_nan_r (x : float) : x + nan = nan.
Proof.
  apply Prim2SF_inj. rewrite add_spec.
  change (Prim2SF nan) with S754_nan.
  destruct (Prim2SF x) as [[ | ] | [ | ] | | [ | ] m e]; reflexivity.
Qed.

Lemma add_nan_l (y : float) : nan + y = nan.
Proof.
  apply Prim2SF_inj. rewrite add_spec.
  change (Prim2SF nan) with S754_nan. reflexivity.
Qed.

Lemma div_nan_l (y : float) : nan / y = nan.
Proof.
  apply Prim2SF_inj. rewrite div_spec.
  change (Prim2SF nan) with S754_nan. reflexivity.
Qed.

Lemma mul_nan_l (y : float) : nan * y = nan.
Proof.
  apply Prim2SF_inj. rewrite mul_spec.
  change (Prim2SF nan) with S754_nan. reflexivity.
Qed.

(** A finite positive number times +0 is +0. *)
Lemma mul_pos_zero (x : float) :
  (0 <? x) = true -> (x <? infinity) = true -> x * 0 = 0.
Proof.
  intros Hpos Hfin. apply Prim2SF_inj.
  rewrite mul_spec. rewrite ltb_spec in Hpos, Hfin.
  change (Prim2SF 0) with (S754_zero false) in *.
  change (Prim2SF infinity) with (S754_infinity false) in *.
  destruct (Prim2SF x) as [[ | ] | [ | ] | | [ | ] m e];
    first [ discriminate Hpos | discriminate Hfin | reflexivity ].
Qed.

(** +infinity times a positive number is +infinity. *)
Lemma infinity_mul_pos (x : float) :
  (0 <? x) = true -> infinity * x = infinity.
Proof.
  intros Hpos. apply Prim2SF_inj.
  rewrite mul_spec. rewrite ltb_spec in Hpos.
  change (Prim2SF 0) with (S754_zero false) in *.
  change (Prim2SF infinity) with (S754_infinity false) in *.
  destruct (Prim2SF x) as [[ | ] | [ | ] | | [ | ] m e];
    first [ discriminate Hpos | reflexivity ].
Qed.

(** With 52 weeks of vacation nothing fails: for finite positive
    [hoursPerDay] and [daysPerWeek] the Output reports 0 working days and 0
    working hours, and whenever the monthly rate is positive the hourly,
    daily and weekly rates are all +infinity. *)
Theorem no_working_week_gives_infinite_rates (input : Input.t float) :
  Input.vacationWeeks input = 52 ->
  (0 <? Input.hoursPerDay input) = true ->
  (Input.hoursPerDay input <? infinity) = true ->
  (0 <? Input.daysPerWeek input) = true ->
  (Input.daysPerWeek input <? infinity) = true ->
  let out := calculate input in
  Output.workingDaysPerMonth out = 0
  /\ Output.workingHoursPerMonth out = 0
  /\ ((0 <? Output.monthlyRate out) = true ->
      Output.hourlyRate out = infinity
      /\ Output.dailyRate out = infinity
      /\ Output.weeklyRate out = infinity).
Proof.
  intros Hvac Hh Hhfin Hd Hdfin out.
  assert (Edays : unroundedWorkingHoursPerMonth input = 0
                  /\ Output.workingDaysPerMonth out = 0).
  { subst out. unfold unroundedWorkingHoursPerMonth, calculate.
    cbn [Output.workingDaysPerMonth]. rewrite Hvac. float_ops.
    change (num_lit 52 - 52) with 0.
    rewrite (mul_pos_zero _ Hd Hdfin).
    change (0 / num_lit 12) with 0.
    rewrite (mul_pos_zero _ Hh Hhfin). split; reflexivity. }
  destruct Edays as [Ew Edays].
  assert (Ehours : Output.workingHoursPerMonth out = 0).
  { change (Output.workingHoursPerMonth out)
      with (Binary64.round (unroundedWorkingHoursPerMonth input)).
    rewrite Ew. reflexivity. }
  split; [ exact Edays | split; [ exact Ehours | intros Hrate ] ].
  assert (Ehr : Output.hourlyRate out = infinity).
  { change (Output.hourlyRate out)
      with (Output.monthlyRate out / unroundedWorkingHoursPerMonth input).
    rewrite Ew. now apply Binary64Facts.div_pos_zero. }
  split; [ | split ].
  - exact Ehr.
  - change (Output.dailyRate out)
      with (Output.hourlyRate out * Input.hoursPerDay input).
    rewrite Ehr. now apply infinity_mul_pos.
  - change (Output.weeklyRate out)
      with (Output.hourlyRate out * Input.hoursPerDay input
            * Input.daysPerWeek input).
    rewrite Ehr. rewrite (infinity_mul_pos _ Hh). now apply infinity_mul_pos.
Qed.

Lemma no_working_week_gives_infinite_rates_witness :
  let input : Input.t float := Scenario.autonomo 3000 52 in
  Input.vacationWeeks input = 52
  /\ (0 <? Output.monthlyRate (calculate input)) = true
  /\ Output.workingHoursPerMonth (calculate input) = 0
  /\ Output.hourlyRate (calculate input) = infinity.
Proof.
  intros input.
  pose proof (no_working_week_gives_infinite_rates input
                eq_refl eq_refl eq_refl eq_refl eq_refl) as (_ & Hw & Hr).
  split; [ reflexivity | split; [ reflexivity | split; [ exact Hw | ] ] ].
  apply Hr. reflexivity.
Defined.

(** A field that did not parse poisons every rate: when
    [desiredMonthlyIncome], [monthlyExpenses] or [variableExpenses] is NaN
    (what [parseFloat] gives for an empty field), the total cost and the
    monthly, hourly, daily and weekly rates of the Output are all NaN. *)
Theorem nan_amount_gives_nan_rates (input : Input.t float) :
  Input.desiredMonthlyIncome input = nan
  \/ Input.monthlyExpenses input = nan
  \/ Input.variableExpenses input = nan ->
  let out := calculate input in
  Output.totalMonthlyCosts out = nan
  /\ Output.monthlyRate out = nan
  /\ Output.hourlyRate out = nan
  /\ Output.dailyRate out = nan
  /\ Output.weeklyRate out = nan.
Proof.
  intros Hnan out.
  assert (Et : Output.totalMonthlyCosts out = nan).
  { subst out. unfold calculate. cbn [Output.totalMonthlyCosts]. float_ops.
    destruct Hnan as [E | [E | E]]; rewrite E.
    - now rewrite !add_nan_l.
    - now rewrite add_nan_r, add_nan_l.
    - now rewrite add_nan_r. }
  assert (Em : Output.monthlyRate out = nan).
  { change (Output.monthlyRate out)
      with (Output.totalMonthlyCosts out
            / (num_lit 1 - Input.profitMarginPercentage input / num_lit 100)).
    rewrite Et. apply div_nan_l. }
  assert (Eh : Output.hourlyRate out = nan).
  { change (Output.hourlyRate out)
      with (Output.monthlyRate out / unroundedWorkingHoursPerMonth input).
    rewrite Em. apply div_nan_l. }
  assert (Ed : Output.dailyRate out = nan).
  { change (Output.dailyRate out)
      with (Output.hourlyRate out * Input.hoursPerDay input).
    rewrite Eh. apply mul_nan_l. }
  repeat split; try assumption.
  change (Output.weeklyRate out)
    with (Output.dailyRate out * Input.daysPerWeek input).
  rewrite Ed. apply mul_nan_l.
Qed.

Lemma nan_amount_gives_nan_rates_witness :
  let input : Input.t float :=
    {| Input.desiredMonthlyIncome := 3000;
       Input.hoursPerDay := 6;
       Input.daysPerWeek := 5;
       Input.vacationWeeks := 4;
       Input.taxRegime := "MEI";
       Input.include13th := false;
       Input.includeVacation := false;
       Input.monthlyExpenses := nan;
       Input.variableExpenses := 0;
       Input.profitMarginPercentage := 20 |} in
  Input.monthlyExpenses input = nan
  /\ Output.hourlyRate (calculate input) = nan.
Proof.
  intros input. split; [ reflexivity | ].
  apply (nan_amount_gives_nan_rates input). right. left. reflexivity.
Defined.

(** On the page the vacation is fixed at four weeks, and then no rounding
    is lost: for every whole number of hours from 1 to 24 and of days from
    1 to 7 the Output reports exactly [4 * days] working days and
    [4 * hours * days] working hours a month, and the hourly rate is the
    monthly rate divided by that very number of hours. *)
Theorem form_hours_are_whole (form : Form.values float) (h d : Z) :
  (1 <= h <= 24)%Z -> (1 <= d <= 7)%Z ->
  Form.hoursPerDay form = Binary64.of_Z h ->
  Form.daysPerWeek form = Binary64.of_Z d ->
  let out := calculate (collectInput form) in
  Output.workingDaysPerMonth out = Binary64.of_Z (4 * d)
  /\ Output.workingHoursPerMonth out = Binary64.of_Z (4 * h * d)
  /\ Output.hourlyRate out
     = Output.monthlyRate out / Binary64.of_Z (4 * h * d).
Proof.
  intros Hh Hd Eh Ed out.
  pose (days := fun d : Z => Binary64.of_Z d * (num_lit 52 - num_lit 4)
                              / num_lit 12).
  pose (check := fun h d : Z =>
    PrimFloat.Leibniz.eqb (Binary64.round (days d)) (Binary64.of_Z (4 * d))
    && PrimFloat.Leibniz.eqb (Binary64.of_Z h * days d)
                             (Binary64.of_Z (4 * h * d))
    && PrimFloat.Leibniz.eqb (Binary64.round (Binary64.of_Z h * days d))
                             (Binary64.of_Z (4 * h * d))).
  pose (upto := fun n : nat => map Z.of_nat (seq 1 n)).
  assert (Hall : forallb (fun h => forallb (check h) (upto 7%nat))
                   (upto 24%nat) = true)
    by (vm_compute; reflexivity).
  rewrite forallb_forall in Hall.
  assert (Hin : In h (upto 24%nat)) by (simpl; lia).
  specialize (Hall h Hin). rewrite forallb_forall in Hall.
  assert (Hin' : In d (upto 7%nat)) by (simpl; lia).
  specialize (Hall d Hin'). subst check. cbv beta in Hall.
  rewrite !andb_true_iff in Hall. destruct Hall as [[E1 E2] E3].
  apply FloatAxioms.Leibniz.eqb_spec in E1, E2, E3.
  assert (Ew : unroundedWorkingHoursPerMonth (collectInput form)
               = Binary64.of_Z (4 * h * d)).
  { unfold unroundedWorkingHoursPerMonth, collectInput.
    cbn [Input.hoursPerDay Input.daysPerWeek Input.vacationWeeks].
    rewrite Eh, Ed. exact E2. }
  repeat split.
  - subst out. unfold calculate, collectInput.
    cbn [Output.workingDaysPerMonth Input.daysPerWeek Input.vacationWeeks].
    rewrite Ed. exact E1.
  - change (Output.workingHoursPerMonth out)
      with (Binary64.round
              (unroundedWorkingHoursPerMonth (collectInput form))).
    rewrite Ew. congruence.
  - change (Output.hourlyRate out)
      with (Output.monthlyRate out
            / unroundedWorkingHoursPerMonth (collectInput form)).
    rewrite Ew. reflexivity.
Qed.

Lemma form_hours_are_whole_witness :
  let form : Form.values float :=
    {| Form.monthlyIncome := 3000;
       Form.hoursPerDay := 6;
       Form.daysPerWeek := 5;
       Form.taxRegime := "MEI";
       Form.include13th := false;
       Form.includeVacation := false;
       Form.monthlyExpenses := 200;
       Form.variableExpenses := 0;
       Form.profitMargin := 20 |} in
  (1 <= 6 <= 24)%Z /\ (1 <= 5 <= 7)%Z
  /\ Output.workingHoursPerMonth (calculate (collectInput form)) = 120.
Proof.
  intros form. split; [ lia | split; [ lia | ] ].
  apply (form_hours_are_whole form 6 5); first [ lia | reflexivity ].
Defined.

End EdgeCases64.

(** ** The regime table against the tax switch *)

Section RegimeTableFacts.

Context {N : Type} `{JSNumber N}.
Variable toFixed2 : N -> string.
Local Open Scope string_scope.


Lemma own_entry_known (r : string) (info : TaxInfo.t N) :
  ownProperty r (taxRegimesTable toFixed2) = Some info -> In r taxRegimes.
Proof.
  unfold taxRegimesTable, taxRegimes. cbn [ownProperty In].
  repeat match goal with
         | |- context [String.eqb ?k r] =>
             destruct (String.eqb_spec k r); [ subst r; intros _; tauto | ]
         end.
  discriminate.
Qed.



(** A fixed monthly cost is listed for MEI only, and it is the tax the
    calculator charges under MEI at every income; the other entries list a
    percentage instead. *)
Theorem listed_monthly_cost_is_charged (r : string) (info : TaxInfo.t N) :
  getTaxInfo toFixed2 r = TaxInfo.Entry info ->
  match TaxInfo.monthly_cost info with
  | Some cost =>
      r = "MEI" /\ TaxInfo.percentage info = None
      /\ forall x : N, calculateMonthlyTaxes x r = cost
  | None => r <> "MEI" /\ TaxInfo.percentage info <> None
  end.
Proof.
  unfold getTaxInfo.
  destruct (ownProperty r (taxRegimesTable toFixed2)) as [i | ] eqn:Eo;
    [ | destruct (existsb (String.eqb r) objectPrototypeKeys); discriminate ].
  intros E. injection E as ->.
  pose proof (own_entry_known r info Eo) as Hin.
  destruct Hin as [E | [E | [E | [E | []]]]]; subst r;
    cbn in Eo; injection Eo as <-; cbn;
    repeat split; try discriminate; reflexivity.
Qed.

End RegimeTableFacts.

Lemma listed_monthly_cost_is_charged_witness :
  let toFixed2 := fun _ : float => "81.90"%string in
  exists info,
    getTaxInfo toFixed2 "MEI" = TaxInfo.Entry info
    /\ forall x : float,
         Some (calculateMonthlyTaxes x "MEI") = TaxInfo.monthly_cost info.
Proof.
  intros toFixed2. eexists. split; [ reflexivity | ].
  intros x.
  pose proof (listed_monthly_cost_is_charged toFixed2 "MEI" _ eq_refl) as Hc.
  cbn [TaxInfo.monthly_cost] in Hc. destruct Hc as (_ & _ & Hc).
  now rewrite Hc.
Defined.

(** ** Session functions (src/frontend/auth.js) *)

Module StorageFacts.

Import Storage.

Lemma get_remove_same (k : string) (s : Storage.t) :
  getItem k (removeItem k s) = None.
Proof.
  induction s as [ | [k' v] s IH]; [ reflexivity | ].
  unfold removeItem in *. cbn [filter fst].
  destruct (String.eqb k' k) eqn:E; cbn [negb]; [ exact IH | ].
  cbn [getItem]. rewrite E. exact IH.
Qed.

Lemma get_remove_other (k k' : string) (s : Storage.t) :
  k' <> k -> getItem k' (removeItem k s) = getItem k' s.
Proof.
  intros Hneq. induction s as [ | [k0 v] s IH]; [ reflexivity | ].
  unfold removeItem in *. cbn [filter fst getItem].
  destruct (String.eqb k0 k) eqn:E; cbn [negb].
  - apply String.eqb_eq in E. subst k0.
    destruct (String.eqb k k') eqn:E'.
    + apply String.eqb_eq in E'. congruence.
    + exact IH.
  - cbn [getItem]. destruct (String.eqb k0 k'); [ reflexivity | exact IH ].
Qed.

Lemma get_set_same (k v : string) (s : Storage.t) :
  getItem k (setItem k v s) = Some v.
Proof. unfold setItem. cbn [getItem]. now rewrite String.eqb_refl. Qed.

Lemma get_set_other (k k' v : string) (s : Storage.t) :
  k' <> k -> getItem k' (setItem k v s) = getItem k' s.
Proof.
  intros Hneq. unfold setItem. cbn [getItem].
  destruct (String.eqb k k') eqn:E.
  - apply String.eqb_eq in E. congruence.
  - now apply get_remove_other.
Qed.

End StorageFacts.

Module SessionFacts.

Import Session.
Local Open Scope string_scope.

(** [isAuthenticated] is true exactly when a non-empty token is stored: a
    stored empty string counts as signed out. *)
Theorem authenticated_iff_nonempty_token (b : Browser) :
  isAuthenticated b = true
  <-> exists t, getToken b = Some t /\ t <> "".
Proof.
  unfold isAuthenticated, truthy. destruct (getToken b) as [t | ].
  - rewrite negb_true_iff. split.
    + intros E. exists t. split; [ reflexivity | ].
      now apply String.eqb_neq.
    + intros (t' & [= ->] & Hne). now apply String.eqb_neq.
  - split; [ discriminate | intros (t & E & _); discriminate ].
Qed.

(** After [logout], whatever the state before, no token is stored, the
    visitor is not authenticated and is on the login page; every other key
    of the storage is as it was. *)
Theorem logout_signs_out (b : Browser) :
  let b' := logout b in
  getToken b' = None
  /\ isAuthenticated b' = false
  /\ location_href b' = "/login.html"
  /\ forall k, k <> "access_token" ->
       Storage.getItem k (localStorage b') = Storage.getItem k (localStorage b).
Proof.
  intros b'.
  assert (E : getToken b' = None) by apply StorageFacts.get_remove_same.
  repeat split.
  - exact E.
  - unfold isAuthenticated. now rewrite E.
  - intros k Hk. now apply StorageFacts.get_remove_other.
Qed.

(** The two page guards never fight: in every state exactly one of them
    redirects, and a visitor run through the guard of a protected page and
    then through the guard of the login page ends on the index page when
    authenticated and on the login page otherwise, with the storage
    untouched. *)
Theorem guards_are_complementary (b : Browser) :
  (isAuthenticated b = true
   /\ redirectIfNotAuthenticated b = b
   /\ location_href (redirectIfAuthenticated b) = "/index.html")
  \/ (isAuthenticated b = false
      /\ redirectIfAuthenticated b = b
      /\ location_href (redirectIfNotAuthenticated b) = "/login.html"
      /\ redirectIfAuthenticated (redirectIfNotAuthenticated b)
         = redirectIfNotAuthenticated b).
Proof.
  unfold redirectIfNotAuthenticated, redirectIfAuthenticated.
  destruct (isAuthenticated b) eqn:E; [ left | right ]; cbn [negb].
  - repeat split.
  - repeat split.
    unfold isAuthenticated, getToken in *. cbn [localStorage]. now rewrite E.
Qed.

End SessionFacts.

Module AuthClassFacts.

Import AuthClass.
Local Open Scope string_scope.

Section JSONFacts.

Variable User : Type.
Variable JSON_parse : string -> parsed User.
Variable JSON_stringify : User -> string.

(** [TokenManager.set] then [get] gives the token back and leaves the
    stored user alone; [remove] clears the token and the user and nothing
    else. *)
Theorem token_manager_round_trip (token : string) (b : Browser) :
  TokenManager_get (TokenManager_set token b) = Some token
  /\ Storage.getItem "freelabr_user" (localStorage (TokenManager_set token b))
     = Storage.getItem "freelabr_user" (localStorage b)
  /\ TokenManager_get (TokenManager_remove b) = None
  /\ TokenManager_getUser User JSON_parse (TokenManager_remove b) = Parsed None
  /\ forall k, k <> "freelabr_token" -> k <> "freelabr_user" ->
       Storage.getItem k (localStorage (TokenManager_remove b))
       = Storage.getItem k (localStorage b).
Proof.
  unfold TokenManager_get, TokenManager_set, TokenManager_remove,
    TokenManager_getUser.
  cbn [localStorage].
  split; [ apply StorageFacts.get_set_same | ].
  split; [ apply StorageFacts.get_set_other; discriminate | ].
  split.
  { rewrite StorageFacts.get_remove_other by discriminate.
    apply StorageFacts.get_remove_same. }
  split; [ now rewrite StorageFacts.get_remove_same | ].
  intros k Hk1 Hk2. now rewrite !StorageFacts.get_remove_other.
Qed.

(** A user saved with [setUser] is read back by [getUser] whenever [JSON]
    round-trips it to a non-empty text. *)
Theorem stored_user_round_trip (u : User) (b : Browser) :
  JSON_parse (JSON_stringify u) = Parsed u ->
  JSON_stringify u <> "" ->
  TokenManager_getUser User JSON_parse
    (TokenManager_setUser User JSON_stringify u b) = Parsed (Some u).
Proof.
  intros Hparse Hne.
  unfold TokenManager_getUser, TokenManager_setUser. cbn [localStorage].
  rewrite StorageFacts.get_set_same. unfold truthy.
  apply String.eqb_neq in Hne. rewrite Hne. cbn [negb]. now rewrite Hparse.
Qed.

(** [Auth.logout] signs out for good: the object holds no token and no
    user, both keys are gone from the storage, the page is the login page,
    [requireAuth] then refuses, the headers carry the text "Bearer null",
    and a page load afterwards constructs an unauthenticated [Auth] without
    parsing anything. *)
Theorem auth_logout_signs_out (this : Auth User) (b : Browser) :
  let '(this', b') := logout User this b in
  isAuthenticated User this' = false
  /\ token User this' = None /\ user User this' = None
  /\ TokenManager_get b' = None
  /\ Storage.getItem "freelabr_user" (localStorage b') = None
  /\ location_href b' = "/login.html"
  /\ fst (requireAuth User this' b') = false
  /\ getAuthHeaders User this'
     = [("Authorization", "Bearer null"); ("Content-Type", "application/json")]
  /\ constructor User JSON_parse b' = Parsed this'.
Proof.
  unfold logout, TokenManager_remove. cbn [localStorage].
  assert (Et : Storage.getItem "freelabr_token"
                 (Storage.removeItem "freelabr_user"
                    (Storage.removeItem "freelabr_token" (localStorage b)))
               = None).
  { rewrite StorageFacts.get_remove_other by discriminate.
    apply StorageFacts.get_remove_same. }
  assert (Eu : Storage.getItem "freelabr_user"
                 (Storage.removeItem "freelabr_user"
                    (Storage.removeItem "freelabr_token" (localStorage b)))
               = None) by apply StorageFacts.get_remove_same.
  repeat split; try assumption.
  unfold constructor, TokenManager_getUser, TokenManager_get.
  cbn [localStorage]. rewrite Eu, Et. reflexivity.
Qed.

End JSONFacts.

Lemma stored_user_round_trip_witness :
  let b := {| localStorage := []; location_href := "/index.html" |} in
  TokenManager_getUser string (fun s => Parsed s)
    (TokenManager_setUser string (fun u => u) "ana" b) = Parsed (Some "ana").
Proof.
  intros b.
  apply (stored_user_round_trip string (fun s => Parsed s) (fun u => u) "ana" b);
    [ reflexivity | discriminate ].
Defined.

End AuthClassFacts.
